(** * The 2048 move engine and game-state controller

    A shallow embedding of [game/gameLogic.ts] and [game/gameState.ts]
    (with the types of [types/game.ts]) and the properties of the engine:
    slide/merge conservation, the no-double-merge rule, the grid
    invariant, status evaluation, bounded undo history, configuration
    validation and the weighted spawn selector.

    Modelling conventions.
    - JavaScript numbers that hold integers (coordinates, tile values,
      scores, targets, array lengths) are [Z].  The other numbers (the
      grid size of a configuration, probabilities, [Math.random()] draws)
      are finite IEEE 754 doubles, given by their exact value in [Q];
      [+], [-] and [*] on them round the exact result to the nearest
      double, ties to even ([round64]), a sum or difference that
      overflows being an infinity ([number]); a decimal literal denotes
      the nearest double ([decimal]); comparisons and [Math.floor] are
      exact.  NaN and the sign of zero, which no operation of the program
      produces from finite doubles, are not represented.  [&] goes
      through [ToInt32] as in ECMAScript.
    - [(Tile | null)[][]] is [list (list (option Tile))]; an [undefined]
      read (index out of range) is the outer [None] of [grid_at].
    - The module-level [tileIdCounter], [Date.now()] and [Math.random()]
      are the fields of an explicit [World] threaded by the monad [M];
      a JavaScript exception is the [None] outcome of [M].

    The file has three parts: the program, the vocabulary of the
    properties, and the lemmas and theorems. *)

From Stdlib Require Import ZArith QArith Qround Qabs Qpower Lia Lqa String.
From stdpp Require Import base list gmap strings.

Set Warnings "-register-all,-clear-no-such-hyp".

Local Open Scope Z_scope.

(** ** Numbers (IEEE 754 binary64) *)

(** [floor (log2 x)] for a positive [x]. *)
Definition binade (x : Q) : Z :=
  let e := Z.log2 (Qnum x) - Z.log2 (Z.pos (Qden x)) in
  if Qle_bool (2 ^ e) x then e else e - 1.

(** The integer nearest to [q]; of two nearest ones, the even one. *)
Definition nearest_even (q : Q) : Z :=
  let f := Qfloor q in
  match (q - inject_Z f ?= 1 # 2)%Q with
  | Lt => f
  | Gt => f + 1
  | Eq => if Z.even f then f else f + 1
  end.

(** The double nearest to the real [x]: a multiple of [2^c] with a
    significand of at most 53 bits, where [c] is 52 below the binade of
    [x] and at least -1074 (subnormal numbers). *)
Definition round64 (x : Q) : Q :=
  if Qeq_bool x 0 then 0%Q
  else
    let c := Z.max (binade (Qabs x) - 52) (-1074) in
    (inject_Z (nearest_even (x / 2 ^ c)) * 2 ^ c)%Q.

(** A number computed from finite doubles: a finite double or an
    infinity. *)
Inductive number := finite (q : Q) | infinity (negative : bool).

(** The double nearest to the real [x], or the infinity of its sign when
    that double would be [2^1024] or more in magnitude. *)
Definition rounded (x : Q) : number :=
  let y := round64 x in
  if Qle_bool (2 ^ 1024) (Qabs y) then infinity (negb (Qle_bool 0 y))
  else finite y.

(** [a + b] and [a - b] for a finite [b]. *)
Definition plus64 (a : number) (b : Q) : number :=
  match a with
  | finite a => rounded (a + b)
  | infinity _ => a
  end.

Definition minus64 (a : number) (b : Q) : number :=
  match a with
  | finite a => rounded (a - b)
  | infinity _ => a
  end.

(** [Math.abs] *)
Definition abs64 (a : number) : number :=
  match a with
  | finite a => finite (Qabs a)
  | infinity _ => infinity false
  end.

(** [a <= b] and [a > b] against a finite double. *)
Definition leb64 (a : Q) (b : number) : bool :=
  match b with
  | finite b => Qle_bool a b
  | infinity negative => negb negative
  end.

Definition gtb64 (a : number) (b : Q) : bool :=
  match a with
  | finite a => negb (Qle_bool a b)
  | infinity negative => negb negative
  end.

(** [a * b], for the product of a draw and an array length.  An overflow
    of this product, which takes a draw far outside [[0, 1)], is not
    represented: the infinity it gives is no index of an array, and
    neither is the number of magnitude [2^1024] or more it is here. *)
Definition times64 (a b : Q) : Q := round64 (a * b).

(** The double that a decimal literal denotes. *)
Definition decimal (q : Q) : Q := round64 q.

(** A double: a rational that rounding leaves unchanged. *)
Record double := mkDouble {
  double_value :> Q;
  double_exact : Qeq_bool (round64 double_value) double_value = true;
}.

Definition zero64 : double := mkDouble 0 eq_refl.

(** [a < b] and [a > b] on numbers. *)
Definition Qltb (a b : Q) : bool := negb (Qle_bool b a).
Definition Qgtb (a b : Q) : bool := negb (Qle_bool a b).

(** [Number.isInteger] *)
Definition Number_isInteger (x : Q) : bool :=
  Qeq_bool (inject_Z (Qfloor x)) x.

(** The integer that [ToInt32] reduces modulo [2^32]: the integer part,
    towards zero, of a finite number, and 0 for an infinity. *)
Definition truncate (x : number) : Z :=
  match x with
  | finite x => if Qle_bool 0 x then Qfloor x else Qceiling x
  | infinity _ => 0
  end.

(** [Array(len)] for a number [len]: the length of the new array;
    [None] is the RangeError raised unless [len] is an integer from 0 to
    [2^32 - 1]. *)
Definition Array_length (len : Q) : option nat :=
  if Number_isInteger len && Qle_bool 0 len && Qltb len (inject_Z (2 ^ 32))
  then Some (Z.to_nat (Qfloor len)) else None.

(** ** Types ([types/game.ts]) *)

Record Cell := mkCell { row : Z; col : Z }.

(** [`tile-${Date.now()}-${tileIdCounter++}`]: the two numbers that make
    up the identifier string. *)
Record TileId := mkTileId { stamp : Z; serial : nat }.

(** The field [id] is named [tid] here ([id] is the identity function). *)
Inductive Tile := mkTile {
  tid : TileId;
  value : Z;
  position : Cell;
  mergedFrom : option (list Tile);
}.

Inductive Direction := Up | Down | Left | Right.

Inductive GameStatus := Playing | Won | Lost.

(** [{ value, probability }] *)
Record SpawnConfig := mkSpawn { sv_value : Z; probability : Q }.

Record GameConfig := mkConfig {
  gridSize : Q;
  targetValue : Z;
  spawnValues : list SpawnConfig;
  maxUndoStates : option Z;     (* optional field *)
}.

(** [(Tile | null)[][]] *)
Abbreviation Grid := (list (list (option Tile))).

Inductive GameState := mkState {
  grid : Grid;
  score : Z;
  status : GameStatus;
  previousStates : list GameState;
  config : GameConfig;
  moveCount : Z;
  wonAndContinued : option bool;   (* absent in states built by initializeGame *)
}.

(** [{ newState, moved, score, mergedTiles }]; its [score] is [mr_score]. *)
Record MoveResult := mkMoveResult {
  newState : GameState;
  moved : bool;
  mr_score : Z;
  mergedTiles : list Tile;
}.

Global Instance Cell_eq_dec : EqDecision Cell.
Proof. solve_decision. Defined.

Global Instance GameStatus_eq_dec : EqDecision GameStatus.
Proof. solve_decision. Defined.

(** ** The ambient world: id counter, clock and random source *)

Record World := mkWorld {
  tileIdCounter : nat;      (* [let tileIdCounter = 0], never reset *)
  Date_now : nat → Z;       (* clock reading when the k-th id is generated *)
  random_calls : nat;       (* number of [Math.random()] calls made so far *)
  Math_random : nat → double;  (* result of the k-th [Math.random()] call *)
}.

(** State-and-exception monad: [None] is a thrown exception. *)
Definition M (A : Type) : Type := World → option (A * World).

Definition ret {A} (a : A) : M A := λ w, Some (a, w).
Definition bind {A B} (m : M A) (k : A → M B) : M B :=
  λ w, match m w with Some (a, w') => k a w' | None => None end.
Definition throw {A} : M A := λ _, None.
Definition lift {A} (o : option A) : M A :=
  λ w, match o with Some a => Some (a, w) | None => None end.

Notation "'let*' x ':=' m 'in' k" := (bind m (λ x, k))
  (at level 10, x name, m at level 100, k at level 200, only parsing).

Fixpoint foldM {A S} (f : S → A → M S) (l : list A) (s : S) : M S :=
  match l with
  | [] => ret s
  | x :: xs => let* s' := f s x in foldM f xs s'
  end.

Definition Math_random_call : M Q :=
  λ w, Some (double_value (Math_random w (random_calls w)),
             mkWorld (tileIdCounter w) (Date_now w) (S (random_calls w)) (Math_random w)).

(** ** Grid primitives ([gameLogic.ts]) *)

Definition generateTileId : M TileId :=
  λ w, Some (mkTileId (Date_now w (tileIdCounter w)) (tileIdCounter w),
             mkWorld (S (tileIdCounter w)) (Date_now w) (random_calls w) (Math_random w)).

Definition createTile (position : Cell) (value : Z) : M Tile :=
  let* i := generateTileId in
  ret (mkTile i value position None).

(** [Array(size).fill(null).map(() => Array(size).fill(null))] for a
    size that is a valid array length ([Array_length]). *)
Definition createEmptyGrid (size : nat) : Grid :=
  replicate size (replicate size None).

(** [{ ...t }] *)
Definition spread (t : Tile) : Tile :=
  mkTile (tid t) (value t) (position t) (mergedFrom t).

(** [{ ...t, position: p }] *)
Definition with_position (t : Tile) (p : Cell) : Tile :=
  mkTile (tid t) (value t) p (mergedFrom t).

Definition with_mergedFrom (t : Tile) (ms : list Tile) : Tile :=
  mkTile (tid t) (value t) (position t) (Some ms).

Definition cloneCell (c : Cell) : Cell := mkCell (row c) (col c).

Definition cloneTile (t : Tile) : Tile :=
  mkTile (tid t) (value t) (cloneCell (position t))
         (option_map (map spread) (mergedFrom t)).

Definition cloneGrid (g : Grid) : Grid :=
  map (map (option_map cloneTile)) g.

(** [arr[i]] for a numeric index: [None] is [undefined]. *)
Definition index {A} (l : list A) (i : Z) : option A :=
  if i <? 0 then None else l !! Z.to_nat i.

(** [grid[c.row][c.col]]; [None] when the row or the column is out of
    range ([undefined], or a TypeError for a missing row). *)
Definition grid_at (g : Grid) (c : Cell) : option (option Tile) :=
  match index g (row c) with
  | Some r => index r (col c)
  | None => None
  end.

(** [grid[c.row][c.col] = v] for a cell inside the matrix.  Outside it
    JavaScript raises (missing row) or grows the row with holes; every
    write of the engine is in range, so both are the outcome [None]. *)
Definition grid_set (g : Grid) (c : Cell) (v : option Tile) : option Grid :=
  match index g (row c) with
  | Some r =>
      match index r (col c) with
      | Some _ => Some (<[Z.to_nat (row c) := <[Z.to_nat (col c) := v]> r]> g)
      | None => None
      end
  | None => None
  end.

Definition indices {A} (l : list A) : list nat := seq 0 (length l).

Definition getEmptyCells (g : Grid) : list Cell :=
  flat_map (λ r : nat,
    match g !! r with
    | Some rw =>
        flat_map (λ c : nat,
          match rw !! c with
          | Some None => [mkCell (Z.of_nat r) (Z.of_nat c)]
          | _ => []
          end) (indices rw)
    | None => []
    end) (indices g).

Definition getAllTiles (g : Grid) : list Tile :=
  flat_map (λ rw : list (option Tile),
    flat_map (λ s : option Tile,
      match s with Some t => [t] | None => [] end) rw) g.

(** ** Spawn selector *)

(** The [for ... of] loop of [selectSpawnValue]: [Some v] is the early
    [return config.value], [None] is falling out of the loop. *)
Fixpoint selectSpawnValue_loop (random : Q) (cumulative : number)
    (l : list SpawnConfig) : option Z :=
  match l with
  | [] => None
  | config :: rest =>
      let cumulative := plus64 cumulative (probability config) in
      if leb64 random cumulative then Some (sv_value config)
      else selectSpawnValue_loop random cumulative rest
  end.

(** [selectSpawnValue] once [Math.random()] has returned [random];
    [None] is the TypeError of [spawnValues[0].value] on an empty table. *)
Definition selectSpawnValue_with (random : Q) (spawnValues : list SpawnConfig)
  : option Z :=
  match selectSpawnValue_loop random (finite 0) spawnValues with
  | Some v => Some v
  | None =>
      match spawnValues !! 0%nat with
      | Some first => Some (sv_value first)
      | None => None
      end
  end.

Definition selectSpawnValue (spawnValues : list SpawnConfig) : M Z :=
  let* random := Math_random_call in
  lift (selectSpawnValue_with random spawnValues).

(** [null] (no empty cell) is the inner [None]. *)
Definition spawnRandomTile (g : Grid) (spawnValues : list SpawnConfig)
  : M (option Grid) :=
  let emptyCells := getEmptyCells g in
  if bool_decide (length emptyCells = 0%nat) then ret None
  else
    let newGrid := cloneGrid g in
    let* r := Math_random_call in
    let randomCell :=
      index emptyCells
        (Qfloor (times64 r (inject_Z (Z.of_nat (length emptyCells))))) in
    let* value := selectSpawnValue spawnValues in
    match randomCell with
    | None => throw       (* [randomCell.row] on [undefined] *)
    | Some randomCell =>
        let* newTile := createTile randomCell value in
        let* newGrid := lift (grid_set newGrid randomCell (Some newTile)) in
        ret (Some newGrid)
    end.

(** ** Move engine *)

Definition zcell (r c : nat) : Cell := mkCell (Z.of_nat r) (Z.of_nat c).

Definition getTraversalOrder (direction : Direction) (gridSize : nat) : list Cell :=
  match direction with
  | Up =>
      flat_map (λ c, map (λ r, zcell r c) (seq 0 gridSize)) (seq 0 gridSize)
  | Down =>
      flat_map (λ c, map (λ r, zcell r c) (rev (seq 0 gridSize))) (seq 0 gridSize)
  | Left =>
      flat_map (λ r, map (λ c, zcell r c) (seq 0 gridSize)) (seq 0 gridSize)
  | Right =>
      flat_map (λ r, map (λ c, zcell r c) (rev (seq 0 gridSize))) (seq 0 gridSize)
  end.

Definition getNextCell (cell : Cell) (direction : Direction) : option Cell :=
  match direction with
  | Up => if 0 <? row cell then Some (mkCell (row cell - 1) (col cell)) else None
  | Down => Some (mkCell (row cell + 1) (col cell))
  | Left => if 0 <? col cell then Some (mkCell (row cell) (col cell - 1)) else None
  | Right => Some (mkCell (row cell) (col cell + 1))
  end.

Definition isWithinBounds (cell : Cell) (gridSize : nat) : bool :=
  (0 <=? row cell) && (row cell <? Z.of_nat gridSize) &&
  (0 <=? col cell) && (col cell <? Z.of_nat gridSize).

(** [`${cell.row},${cell.col}`], injective on integer coordinates. *)
Definition cellKey (c : Cell) : Z * Z := (row c, col c).

(** The [while] loop of [findFarthestPosition].  Every iteration moves
    [current] one step along a line of at most [grid.length] cells inside
    the bounds, so [grid.length] iterations are enough ([fuel]); the result
    is the pair [(farthest, next)]. *)
Fixpoint findFarthest_loop (fuel : nat) (direction : Direction) (g : Grid)
    (mergedCells : gset (Z * Z)) (previous : Cell) (current : option Cell)
  : option (Cell * option Cell) :=
  match current with
  | None => Some (previous, None)
  | Some cur =>
      if isWithinBounds cur (length g) then
        match grid_at g cur with
        | Some None =>
            if bool_decide (cellKey cur ∈ mergedCells) then Some (previous, Some cur)
            else
              match fuel with
              | O => None
              | S fuel' =>
                  findFarthest_loop fuel' direction g mergedCells cur
                    (getNextCell cur direction)
              end
        | _ => Some (previous, Some cur)      (* a tile (or [undefined]) blocks *)
        end
      else Some (previous, None)
  end.

Definition findFarthestPosition (position : Cell) (direction : Direction)
    (g : Grid) (mergedCells : gset (Z * Z)) : option (Cell * option Cell) :=
  findFarthest_loop (length g) direction g mergedCells position
    (getNextCell position direction).

(** The local variables of [performMove]. *)
Record MoveAcc := mkAcc {
  acc_grid : Grid;                      (* newGrid *)
  acc_mergedCells : gset (Z * Z);
  acc_mergedTiles : list Tile;
  acc_moved : bool;
  acc_score : Z;
}.

(** [next] and [nextTile] when the merge test
    [nextTile && nextTile.value === tile.value && !mergedCells.has(key)]
    succeeds. *)
Definition mergeCandidate (newGrid : Grid) (mergedCells : gset (Z * Z))
    (tile : Tile) (next : option Cell) : option (Cell * Tile) :=
  match next with
  | Some nx =>
      match grid_at newGrid nx with
      | Some (Some nextTile) =>
          if bool_decide (value nextTile = value tile)
             && negb (bool_decide (cellKey nx ∈ mergedCells))
          then Some (nx, nextTile) else None
      | _ => None
      end
  | None => None
  end.

(** [newPosition.row !== tile.position.row || newPosition.col !== tile.position.col] *)
Definition differs (newPosition p : Cell) : bool :=
  negb (row newPosition =? row p) || negb (col newPosition =? col p).

(** One iteration of the loop over [traversalOrder]. *)
Definition processCell (g : Grid) (direction : Direction) (acc : MoveAcc)
    (cell : Cell) : M MoveAcc :=
  match grid_at g cell with
  | None => throw            (* [tile] is [undefined]: [tile.position] raises *)
  | Some None => ret acc     (* continue *)
  | Some (Some tile) =>
      let* fn := lift (findFarthestPosition cell direction (acc_grid acc)
                         (acc_mergedCells acc)) in
      let farthest := fn.1 in
      let next := fn.2 in
      match mergeCandidate (acc_grid acc) (acc_mergedCells acc) tile next with
      | Some (nx, nextTile) =>
          let mergedValue := value tile * 2 in
          let* created := createTile nx mergedValue in
          let mergedTile :=
            with_mergedFrom created
              [with_position tile (cloneCell (position tile));
               with_position nextTile (cloneCell (position nextTile))] in
          let* newGrid := lift (grid_set (acc_grid acc) nx (Some mergedTile)) in
          ret (mkAcc newGrid
                 ({[cellKey nx]} ∪ acc_mergedCells acc)
                 (acc_mergedTiles acc ++ [mergedTile])
                 (acc_moved acc || differs nx (position tile))
                 (acc_score acc + mergedValue))
      | None =>
          let finalTile := with_position tile farthest in
          let* newGrid := lift (grid_set (acc_grid acc) farthest (Some finalTile)) in
          ret (mkAcc newGrid (acc_mergedCells acc) (acc_mergedTiles acc)
                 (acc_moved acc || differs farthest (position tile))
                 (acc_score acc))
      end
  end.

Record PerformMoveResult := mkPerformMove {
  pm_grid : Grid;
  pm_moved : bool;
  pm_score : Z;
  pm_mergedTiles : list Tile;
}.

Definition performMove (g : Grid) (direction : Direction) : M PerformMoveResult :=
  let gridSize := length g in
  let newGrid := createEmptyGrid gridSize in
  let traversalOrder := getTraversalOrder direction gridSize in
  let* acc := foldM (processCell g direction) traversalOrder
                (mkAcc newGrid ∅ [] false 0) in
  ret (mkPerformMove (acc_grid acc) (acc_moved acc) (acc_score acc)
         (acc_mergedTiles acc)).

(** ** Status evaluator *)

(** A loop that may [return true] early or raise. *)
Fixpoint anyM {A} (f : A → option bool) (l : list A) : option bool :=
  match l with
  | [] => Some false
  | x :: xs =>
      match f x with
      | Some true => Some true
      | Some false => anyM f xs
      | None => None
      end
  end.

(** The body of the double loop of [hasMovesAvailable] at [(row, col)]:
    [Some true] is [return true]; [None] is the TypeError of
    [tile.value] when [grid[row][col]] is [undefined]. *)
Definition hasMergeAt (g : Grid) (gridSize : nat) (rc : nat * nat) : option bool :=
  let r := Z.of_nat rc.1 in
  let c := Z.of_nat rc.2 in
  match index g r with
  | None => None
  | Some rw =>
      let adjacentCells :=
        [mkCell (r - 1) c; mkCell (r + 1) c; mkCell r (c - 1); mkCell r (c + 1)] in
      match index rw c with
      | Some None => Some false       (* continue *)
      | tile =>
          anyM (λ adjCell,
            if isWithinBounds adjCell gridSize then
              match grid_at g adjCell with
              | Some (Some adjTile) =>
                  match tile with
                  | Some (Some tile) =>
                      Some (bool_decide (value adjTile = value tile))
                  | _ => None
                  end
              | _ => Some false
              end
            else Some false) adjacentCells
      end
  end.

Definition hasMovesAvailable (g : Grid) : option bool :=
  let gridSize := length g in
  if (0 <? length (getEmptyCells g))%nat then Some true
  else
    anyM (hasMergeAt g gridSize)
      (flat_map (λ r, map (λ c, (r, c)) (seq 0 gridSize)) (seq 0 gridSize)).

Definition hasWon (g : Grid) (targetValue : Z) : bool :=
  existsb (λ tile, targetValue <=? value tile) (getAllTiles g).

Definition determineGameStatus (g : Grid) (targetValue : Z)
    (currentStatus : GameStatus) : option GameStatus :=
  if bool_decide (currentStatus = Won) then Some Won
  else if hasWon g targetValue then Some Won
  else
    match hasMovesAvailable g with
    | Some false => Some Lost
    | Some true => Some Playing
    | None => None
    end.

(** ** Config validator *)

(** ECMAScript [ToInt32]: the operands of [&] are reduced modulo [2^32]
    and read as signed 32-bit integers. *)
Definition ToInt32 (z : Z) : Z :=
  let m := z mod 2 ^ 32 in
  if 2 ^ 31 <=? m then m - 2 ^ 32 else m.

(** [a & b] *)
Definition bitand (a b : Z) : Z := Z.land (ToInt32 a) (ToInt32 b).

Definition spawnEntryErrors (sv : SpawnConfig) : list string :=
  (if (sv_value sv <=? 0) || negb (Number_isInteger (inject_Z (sv_value sv)))
   then ["Spawn values must be positive integers"%string] else [])
  ++
  (if Qgtb 0 (probability sv) || Qgtb (probability sv) 1
   then ["Spawn probabilities must be between 0 and 1"%string] else []).

(** [config.targetValue - 1], a subtraction of doubles, as [&] reads it. *)
Definition targetPredecessor (targetValue : Z) : Z :=
  truncate (minus64 (finite (inject_Z targetValue)) 1).

Definition validateGameConfig (config : GameConfig) : list string :=
  (if Qltb (gridSize config) 3 || Qgtb (gridSize config) 6
   then ["Grid size must be between 3 and 6"%string] else [])
  ++
  (if (targetValue config <=? 0)
      || negb (Number_isInteger (inject_Z (targetValue config)))
   then ["Target value must be a positive integer"%string] else [])
  ++
  (if negb (bitand (targetValue config)
                   (targetPredecessor (targetValue config)) =? 0)
   then ["Target value should be a power of 2"%string] else [])
  ++
  (if bool_decide (length (spawnValues config) = 0%nat)
   then ["At least one spawn value must be configured"%string]
   else
     let totalProbability :=
       fold_left (λ sum sv, plus64 sum (probability sv)) (spawnValues config)
         (finite 0) in
     (if gtb64 (abs64 (minus64 totalProbability 1)) (decimal (1 # 1000))
      then ["Spawn value probabilities must sum to 1.0"%string] else [])
     ++ flat_map spawnEntryErrors (spawnValues config)).

(** ** Game state controller ([gameState.ts]) *)

(** [cloneGameState(state, false)]: the history of the copy is empty. *)
Definition cloneGameState_flat (state : GameState) : GameState :=
  mkState (cloneGrid (grid state)) (score state) (status state) []
    (config state) (moveCount state) (wonAndContinued state).

(** [cloneGameState(state, includePreviousStates)]; the recursive call is
    always made with [false]. *)
Definition cloneGameState (state : GameState) (includePreviousStates : bool)
  : GameState :=
  mkState (cloneGrid (grid state)) (score state) (status state)
    (if includePreviousStates
     then map cloneGameState_flat (previousStates state) else [])
    (config state) (moveCount state) (wonAndContinued state).

Definition initializeGame (config : GameConfig) : M GameState :=
  let errors := validateGameConfig config in
  if (0 <? length errors)%nat then throw
  else
    let* size := lift (Array_length (gridSize config)) in
    let g := createEmptyGrid size in
    let* gridWithFirstTile := spawnRandomTile g (spawnValues config) in
    match gridWithFirstTile with
    | None => throw
    | Some g =>
        let* gridWithSecondTile := spawnRandomTile g (spawnValues config) in
        match gridWithSecondTile with
        | None => throw
        | Some g => ret (mkState g 0 Playing [] config 0 None)
        end
    end.

(** [x || 10] for an optional number. *)
Definition or_default (x : option Z) (d : Z) : Z :=
  match x with
  | Some n => if n =? 0 then d else n
  | None => d
  end.

(** [l.slice(0, e)] for an integer [e]: a negative [e] counts from the
    end of the array. *)
Definition slice0 {A} (l : list A) (e : Z) : list A :=
  if e <? 0 then take (Z.to_nat (Z.max (Z.of_nat (length l) + e) 0)) l
  else take (Z.to_nat e) l.

(** The call [determineGameStatus(grid, target, status, wonAndContinued)]
    made by [move]: the callee declares three parameters, the fourth
    argument is dropped. *)
Definition determineGameStatus_call4 (g : Grid) (targetValue : Z)
    (currentStatus : GameStatus) (_extra : option bool) : option GameStatus :=
  determineGameStatus g targetValue currentStatus.

(** [{ newState: state, moved: false, score: 0, mergedTiles: [] }], the
    result of each of the three early returns of [move]. *)
Definition rejected (state : GameState) : MoveResult :=
  mkMoveResult state false 0 [].

Definition move (state : GameState) (direction : Direction) : M MoveResult :=
  if bool_decide (status state = Lost) then ret (rejected state)
  else
    let* pm := performMove (grid state) direction in
    if negb (pm_moved pm) then ret (rejected state)
    else
      let* gridWithNewTile :=
        spawnRandomTile (pm_grid pm) (spawnValues (config state)) in
      match gridWithNewTile with
      | None => ret (rejected state)
      | Some gridWithNewTile =>
          let newScore := score state + pm_score pm in
          let* newStatus :=
            lift (determineGameStatus_call4 gridWithNewTile
                    (targetValue (config state)) (status state)
                    (wonAndContinued state)) in
          let stateCopy := cloneGameState state false in
          let previousStates :=
            slice0 (stateCopy :: previousStates state)
              (or_default (maxUndoStates (config state)) 10) in
          let newState :=
            mkState gridWithNewTile newScore newStatus previousStates
              (config state) (moveCount state + 1) (wonAndContinued state) in
          ret (mkMoveResult newState true (pm_score pm) (pm_mergedTiles pm))
      end.

Definition undo (state : GameState) : GameState :=
  match previousStates state with
  | [] => state
  | previousState :: rest =>
      mkState (grid previousState) (score previousState) (status previousState)
        rest (config previousState) (moveCount previousState)
        (wonAndContinued previousState)
  end.

Definition continueAfterWin (state : GameState) : GameState :=
  if bool_decide (status state = Won) then
    mkState (grid state) (score state) Playing (previousStates state)
      (config state) (moveCount state) (Some true)
  else state.

Definition DEFAULT_GAME_CONFIG : GameConfig :=
  mkConfig 4 2048 [mkSpawn 2 (decimal (9 # 10)); mkSpawn 4 (decimal (1 # 10))] (Some 10).

(** [resetGame(state)] *)
Definition resetGame (state : GameState) : M GameState :=
  initializeGame (config state).

(** [resetGameWithConfig(config)] *)
Definition resetGameWithConfig (config : GameConfig) : M GameState :=
  initializeGame config.

Definition getAvailableUndos (state : GameState) : nat :=
  length (previousStates state).

Definition canUndo (state : GameState) : bool :=
  (0 <? length (previousStates state))%nat.

(** The double [for ... of] loop of [getHighestTileValue], [highest]
    starting at 0. *)
Definition getHighestTileValue (state : GameState) : Z :=
  fold_left (λ highest rw,
    fold_left (λ highest (tile : option Tile),
      match tile with
      | Some t => if highest <? value t then value t else highest
      | None => highest
      end) rw highest) (grid state) 0.

Record GameStatistics := mkStatistics {
  st_score : Z;
  st_moveCount : Z;
  st_highestTile : Z;
  st_tileCount : Z;
  st_emptyCellCount : Z;
  st_status : GameStatus;
  st_canUndo : bool;
  st_availableUndos : nat;
}.

(** The counting loop of [getGameStatistics]: the pair is
    [(tileCount, emptyCellCount)]. *)
Definition countCells (g : Grid) : Z * Z :=
  fold_left (λ counts rw,
    fold_left (λ (counts : Z * Z) (tile : option Tile),
      match tile with
      | Some _ => (counts.1 + 1, counts.2)
      | None => (counts.1, counts.2 + 1)
      end) rw counts) g (0, 0).

Definition getGameStatistics (state : GameState) : GameStatistics :=
  let counts := countCells (grid state) in
  mkStatistics (score state) (moveCount state) (getHighestTileValue state)
    counts.1 counts.2 (status state) (canUndo state) (getAvailableUndos state).

(** [createStateSnapshot(state)] *)
Definition createStateSnapshot (state : GameState) : GameState :=
  cloneGameState state true.

(** ** Configuration of the user interface ([config/defaultConfig.ts]) *)

Definition VALID_GRID_SIZES : list Z := [3; 4; 5; 6].

Definition VALID_TARGET_VALUES : list Z :=
  [128; 256; 512; 1024; 2048; 4096; 8192; 16384].

Definition DEFAULT_SPAWN_CONFIG : list SpawnConfig :=
  [mkSpawn 2 (decimal (9 # 10)); mkSpawn 4 (decimal (1 # 10))].

(** The extended [GameConfig] of the interface; [theme], [mode] and
    [animSpeed] are names. *)
Record UIConfig := mkUIConfig {
  size : Z;
  target : Z;
  spawn : list SpawnConfig;
  theme : string;
  mode : string;
  animSpeed : string;
}.

Definition DEFAULT_CONFIG : UIConfig :=
  mkUIConfig 4 2048 DEFAULT_SPAWN_CONFIG "ocean" "classic" "normal".

(** [validateGridSize(value)], where [num] is [Number(value)] when that is
    an integer and [None] otherwise (NaN or a fraction, never a member of
    the list). *)
Definition validateGridSize (num : option Z) : Z :=
  match num with
  | Some n => if bool_decide (n ∈ VALID_GRID_SIZES) then n else size DEFAULT_CONFIG
  | None => size DEFAULT_CONFIG
  end.

(** [validateTargetValue(value)], with [num] as for [validateGridSize]. *)
Definition validateTargetValue (num : option Z) : Z :=
  match num with
  | Some n => if bool_decide (n ∈ VALID_TARGET_VALUES) then n else target DEFAULT_CONFIG
  | None => target DEFAULT_CONFIG
  end.

(** ** The game hook ([hooks/useGame.ts])

    The state of the hook is the current [GameState]; each handler is
    the function it passes to [setGameState]. *)

Definition convertToGameLogicConfig (c : UIConfig) : GameConfig :=
  mkConfig (inject_Z (size c)) (target c) (spawn c) (Some 10).

(** [move]: [setGameState(s => performMove(s, direction).newState)] *)
Definition hook_move (currentState : GameState) (direction : Direction)
  : M GameState :=
  let* result := move currentState direction in
  ret (newState result).

(** [undo] *)
Definition hook_undo (currentState : GameState) : GameState :=
  undo currentState.

(** [newGame] *)
Definition hook_newGame (currentState : GameState) : M GameState :=
  resetGame currentState.

(** [continueGame]: [{ ...currentState, status: Playing }] on a won game. *)
Definition hook_continueGame (currentState : GameState) : GameState :=
  if bool_decide (status currentState = Won) then
    mkState (grid currentState) (score currentState) Playing
      (previousStates currentState) (config currentState)
      (moveCount currentState) (wonAndContinued currentState)
  else currentState.

(** * Vocabulary of the properties

    Predicates, invariants and sample inputs used to state and prove the
    properties.  Nothing in this part belongs to the program. *)

(** ** Grids *)

(** [grid[r][c]] at natural indices. *)
Definition cellAt (g : Grid) (r c : nat) : option (option Tile) :=
  match g !! r with
  | Some rw => rw !! c
  | None => None
  end.

(** A [n × n] matrix. *)
Definition square (n : nat) (g : Grid) : Prop :=
  length g = n ∧ ∀ r rw, g !! r = Some rw → length rw = n.

(** Decidable form of [square]. *)
Definition squareb (n : nat) (g : Grid) : bool :=
  (length g =? n)%nat && forallb (λ rw : list (option Tile), (length rw =? n)%nat) g.

(** The tile read at a cell, as a list of at most one element. *)
Definition slot_tiles (s : option (option Tile)) : list Tile :=
  match s with
  | Some (Some t) => [t]
  | _ => []
  end.

Definition cell_tiles (s : option Tile) : list Tile :=
  match s with Some t => [t] | None => [] end.

Definition row_tiles (rw : list (option Tile)) : list Tile :=
  flat_map cell_tiles rw.

Definition sum_values (ts : list Tile) : Z :=
  foldr (λ t a, value t + a) 0 ts.

(** Sum of all tile values of a grid. *)
Definition tileSum (g : Grid) : Z := sum_values (getAllTiles g).

(** Tiles found at the cells [cs], in that order. *)
Definition cells_tiles (g : Grid) (cs : list Cell) : list Tile :=
  flat_map (λ c, slot_tiles (grid_at g c)) cs.

(** Every tile value is non-negative. *)
Definition nonneg_values (g : Grid) : Prop :=
  ∀ t, t ∈ getAllTiles g → 0 <= value t.

(** Every tile of [ts] is matched by a tile of [ts'] of at least its value. *)
Definition dominated (ts ts' : list Tile) : Prop :=
  ∀ t, t ∈ ts → ∃ t', t' ∈ ts' ∧ value t <= value t'.

(** Values of a grid, cell by cell. *)
Definition grid_values (g : Grid) : list (list (option Z)) :=
  map (map (option_map value)) g.

(** ** The grid invariant *)

(** Every tile carries the coordinates of the cell that holds it. *)
Definition positions_ok (g : Grid) : Prop :=
  ∀ r c t, cellAt g r c = Some (Some t) → position t = zcell r c.

(** A [n × n] matrix in which every tile's stored [position] is the cell
    that holds it. *)
Definition grid_wf (g : Grid) : Prop :=
  square (length g) g ∧ positions_ok g.

(** No two tiles of the grid claim the same cell. *)
Definition one_tile_per_cell (g : Grid) : Prop :=
  NoDup (map position (getAllTiles g)).

(** The structural invariant of the data model: at most one tile occupies
    any cell, and every tile's stored position matches its matrix
    location. *)
Definition grid_invariant (g : Grid) : Prop :=
  grid_wf g ∧ one_tile_per_cell g.

Definition positions_okb (g : Grid) : bool :=
  forallb (λ r, forallb (λ c,
      match cellAt g r c with
      | Some (Some t) => bool_decide (position t = zcell r c)
      | _ => true
      end) (seq 0 (length g))) (seq 0 (length g)).

(** Decidable form of [grid_wf]. *)
Definition grid_wfb (g : Grid) : bool :=
  squareb (length g) g && positions_okb g.

(** ** Lines of a traversal

    For each direction the traversal visits the grid line by line, and
    inside a line from the target edge outwards: [line_rc d n l k] is the
    cell of line [l] at distance [k] from the target edge. *)

Definition line_rc (d : Direction) (n l k : nat) : nat * nat :=
  match d with
  | Left => (l, k)
  | Right => (l, n - 1 - k)
  | Up => (k, l)
  | Down => (n - 1 - k, l)
  end%nat.

Definition line_cell (d : Direction) (n l k : nat) : Cell :=
  zcell (line_rc d n l k).1 (line_rc d n l k).2.

(** Cells visited before the cell at distance [k] of line [l]. *)
Definition processed (d : Direction) (n l k : nat) : list Cell :=
  flat_map (λ l', map (line_cell d n l') (seq 0 n)) (seq 0 l)
  ++ map (line_cell d n l) (seq 0 k).

(** Cells still to visit when the loop stands at [(l, k)]. *)
Definition beyond (l k l' k' : nat) : Prop :=
  (l < l' ∨ (l = l' ∧ k ≤ k'))%nat.

(** Number of cells between [c] and the target edge. *)
Definition edgeDistance (d : Direction) (n : nat) (c : Cell) : Z :=
  match d with
  | Left => col c
  | Right => Z.of_nat n - 1 - col c
  | Up => row c
  | Down => Z.of_nat n - 1 - row c
  end.

(** A cell the walk passes through: empty and not merged into this turn. *)
Definition free (g : Grid) (mc : gset (Z * Z)) (c : Cell) : Prop :=
  grid_at g c = Some None ∧ cellKey c ∉ mc.

(** ** Invariants of the move loop *)

(** Conservation: when the loop stands at [(l, k)], the new grid is
    square and empty on the cells still to visit; its tiles are worth the
    tiles of the input visited so far; they are the same values as long
    as nothing has merged; the score is the worth of the merged tiles;
    every tile placed carries its own coordinates. *)
Record Conserved (g : Grid) (d : Direction) (n l k : nat) (acc : MoveAcc)
  : Prop := {
  cons_square : square n (acc_grid acc);
  cons_empty : ∀ l' k', (l' < n)%nat → (k' < n)%nat → beyond l k l' k' →
      grid_at (acc_grid acc) (line_cell d n l' k') = Some None;
  cons_sum :
      tileSum (acc_grid acc) = sum_values (cells_tiles g (processed d n l k));
  cons_perm : acc_mergedTiles acc = [] →
      map value (getAllTiles (acc_grid acc))
      ≡ₚ map value (cells_tiles g (processed d n l k));
  cons_score : acc_score acc = sum_values (acc_mergedTiles acc);
  cons_pos : positions_ok (acc_grid acc);
}.

(** Conservation, and no visited tile has lost value. *)
Definition Kept (g : Grid) (d : Direction) (n l k : nat) (acc : MoveAcc) : Prop :=
  Conserved g d n l k acc ∧
  dominated (cells_tiles g (processed d n l k)) (getAllTiles (acc_grid acc)).

(** The tile at [c] can slide or merge towards [d]: the neighbouring cell
    in that direction is inside the grid and is empty or holds a tile of
    equal value. *)
Definition tileCanMove (g : Grid) (d : Direction) (c : Cell) : bool :=
  match grid_at g c with
  | Some (Some t) =>
      match getNextCell c d with
      | Some nx =>
          isWithinBounds nx (length g) &&
          match grid_at g nx with
          | Some None => true
          | Some (Some t') => bool_decide (value t' = value t)
          | None => false
          end
      | None => false
      end
  | _ => false
  end.

(** Some tile of the grid can slide or merge towards [d]. *)
Definition anyTileCanMove (g : Grid) (d : Direction) : bool :=
  existsb (tileCanMove g d) (getTraversalOrder d (length g)).

(** Loop invariant when no tile can move: the visited part of the new
    grid is a copy of the input, and nothing has been recorded. *)
Record Unmoved (g : Grid) (d : Direction) (n : nat) (w0 : World)
    (l k : nat) (acc : MoveAcc) (w : World) : Prop := {
  unm_square : square n (acc_grid acc);
  unm_copy : ∀ l' k', (l' < n)%nat → (k' < n)%nat →
      grid_at (acc_grid acc) (line_cell d n l' k') =
      if decide (beyond l k l' k') then Some None
      else grid_at g (line_cell d n l' k');
  unm_mergedCells : acc_mergedCells acc = ∅;
  unm_mergedTiles : acc_mergedTiles acc = [];
  unm_moved : acc_moved acc = false;
  unm_score : acc_score acc = 0;
  unm_world : w = w0;
}.

(** ** The world *)

(** Every draw of the world lies in [[0, 1)]. *)
Definition random_in_range (w : World) : Prop :=
  ∀ k, (0 <= Math_random w k)%Q ∧ (Math_random w k < 1)%Q.

(** [w'] has the random source of [w], untouched. *)
Definition same_random (w w' : World) : Prop :=
  Math_random w' = Math_random w ∧ random_calls w' = random_calls w.

(** A world whose clock reads 0 and whose random source always returns 0. *)
Definition world0 : World := mkWorld 0 (λ _, 0) 0 (λ _, zero64).

(** Unfolds the monadic plumbing of the primitives down to their effect
    on the world. *)
Ltac run_M :=
  repeat (progress (
    unfold bind, ret, throw, lift, Math_random_call, createTile,
      generateTileId, selectSpawnValue;
    cbn [random_calls Math_random tileIdCounter Date_now])).

(** ** The spawn selector *)

(** Cumulative probability mass of the entries [0..i] of a table, added
    up in table order starting from [start], each sum rounded to a
    double. *)
Definition massFrom (start : number) (l : list SpawnConfig) (i : nat)
  : number :=
  fold_left (λ sum sv, plus64 sum (probability sv)) (take (S i) l) start.

Definition cumulativeMass (l : list SpawnConfig) (i : nat) : number :=
  massFrom (finite 0) l i.

(** The cumulative mass [m] is at least the draw [r]. *)
Definition reaches (r : Q) (m : number) : Prop :=
  match m with
  | finite m => (r <= m)%Q
  | infinity negative => negative = false
  end.

(** The table [{2: 0.1, 4: 0.2, 8: 0.7}]. *)
Definition table_1_2_7 : list SpawnConfig :=
  [mkSpawn 2 (decimal (1 # 10)); mkSpawn 4 (decimal (2 # 10));
   mkSpawn 8 (decimal (7 # 10))].

(** The table [{2: -1.7e308, 4: -1.7e308, 8: 1.7e308, 16: 1.7e308}]. *)
Definition table_overflowing : list SpawnConfig :=
  [mkSpawn 2 (decimal (inject_Z (- (17 * 10 ^ 307))));
   mkSpawn 4 (decimal (inject_Z (- (17 * 10 ^ 307))));
   mkSpawn 8 (decimal (inject_Z (17 * 10 ^ 307)));
   mkSpawn 16 (decimal (inject_Z (17 * 10 ^ 307)))].

(** The doubles [0.30000000000000004] and [0.5714285714285714]. *)
Definition draw_0_30000000000000004 : double :=
  mkDouble (decimal (30000000000000004 # 100000000000000000)) eq_refl.

Definition draw_0_5714285714285714 : double :=
  mkDouble (decimal (5714285714285714 # 10000000000000000)) eq_refl.

(** A world whose clock reads 0 and whose random source always returns
    [r]. *)
Definition world_drawing (r : double) : World := mkWorld 0 (λ _, 0) 0 (λ _, r).

(** ** Configurations *)

Definition is_power_of_two (v : Z) : Prop := ∃ k : nat, v = 2 ^ Z.of_nat k.

(** The sum of the probabilities of a table, added up in table order,
    each sum rounded to a double. *)
Definition totalProbability (l : list SpawnConfig) : number :=
  fold_left (λ sum sv, plus64 sum (probability sv)) l (finite 0).

(** [|sum - 1| <= 0.001], the difference being one of doubles. *)
Definition sums_to_one (sum : number) : Prop :=
  match abs64 (minus64 sum 1) with
  | finite d => (d <= decimal (1 # 1000))%Q
  | infinity _ => False
  end.

(** The constraints on a configuration, as the validator's messages
    word them. *)
Definition config_ok (c : GameConfig) : Prop :=
  (3 <= gridSize c)%Q ∧ (gridSize c <= 6)%Q ∧
  0 < targetValue c ∧
  is_power_of_two (targetValue c) ∧
  spawnValues c ≠ [] ∧
  sums_to_one (totalProbability (spawnValues c)) ∧
  Forall (λ sv, 0 < sv_value sv ∧ (0 <= probability sv)%Q ∧
                (probability sv <= 1)%Q) (spawnValues c).

(** The configuration [{gridSize: 2, targetValue: 100, spawnValues: []}]. *)
Definition config_2_100_empty : GameConfig := mkConfig 2 100 [] None.

(** A configuration that is fine except for a target of [2^32 + 4]. *)
Definition config_target_4294967300 : GameConfig :=
  mkConfig 4 4294967300 [mkSpawn 2 (decimal (9 # 10)); mkSpawn 4 (decimal (1 # 10))] (Some 10).

(** Configurations that differ from the default one by the grid size
    [3.5], by the target [2^53 + 4], and by the spawn tables
    [{2: 0.999}] and [{2: 0.5, 4: 0.501}]. *)
Definition config_size_3_5 : GameConfig :=
  mkConfig (7 # 2) 2048 DEFAULT_SPAWN_CONFIG (Some 10).

Definition config_target_9007199254740996 : GameConfig :=
  mkConfig 4 9007199254740996 DEFAULT_SPAWN_CONFIG (Some 10).

Definition config_sum_0_999 : GameConfig :=
  mkConfig 4 2048 [mkSpawn 2 (decimal (999 # 1000))] (Some 10).

Definition config_sum_1_001 : GameConfig :=
  mkConfig 4 2048
    [mkSpawn 2 (decimal (5 # 10)); mkSpawn 4 (decimal (501 # 1000))] (Some 10).

(** The default configuration with [maxUndoStates: 0]. *)
Definition config_no_undo : GameConfig :=
  mkConfig 4 2048 [mkSpawn 2 (decimal (9 # 10)); mkSpawn 4 (decimal (1 # 10))] (Some 0).

(** ** Game states and histories *)

(** What the controller needs to complete a turn: a square board and a
    non-empty spawn table. *)
Definition state_ok (s : GameState) : Prop :=
  square (length (grid s)) (grid s) ∧ spawnValues (config s) ≠ [].

(** [after_moves s s']: [s'] is the state returned by a sequence of [move]
    calls starting in [s] (accepted or rejected, any directions). *)
Inductive after_moves (s : GameState) : GameState → Prop :=
  | after_none : after_moves s s
  | after_move s' d w r w' :
      after_moves s s' → move s' d w = Some (r, w') →
      after_moves s (newState r).

(** [s] with its [wonAndContinued] field set to [f]. *)
Definition with_flag (s : GameState) (f : option bool) : GameState :=
  mkState (grid s) (score s) (status s) (previousStates s) (config s)
    (moveCount s) f.

(** What a turn reports and produces, history and flag aside. *)
Definition turn_summary (o : option (MoveResult * World))
  : option (Grid * Z * GameStatus * bool * Z) :=
  match o with
  | Some (r, _) =>
      Some (grid (newState r), score (newState r), status (newState r),
            moved r, mr_score r)
  | None => None
  end.

(** [maxUndoStates || 10], the bound [move] trims the history to. *)
Definition undoLimit (c : GameConfig) : Z := or_default (maxUndoStates c) 10.

(** [played s0 past s]: [s] is reached from [s0] by successful moves and
    [past] lists the states gone through, most recent first. *)
Inductive played (s0 : GameState) : list GameState → GameState → Prop :=
  | played_nil : played s0 [] s0
  | played_move past s d w r w' :
      played s0 past s → move s d w = Some (r, w') → moved r = true →
      played s0 (s :: past) (newState r).

(** [undo] applied [k] times. *)
Definition undo_n (k : nat) (s : GameState) : GameState := Nat.iter k undo s.

(** ** Sample boards and games *)

(** A tile with identifier [i] and value [v] standing at [(r, c)]. *)
Definition tileAt (i : TileId) (v : Z) (r c : nat) : Tile :=
  mkTile i v (zcell r c) None.

Definition emptyRow4 : list (option Tile) := [None; None; None; None].

(** The row [[2, 2, null, null]] on an otherwise empty 4×4 board. *)
Definition grid_2_2 : Grid :=
  [[Some (tileAt (mkTileId 0 0) 2 0 0); Some (tileAt (mkTileId 0 1) 2 0 1); None; None];
   emptyRow4; emptyRow4; emptyRow4].

(** The row [[2, 2, 2, null]] on an otherwise empty 4×4 board. *)
Definition grid_2_2_2 (i0 i1 i2 : TileId) : Grid :=
  [[Some (tileAt i0 2 0 0); Some (tileAt i1 2 0 1); Some (tileAt i2 2 0 2); None];
   emptyRow4; emptyRow4; emptyRow4].

(** The row [[2, 4, null, null]] on an otherwise empty 4×4 board, where
    nothing can move to the left. *)
Definition grid_2_4 : Grid :=
  [[Some (tileAt (mkTileId 0 0) 2 0 0); Some (tileAt (mkTileId 0 1) 4 0 1); None; None];
   emptyRow4; emptyRow4; emptyRow4].

Definition state_2_4 : GameState :=
  mkState grid_2_4 0 Playing [] DEFAULT_GAME_CONFIG 0 None.

(** A full 2×2 board [[2, 4], [8, 16]] without equal neighbours. *)
Definition grid_full_2x2 : Grid :=
  [[Some (tileAt (mkTileId 0 0) 2 0 0); Some (tileAt (mkTileId 0 1) 4 0 1)];
   [Some (tileAt (mkTileId 0 2) 8 1 0); Some (tileAt (mkTileId 0 3) 16 1 1)]].

(** A won game: a 2048 tile on an otherwise empty default board. *)
Definition grid_2048 : Grid :=
  [[None; Some (tileAt (mkTileId 0 0) 2048 0 1); None; None];
   emptyRow4; emptyRow4; emptyRow4].

Definition state_won : GameState :=
  mkState grid_2048 20000 Won [] DEFAULT_GAME_CONFIG 950 None.

(** A fresh default game in [world0] and its first move to the left. *)
Definition game0 : option (GameState * World) :=
  Eval vm_compute in initializeGame DEFAULT_GAME_CONFIG world0.

Definition state0 : GameState :=
  match game0 with Some (s, _) => s | None => state_2_4 end.

Definition world1 : World :=
  match game0 with Some (_, w) => w | None => world0 end.

Definition turn1 : option (MoveResult * World) :=
  Eval vm_compute in move state0 Left world1.

Definition result1 : MoveResult :=
  match turn1 with Some (r, _) => r | None => rejected state0 end.

Definition world2 : World :=
  match turn1 with Some (_, w) => w | None => world1 end.

(** ** Counting cells *)

(** Number of cells of a grid (its rows may differ in length). *)
Definition cellCount (g : Grid) : nat :=
  foldr (λ rw a, (length rw + a)%nat) 0%nat g.

(** Number of [null] cells of a row. *)
Definition nullCount (rw : list (option Tile)) : nat :=
  foldr (λ (s : option Tile) a,
    ((match s with None => 1 | Some _ => 0 end) + a)%nat) 0%nat rw.

(** ** More invariants of the move loop *)

(** Either a tile has moved already, or the loop has only met tiles that
    cannot move and has copied them. *)
Definition Moving (g : Grid) (d : Direction) (n l k : nat) (acc : MoveAcc)
    (w : World) : Prop :=
  Conserved g d n l k acc ∧
  (acc_moved acc = true ∨
   (Unmoved g d n w l k acc w ∧
    ∀ l' k', (l' < n)%nat → (k' < n)%nat → ¬ beyond l k l' k' →
             tileCanMove g d (line_cell d n l' k') = false)).

(** ** Statistics and histories *)

(** One step of the running maximum of [getHighestTileValue]. *)
Definition higher (highest : Z) (t : Tile) : Z :=
  if highest <? value t then value t else highest.

(** Every entry of the history has an empty history of its own. *)
Definition flat_history (s : GameState) : Prop :=
  Forall (λ p, previousStates p = []) (previousStates s).

(** A lost game on the full 2×2 board. *)
Definition state_lost : GameState :=
  mkState grid_full_2x2 36 Lost [] DEFAULT_GAME_CONFIG 12 None.

(** The constraints on a configuration other than the one on the shape
    of the target value. *)
Definition config_ok_but_target_shape (c : GameConfig) : Prop :=
  (3 <= gridSize c)%Q ∧ (gridSize c <= 6)%Q ∧
  0 < targetValue c ∧
  spawnValues c ≠ [] ∧
  sums_to_one (totalProbability (spawnValues c)) ∧
  Forall (λ sv, 0 < sv_value sv ∧ (0 <= probability sv)%Q ∧
                (probability sv <= 1)%Q) (spawnValues c).

(** ** Moves that are available *)

Definition directions : list Direction := [Up; Down; Left; Right].

(** The cell next to [c] towards [d], inside the grid or not. *)
Definition neighbour (d : Direction) (c : Cell) : Cell :=
  match d with
  | Up => mkCell (row c - 1) (col c)
  | Down => mkCell (row c + 1) (col c)
  | Left => mkCell (row c) (col c - 1)
  | Right => mkCell (row c) (col c + 1)
  end.

(** [adj] is a cell of the grid holding a tile of the value of [t]. *)
Definition equalAt (g : Grid) (n : nat) (t : Tile) (adj : Cell) : bool :=
  isWithinBounds adj n &&
  match grid_at g adj with
  | Some (Some a) => bool_decide (value a = value t)
  | _ => false
  end.

(** Every cell of the [n × n] grid holds a tile. *)
Definition full (g : Grid) (n : nat) : Prop :=
  ∀ r c, (r < n)%nat → (c < n)%nat → ∃ t, cellAt g r c = Some (Some t).

(** The cell at distance [k] on line [l] holds a tile. *)
Definition occupied (g : Grid) (d : Direction) (n l k : nat) : bool :=
  match grid_at g (line_cell d n l k) with
  | Some (Some _) => true
  | _ => false
  end.

(** ** Collapsing a line *)

(** The rule of the game on the values of one line, read from the edge
    the tiles are pushed to: equal neighbours merge once, from the edge
    outwards. *)
Fixpoint collapse (l : list Z) : list Z :=
  match l with
  | [] => []
  | a :: r =>
      match r with
      | [] => [a]
      | b :: r' => if a =? b then b * 2 :: collapse r' else a :: collapse r
      end
  end.

(** A line under construction: the values placed so far, last placed
    first, and whether the last one results from a merge.  [push]
    places one more value. *)
Definition push (st : list Z * bool) (v : Z) : list Z * bool :=
  match st with
  | (u :: rest, false) =>
      if u =? v then (v * 2 :: rest, true) else (v :: u :: rest, false)
  | (out, _) => (v :: out, false)
  end.

Definition pushed (vs : list Z) : list Z * bool :=
  fold_left push vs ([], false).

(** Values of the tiles among the first [k] cells of line [l], from the
    edge outwards. *)
Definition lineValues (g : Grid) (d : Direction) (n l k : nat) : list Z :=
  map value (cells_tiles g (map (line_cell d n l) (seq 0 k))).

(** The value held by a cell of the grid; [Some None] for an empty cell. *)
Definition valueAt (g : Grid) (c : Cell) : option (option Z) :=
  option_map value <$> grid_at g c.

(** The tile that merging [tile] into [nextTile] at [nx] creates in
    world [w]. *)
Definition mergedTile (w : World) (tile nextTile : Tile) (nx : Cell) : Tile :=
  mkTile (mkTileId (Date_now w (tileIdCounter w)) (tileIdCounter w))
    (value tile * 2) nx
    (Some [with_position tile (cloneCell (position tile));
           with_position nextTile (cloneCell (position nextTile))]).

(** Line [l] of the new grid holds the values [st.1], from the edge
    outwards, followed by empty cells; of its cells only the last filled
    one can be marked as merged, and it is exactly when [st.2] holds. *)
Record LineBuilt (G : Grid) (mc : gset (Z * Z)) (d : Direction) (n l : nat)
    (st : list Z * bool) : Prop := {
  lb_values : ∀ i, (i < n)%nat →
      valueAt G (line_cell d n l i) = Some (rev st.1 !! i);
  lb_fresh : ∀ i, S i = length st.1 →
      (cellKey (line_cell d n l i) ∈ mc ↔ st.2 = true);
  lb_clean : ∀ i, (length st.1 ≤ i < n)%nat →
      cellKey (line_cell d n l i) ∉ mc;
}.

(** Loop invariant: the lines visited hold the collapse of the input
    lines; the current line holds what pushing its first [k] cells
    gives; the other lines are empty; and a tile has moved only if some
    line has become shorter than the grid is wide. *)
Record Collapsed (g : Grid) (d : Direction) (n l k : nat) (acc : MoveAcc)
  : Prop := {
  col_square : square n (acc_grid acc);
  col_done : ∀ l' i, (l' < l)%nat → (i < n)%nat →
      valueAt (acc_grid acc) (line_cell d n l' i)
      = Some (collapse (lineValues g d n l' n) !! i);
  col_line : (l < n)%nat →
      LineBuilt (acc_grid acc) (acc_mergedCells acc) d n l
        (pushed (lineValues g d n l k));
  col_length : (length (pushed (lineValues g d n l k)).1 ≤ k)%nat;
  col_rest : ∀ l' i, (l < l' < n)%nat → (i < n)%nat →
      grid_at (acc_grid acc) (line_cell d n l' i) = Some None ∧
      cellKey (line_cell d n l' i) ∉ acc_mergedCells acc;
  col_moved : positions_ok g → acc_moved acc = true →
      (∃ l', (l' < l)%nat ∧
             (length (collapse (lineValues g d n l' n)) < n)%nat) ∨
      (length (pushed (lineValues g d n l k)).1 < k)%nat;
}.

(** ** Spawning and turns *)

(** The tile [createTile(cell, v)] returns in world [w]. *)
Definition createdTile (w : World) (cell : Cell) (v : Z) : Tile :=
  mkTile (mkTileId (Date_now w (tileIdCounter w)) (tileIdCounter w)) v cell None.

(** The world after [n] more draws and [i] more identifiers. *)
Definition world_after (w : World) (n i : nat) : World :=
  mkWorld (i + tileIdCounter w) (Date_now w) (n + random_calls w) (Math_random w).

(** The ordinal [Math.floor(Math.random() * length)] drawn by
    [spawnRandomTile] in world [w] among [len] empty cells. *)
Definition drawnIndex (w : World) (len : nat) : Z :=
  Qfloor (times64 (Math_random w (random_calls w)) (inject_Z (Z.of_nat len))).

(** [v] is the value of an entry of the spawn table. *)
Definition spawnable (sv : list SpawnConfig) (v : Z) : Prop :=
  ∃ e, e ∈ sv ∧ sv_value e = v.

(** [performMove] on the board [[2, 2, null, null], ...] to the left. *)
Definition slide_2_2 : option (PerformMoveResult * World) :=
  Eval vm_compute in performMove grid_2_2 Left world0.

Definition slid_2_2 : PerformMoveResult :=
  match slide_2_2 with
  | Some (r, _) => r
  | None => mkPerformMove grid_2_2 false 0 []
  end.

Definition world_2_2 : World :=
  match slide_2_2 with Some (_, w) => w | None => world0 end.

(** ** Where the tiles of a move come from *)

(** [m] results from merging, on some line, the input tile [a] at
    distance [ka] into the input tile [b] at distance [kb < ka]; it
    stands at distance [km ≤ kb], and records [a] as it was and [b] as
    brought to the cell of the merge. *)
Definition mergedFromLine (g : Grid) (d : Direction) (n : nat) (m : Tile)
  : Prop :=
  ∃ l ka kb km a b,
    (l < n)%nat ∧ (km ≤ kb)%nat ∧ (kb < ka)%nat ∧ (ka < n)%nat ∧
    grid_at g (line_cell d n l ka) = Some (Some a) ∧
    grid_at g (line_cell d n l kb) = Some (Some b) ∧
    value b = value a ∧ value m = value a * 2 ∧
    position m = line_cell d n l km ∧
    mergedFrom m = Some [a; with_position b (position m)].

(** Loop invariant: every tile of the new grid is a merged tile of this
    turn, standing in a cell marked as merged, or an input tile of the
    same line brought nearer to the edge; every merged tile stands in the
    new grid and comes from two input tiles; each merge has taken one
    tile off the board and one identifier from the world. *)
Record Provenance (g : Grid) (d : Direction) (n : nat) (w0 : World)
    (l k : nat) (acc : MoveAcc) (w : World) : Prop := {
  pv_conserved : Conserved g d n l k acc;
  pv_occupied : ∀ l' k', (l' < n)%nat → (k' < n)%nat →
      cellKey (line_cell d n l' k') ∈ acc_mergedCells acc →
      grid_at (acc_grid acc) (line_cell d n l' k') ≠ Some None;
  pv_grid : ∀ l' k' t', (l' < n)%nat → (k' < n)%nat →
      grid_at (acc_grid acc) (line_cell d n l' k') = Some (Some t') →
      if decide (cellKey (line_cell d n l' k') ∈ acc_mergedCells acc)
      then t' ∈ acc_mergedTiles acc ∧ position t' = line_cell d n l' k'
      else ∃ k0 t, (k' ≤ k0 < n)%nat ∧ ¬ beyond l k l' k0 ∧
             grid_at g (line_cell d n l' k0) = Some (Some t) ∧
             t' = with_position t (line_cell d n l' k');
  pv_merged : ∀ m, m ∈ acc_mergedTiles acc →
      mergedFromLine g d n m ∧
      grid_at (acc_grid acc) (position m) = Some (Some m) ∧
      cellKey (position m) ∈ acc_mergedCells acc;
  pv_count :
      (length (getAllTiles (acc_grid acc)) + length (acc_mergedTiles acc)
       = length (cells_tiles g (processed d n l k)))%nat;
  pv_ids :
      map tid (acc_mergedTiles acc)
      = map (λ i, mkTileId (Date_now w0 i) i)
          (seq (tileIdCounter w0) (length (acc_mergedTiles acc)));
  pv_world : w = world_after w0 0 (length (acc_mergedTiles acc));
}.

(** ** Games in progress *)

(** [reachable s0 s]: [s] is reached from [s0] by moves (accepted or
    not, in any world), undos and continuations, of the controller or of
    the hook. *)
Inductive reachable (s0 : GameState) : GameState → Prop :=
  | reach_start : reachable s0 s0
  | reach_move s d w r w' :
      reachable s0 s → move s d w = Some (r, w') → reachable s0 (newState r)
  | reach_undo s : reachable s0 s → reachable s0 (undo s)
  | reach_continue s : reachable s0 s → reachable s0 (continueAfterWin s)
  | reach_continueGame s : reachable s0 s → reachable s0 (hook_continueGame s).

(** The board and counters of a game played with configuration [cfg]. *)
Definition board_ok (cfg : GameConfig) (s : GameState) : Prop :=
  grid_invariant (grid s) ∧
  Array_length (gridSize cfg) = Some (length (grid s)) ∧
  (2 ≤ length (getAllTiles (grid s)))%nat ∧
  (∀ t, t ∈ getAllTiles (grid s) → 0 < value t) ∧
  config s = cfg ∧ 0 <= score s ∧ 0 <= moveCount s.

(** A game played with [cfg]: its board and those of its history are
    fine, the history entries carry no history, and the history is
    within the undo limit. *)
Definition game_ok (cfg : GameConfig) (s : GameState) : Prop :=
  board_ok cfg s ∧
  Forall (λ p, board_ok cfg p ∧ previousStates p = []) (previousStates s) ∧
  Z.of_nat (length (previousStates s)) <= Z.max 0 (undoLimit cfg).

(** ** Identifiers *)

(** No two cells of the grid hold tiles with the same identifier. *)
Definition unique_ids (g : Grid) : Prop :=
  ∀ r1 c1 r2 c2 t1 t2,
    cellAt g r1 c1 = Some (Some t1) → cellAt g r2 c2 = Some (Some t2) →
    tid t1 = tid t2 → r1 = r2 ∧ c1 = c2.

(** Every identifier on the grid was generated before the counter
    reached the value it has in [w]. *)
Definition ids_below (w : World) (g : Grid) : Prop :=
  ∀ t, t ∈ getAllTiles g → (serial (tid t) < tileIdCounter w)%nat.

(** [unique_ids], on the cells of the lines of a traversal. *)
Definition distinct_on_lines (d : Direction) (n : nat) (G : Grid) : Prop :=
  ∀ l1 k1 l2 k2 t1 t2,
    (l1 < n)%nat → (k1 < n)%nat → (l2 < n)%nat → (k2 < n)%nat →
    grid_at G (line_cell d n l1 k1) = Some (Some t1) →
    grid_at G (line_cell d n l2 k2) = Some (Some t2) →
    tid t1 = tid t2 → l1 = l2 ∧ k1 = k2.

(** Loop invariant: the tiles of the new grid have distinct identifiers. *)
Definition Distinct (g : Grid) (d : Direction) (n : nat) (w0 : World)
    (l k : nat) (acc : MoveAcc) (w : World) : Prop :=
  Provenance g d n w0 l k acc w ∧ distinct_on_lines d n (acc_grid acc).

(** A board of a session in world [w]: square, with distinct
    identifiers, all generated before [w]. *)
Definition ids_ok (w : World) (s : GameState) : Prop :=
  square (length (grid s)) (grid s) ∧ unique_ids (grid s) ∧
  ids_below w (grid s).

(** [session s0 w0 s w]: a session that started with state [s0] in
    world [w0] has reached state [s] and world [w]; the world is passed
    from each call to the next. *)
Inductive session (s0 : GameState) (w0 : World) : GameState → World → Prop :=
  | session_start : session s0 w0 s0 w0
  | session_move s w d r w' :
      session s0 w0 s w → move s d w = Some (r, w') →
      session s0 w0 (newState r) w'
  | session_undo s w : session s0 w0 s w → session s0 w0 (undo s) w
  | session_continue s w :
      session s0 w0 s w → session s0 w0 (continueAfterWin s) w
  | session_continueGame s w :
      session s0 w0 s w → session s0 w0 (hook_continueGame s) w.

(** * Lemmas and theorems *)

(** ** Doubles *)

Local Open Scope Q_scope.

Lemma pow2_pos e : 0 < 2 ^ e.
Proof. by apply Qpower_0_lt. Qed.

Lemma pow2_add a b : 2 ^ (a + b) == 2 ^ a * 2 ^ b.
Proof. by apply Qpower_plus. Qed.

Lemma pow2_S e : 2 ^ (e + 1) == 2 * 2 ^ e.
Proof. rewrite pow2_add. change (2 ^ 1) with 2. ring. Qed.

Lemma pow2_le a b : (a <= b)%Z → 2 ^ a <= 2 ^ b.
Proof. intros. by apply Qpower_le_compat_l. Qed.

Lemma pow2_lt a b : (a < b)%Z → 2 ^ a < 2 ^ b.
Proof. intros. by apply Qpower_lt_compat_l. Qed.

Lemma pow2_inject k : (0 <= k)%Z → inject_Z (2 ^ k) == 2 ^ k.
Proof. intros. by rewrite Zpower_Qpower. Qed.

Lemma binade_spec x : 0 < x → 2 ^ binade x <= x ∧ x < 2 ^ (binade x + 1).
Proof.
  intros Hx. unfold binade.
  set (a := Z.log2 (Qnum x)). set (b := Z.log2 (Z.pos (Qden x))).
  assert (Hn : (0 < Qnum x)%Z).
  { destruct x as [n d]. unfold Qlt in Hx. simpl in *. lia. }
  destruct (Z.log2_spec (Qnum x) Hn) as [Ha1 Ha2]. fold a in Ha1, Ha2.
  destruct (Z.log2_spec (Z.pos (Qden x)) eq_refl) as [Hb1 Hb2].
  fold b in Hb1, Hb2.
  pose proof (Z.log2_nonneg (Qnum x)) as Ha0. fold a in Ha0.
  pose proof (Z.log2_nonneg (Z.pos (Qden x))) as Hb0. fold b in Hb0.
  assert (Hxe : x == inject_Z (Qnum x) / inject_Z (Z.pos (Qden x))).
  { destruct x as [n d]. simpl. rewrite (Qmake_Qdiv n d). reflexivity. }
  assert (Hd : 0 < inject_Z (Z.pos (Qden x))).
  { change 0 with (inject_Z 0). rewrite <- Zlt_Qlt. lia. }
  assert (Hna : 2 ^ a <= inject_Z (Qnum x) ∧ inject_Z (Qnum x) < 2 ^ (a + 1)).
  { rewrite <- !pow2_inject by lia. rewrite <- Zle_Qle, <- Zlt_Qlt.
    replace (a + 1)%Z with (Z.succ a) by lia. done. }
  assert (Hdb : 2 ^ b <= inject_Z (Z.pos (Qden x)) ∧
                inject_Z (Z.pos (Qden x)) < 2 ^ (b + 1)).
  { rewrite <- !pow2_inject by lia. rewrite <- Zle_Qle, <- Zlt_Qlt.
    replace (b + 1)%Z with (Z.succ b) by lia. done. }
  set (N := inject_Z (Qnum x)) in *. set (D := inject_Z (Z.pos (Qden x))) in *.
  assert (Hmul : x * D == N).
  { rewrite Hxe. field. intros HD. rewrite HD in Hd. by apply Qlt_irrefl in Hd. }
  (* x lies between 2^(a-b-1) and 2^(a-b+1) *)
  assert (Hlo : 2 ^ (a - b - 1) < x).
  { apply (Qmult_lt_r _ _ D Hd). rewrite Hmul.
    eapply Qlt_le_trans; [|apply Hna].
    replace a with ((a - b - 1) + (b + 1))%Z at 2 by lia. rewrite pow2_add.
    apply Qmult_lt_l; [apply pow2_pos | apply Hdb]. }
  assert (Hhi : x < 2 ^ (a - b + 1)).
  { apply (Qmult_lt_r _ _ D Hd). rewrite Hmul.
    eapply Qlt_le_trans; [apply Hna|].
    replace (a + 1)%Z with ((a - b + 1) + b)%Z by lia. rewrite pow2_add.
    apply Qmult_le_l; [apply pow2_pos | apply Hdb]. }
  destruct (Qle_bool (2 ^ (a - b)) x) eqn:Hle.
  - apply Qle_bool_iff in Hle. done.
  - split.
    + by apply Qlt_le_weak.
    + replace (a - b - 1 + 1)%Z with (a - b)%Z by lia.
      apply Qnot_le_lt. intros Hc. apply Qle_bool_iff in Hc. congruence.
Qed.

Lemma binade_unique x e :
  0 < x → 2 ^ e <= x → x < 2 ^ (e + 1) → binade x = e.
Proof.
  intros Hx Hlo Hhi. destruct (binade_spec x Hx) as [Hlo' Hhi'].
  assert (binade x < e + 1)%Z.
  { apply (Qpower_lt_compat_l_inv 2); [|done]. lra. }
  assert (e < binade x + 1)%Z.
  { apply (Qpower_lt_compat_l_inv 2); [|done]. lra. }
  lia.
Qed.

Lemma binade_comp x y : x == y → 0 < x → binade x = binade y.
Proof.
  intros Hxy Hx. assert (Hy : 0 < y) by lra.
  destruct (binade_spec y Hy) as [Hlo Hhi].
  apply binade_unique; lra.
Qed.

Global Instance nearest_even_comp : Proper (Qeq ==> eq) nearest_even.
Proof.
  intros q q' Hq. unfold nearest_even.
  rewrite (Qfloor_comp _ _ Hq).
  assert (Hc : (q - inject_Z (Qfloor q') ?= 1 # 2)
               = (q' - inject_Z (Qfloor q') ?= 1 # 2)).
  { apply Qcompare_comp; [by rewrite Hq | reflexivity]. }
  by rewrite Hc.
Qed.

Lemma nearest_even_bounds q :
  q - (1 # 2) <= inject_Z (nearest_even q) ∧
  inject_Z (nearest_even q) <= q + (1 # 2).
Proof.
  unfold nearest_even. pose proof (Qfloor_le q) as Hlo.
  pose proof (Qlt_floor q) as Hhi. rewrite inject_Z_plus in Hhi.
  change (inject_Z 1) with 1 in Hhi.
  destruct (q - inject_Z (Qfloor q) ?= 1 # 2) eqn:Hc.
  - apply (proj2 (Qeq_alt _ _)) in Hc. destruct (Z.even (Qfloor q)).
    + lra.
    + rewrite inject_Z_plus. change (inject_Z 1) with 1. lra.
  - apply (proj2 (Qlt_alt _ _)) in Hc. lra.
  - apply (proj2 (Qgt_alt _ _)) in Hc. rewrite inject_Z_plus. change (inject_Z 1) with 1. lra.
Qed.

Lemma nearest_even_integer q z : q == inject_Z z → nearest_even q = z.
Proof.
  intros Hq. unfold nearest_even.
  assert (Hf : Qfloor q = z) by (rewrite Hq; apply Qfloor_Z).
  rewrite Hf.
  assert (Hc : (q - inject_Z z ?= 1 # 2) = Lt).
  { apply (proj1 (Qlt_alt _ _)). lra. }
  by rewrite Hc.
Qed.

Lemma Qeq_bool_false x y : Qeq_bool x y = false → ¬ x == y.
Proof. intros H Hxy. apply Qeq_bool_iff in Hxy. congruence. Qed.

Lemma Qabs_pos_eq x : 0 < x → Qabs x = x.
Proof.
  destruct x as [[|n|n] d]; unfold Qlt; simpl; intros; (done || lia).
Qed.

Lemma div_pow2 x c : x / 2 ^ c * 2 ^ c == x.
Proof. field. pose proof (pow2_pos c). lra. Qed.

Lemma round64_nonneg x : 0 <= x → 0 <= round64 x.
Proof.
  intros Hx. unfold round64. destruct (Qeq_bool x 0) eqn:H0; [lra|].
  set (c := Z.max _ _). pose proof (pow2_pos c) as Hc.
  apply Qmult_le_0_compat; [|lra].
  change 0 with (inject_Z 0). rewrite <- Zle_Qle.
  assert (Hq : 0 <= x / 2 ^ c).
  { apply Qle_shift_div_l; [done|]. lra. }
  destruct (nearest_even_bounds (x / 2 ^ c)) as [Hlo _].
  assert (Hm : -1 < inject_Z (nearest_even (x / 2 ^ c))) by lra.
  change (-1) with (inject_Z (-1)) in Hm. rewrite <- Zlt_Qlt in Hm. lia.
Qed.

Lemma Qabs_nonzero x : ¬ x == 0 → 0 < Qabs x.
Proof.
  intros Hx. destruct (Qlt_le_dec 0 (Qabs x)) as [|Hle]; [done|].
  pose proof (Qabs_nonneg x) as H0. destruct Hx.
  assert (Hz : Qabs x == 0) by lra.
  revert Hz. apply Qabs_case; intros; lra.
Qed.

Global Instance round64_comp : Proper (Qeq ==> Qeq) round64.
Proof.
  intros x y Hxy. unfold round64.
  destruct (Qeq_bool x 0) eqn:Hx0, (Qeq_bool y 0) eqn:Hy0; try reflexivity.
  - apply Qeq_bool_iff in Hx0. apply Qeq_bool_false in Hy0. lra.
  - apply Qeq_bool_iff in Hy0. apply Qeq_bool_false in Hx0. lra.
  - apply Qeq_bool_false in Hx0.
    assert (Habs : Qabs x == Qabs y) by by rewrite Hxy.
    rewrite (binade_comp _ _ Habs) by by apply Qabs_nonzero.
    by rewrite Hxy.
Qed.

(** The rounding error is at most half a unit in the last place. *)
Lemma round64_upper x :
  0 < x → round64 x <= x + x * 2 ^ (-53) ∨ round64 x < 1.
Proof.
  intros Hx. unfold round64.
  destruct (Qeq_bool x 0) eqn:H0; [apply Qeq_bool_iff in H0; lra|].
  rewrite (Qabs_pos_eq x) by done.
  destruct (binade_spec x Hx) as [Hlo Hhi]. set (e := binade x) in *.
  set (c := Z.max (e - 52) (-1074)). pose proof (pow2_pos c) as Hc.
  destruct (nearest_even_bounds (x / 2 ^ c)) as [_ Hm].
  assert (Hup : inject_Z (nearest_even (x / 2 ^ c)) * 2 ^ c
                <= x + (1 # 2) * 2 ^ c).
  { rewrite <- (div_pow2 x c) at 2.
    rewrite <- Qmult_plus_distr_l. apply Qmult_le_compat_r; lra. }
  destruct (decide (-1074 <= e - 52)%Z) as [Hn|Hs].
  - left. eapply Qle_trans; [apply Hup|].
    assert (Hce : (1 # 2) * 2 ^ c == 2 ^ e * 2 ^ (-53)).
    { replace c with (e - 52)%Z by lia.
      replace (e - 52)%Z with (e + (-53) + 1)%Z by lia.
      rewrite pow2_S, pow2_add. ring. }
    rewrite Hce. pose proof (pow2_pos (-53)) as Hp.
    assert (2 ^ e * 2 ^ (-53) <= x * 2 ^ (-53)); [|lra].
    apply Qmult_le_compat_r; lra.
  - right. eapply Qle_lt_trans; [apply Hup|].
    assert (Hc1 : c = (-1074)%Z) by lia.
    assert (Hx1 : x < 2 ^ (-1022)).
    { eapply Qlt_le_trans; [apply Hhi|]. apply pow2_le. lia. }
    assert (Hc2 : 2 ^ c <= 2 ^ (-1022)) by (apply pow2_le; lia).
    assert (H2 : 2 ^ (-1022) <= 2 ^ (-1)) by (apply pow2_le; lia).
    change (2 ^ (-1)) with (1 # 2) in H2. lra.
Qed.

(** A number that [round64] leaves unchanged and lies below 1 is at most
    the greatest double below 1. *)
Lemma double_below_one r :
  round64 r == r → 0 <= r → r < 1 → r <= 1 - 2 ^ (-53).
Proof.
  intros Hr H0 H1. pose proof (pow2_pos (-53)) as Hp.
  assert (Hp' : 2 ^ (-53) <= 2 ^ (-1)) by (apply pow2_le; lia).
  change (2 ^ (-1)) with (1 # 2) in Hp'.
  destruct (Qlt_le_dec 0 r) as [Hpos|Hz]; [|lra].
  revert Hr. unfold round64.
  destruct (Qeq_bool r 0) eqn:Hr0; [apply Qeq_bool_iff in Hr0; lra|].
  rewrite (Qabs_pos_eq r) by done.
  destruct (binade_spec r Hpos) as [Hlo Hhi]. set (e := binade r) in *.
  assert (He : (e < 0)%Z).
  { apply (Qpower_lt_compat_l_inv 2); [|done].
    change (2 ^ 0) with 1. lra. }
  destruct (decide (e = -1)%Z) as [->|Hne].
  - change (Z.max (-1 - 52) (-1074)) with (-53)%Z.
    set (m := nearest_even _). intros Hm.
    assert (Hlt : inject_Z m < inject_Z (2 ^ 53)).
    { apply (Qmult_lt_r _ _ (2 ^ (-53)) Hp). rewrite Hm.
      assert (Hone : inject_Z (2 ^ 53)%Z * 2 ^ (-53) == 1).
      { rewrite pow2_inject by lia. rewrite <- pow2_add. reflexivity. }
      by rewrite Hone. }
    rewrite <- Zlt_Qlt in Hlt.
    assert (Hle : inject_Z m <= inject_Z (2 ^ 53 - 1)).
    { rewrite <- Zle_Qle. lia. }
    rewrite <- Hm.
    assert (Hone : inject_Z (2 ^ 53 - 1)%Z * 2 ^ (-53) == 1 - 2 ^ (-53)).
    { unfold Z.sub. rewrite inject_Z_plus, Qmult_plus_distr_l.
      rewrite pow2_inject by lia. rewrite <- pow2_add.
      change (2 ^ (53 + -53)) with 1. change (inject_Z (- (1))) with (- (1)).
      ring. }
    rewrite <- Hone. apply Qmult_le_compat_r; [done|lra].
  - intros _.
    assert (Hhalf : 2 ^ (e + 1) <= 2 ^ (-1)) by (apply pow2_le; lia).
    change (2 ^ (-1)) with (1 # 2) in Hhalf. lra.
Qed.

(** [Math.floor(random * length)] is an index of the array. *)
Lemma floor_scaled_range (r : Q) (len : nat) :
  round64 r == r → 0 <= r → r < 1 → (0 < len)%nat →
  (0 <= Qfloor (round64 (r * inject_Z (Z.of_nat len))) < Z.of_nat len)%Z.
Proof.
  intros Hr H0 H1 Hlen. pose proof (double_below_one r Hr H0 H1) as Hr1.
  pose proof (pow2_pos (-53)) as Hp.
  assert (Hp' : 2 ^ (-53) <= 2 ^ (-1)) by (apply pow2_le; lia).
  change (2 ^ (-1)) with (1 # 2) in Hp'.
  set (n := inject_Z (Z.of_nat len)).
  assert (Hn : 1 <= n).
  { change 1 with (inject_Z 1). unfold n. rewrite <- Zle_Qle. lia. }
  assert (Hx0 : 0 <= r * n) by (apply Qmult_le_0_compat; lra).
  split.
  - change 0%Z with (Qfloor 0). apply Qfloor_resp_le. by apply round64_nonneg.
  - rewrite Zlt_Qlt. eapply Qle_lt_trans; [apply Qfloor_le|]. fold n.
    destruct (Qlt_le_dec 0 (r * n)) as [Hpos|Hz].
    + destruct (round64_upper (r * n) Hpos) as [Hup|Hup]; [|lra].
      eapply Qle_lt_trans; [apply Hup|].
      assert (Hrn : r * n <= (1 - 2 ^ (-53)) * n)
        by (apply Qmult_le_compat_r; lra).
      assert (Hrn' : r * n * 2 ^ (-53) <= (1 - 2 ^ (-53)) * n * 2 ^ (-53))
        by (apply Qmult_le_compat_r; lra).
      assert (Hsq : 0 < n * (2 ^ (-53) * 2 ^ (-53))).
      { apply Qmult_lt_0_compat; [lra|]. by apply Qmult_lt_0_compat. }
      assert (Heq : (1 - 2 ^ (-53)) * n + (1 - 2 ^ (-53)) * n * 2 ^ (-53)
                    == n - n * (2 ^ (-53) * 2 ^ (-53))) by ring.
      lra.
    + assert (Hzero : r * n == 0) by lra.
      unfold round64. apply Qeq_bool_iff in Hzero. rewrite Hzero. lra.
Qed.

(** Integers up to [2^53] are doubles. *)
Lemma round64_integer z :
  (0 <= z <= 2 ^ 53)%Z → round64 (inject_Z z) == inject_Z z.
Proof.
  intros Hz. unfold round64.
  destruct (Qeq_bool (inject_Z z) 0) eqn:H0; [by apply Qeq_bool_iff in H0|].
  apply Qeq_bool_false in H0.
  assert (Hpos : (0 < z)%Z).
  { destruct (decide (z = 0%Z)) as [->|]; [by destruct H0|lia]. }
  assert (HposQ : 0 < inject_Z z).
  { change 0 with (inject_Z 0). by rewrite <- Zlt_Qlt. }
  rewrite (Qabs_pos_eq (inject_Z z)) by done.
  destruct (binade_spec _ HposQ) as [Hlo Hhi]. set (e := binade _) in *.
  assert (He1 : (e <= 53)%Z).
  { apply (Qpower_le_compat_l_inv 2); [|done].
    eapply Qle_trans; [apply Hlo|]. rewrite <- pow2_inject by lia.
    rewrite <- Zle_Qle. lia. }
  assert (He0 : (0 <= e)%Z).
  { assert (0 < e + 1)%Z; [|lia].
    apply (Qpower_lt_compat_l_inv 2); [|done]. change (2 ^ 0) with 1.
    eapply Qle_lt_trans; [|apply Hhi]. change 1 with (inject_Z 1).
    rewrite <- Zle_Qle. lia. }
  destruct (decide (e = 53)%Z) as [He|He].
  - (* z = 2^53 *)
    assert (z = 2 ^ 53)%Z as ->.
    { rewrite He in Hlo. rewrite <- pow2_inject in Hlo by lia.
      rewrite <- Zle_Qle in Hlo. lia. }
    rewrite He. change (Z.max (53 - 52) (-1074)) with 1%Z.
    rewrite (nearest_even_integer _ (2 ^ 52)).
    + rewrite !pow2_inject by lia. rewrite <- pow2_add. reflexivity.
    + rewrite !pow2_inject by lia. change (2 ^ 1) with 2.
      change (2 ^ 53) with (2 * 2 ^ 52). field.
  - replace (Z.max (e - 52) (-1074)) with (e - 52)%Z by lia.
    rewrite (nearest_even_integer _ (z * 2 ^ (52 - e))).
    + rewrite inject_Z_mult, pow2_inject by lia.
      rewrite <- Qmult_assoc, <- pow2_add.
      replace (52 - e + (e - 52))%Z with 0%Z by lia. change (2 ^ 0) with 1.
      ring.
    + rewrite inject_Z_mult, pow2_inject by lia.
      replace (52 - e)%Z with (- (e - 52))%Z by lia. rewrite Qpower_opp.
      reflexivity.
Qed.

Lemma Number_isInteger_inject_Z z : Number_isInteger (inject_Z z) = true.
Proof. unfold Number_isInteger. rewrite Qfloor_Z. apply Qeq_bool_refl. Qed.

Lemma Qltb_false a b : Qltb a b = false ↔ b <= a.
Proof. unfold Qltb. rewrite negb_false_iff. apply Qle_bool_iff. Qed.

Lemma Qgtb_false a b : Qgtb a b = false ↔ a <= b.
Proof. unfold Qgtb. rewrite negb_false_iff. apply Qle_bool_iff. Qed.

(** [Array(len)] returns for the integers from 0 to [2^32 - 1] only. *)
Lemma Array_length_Some len n :
  Array_length len = Some n ↔
  inject_Z (Z.of_nat n) == len ∧ (Z.of_nat n < 2 ^ 32)%Z.
Proof.
  unfold Array_length, Number_isInteger. split.
  - destruct (Qeq_bool (inject_Z (Qfloor len)) len) eqn:Hint; [|done].
    destruct (Qle_bool 0 len) eqn:H0; [|done].
    destruct (Qltb len (inject_Z (2 ^ 32))) eqn:H32; [|done].
    simpl. intros [= <-]. apply Qeq_bool_iff in Hint. apply Qle_bool_iff in H0.
    unfold Qltb in H32. apply negb_true_iff in H32.
    assert (Hlt : len < inject_Z (2 ^ 32)).
    { apply Qnot_le_lt. intros Hc. apply Qle_bool_iff in Hc. congruence. }
    rewrite <- Hint in H0, Hlt. change 0 with (inject_Z 0) in H0.
    rewrite <- Zle_Qle in H0. rewrite <- Zlt_Qlt in Hlt.
    rewrite Z2Nat.id by done. done.
  - intros [Hn Hlt].
    assert (Hf : Qfloor len = Z.of_nat n) by (rewrite <- Hn; apply Qfloor_Z).
    rewrite Hf.
    assert (Hint : Qeq_bool (inject_Z (Z.of_nat n)) len = true)
      by by apply Qeq_bool_iff.
    assert (H0 : Qle_bool 0 len = true).
    { apply Qle_bool_iff. rewrite <- Hn. change 0 with (inject_Z 0).
      rewrite <- Zle_Qle. lia. }
    assert (H32 : Qltb len (inject_Z (2 ^ 32)) = true).
    { unfold Qltb. apply negb_true_iff. apply not_true_iff_false.
      intros Hc. apply Qle_bool_iff in Hc. rewrite <- Hn in Hc.
      rewrite <- Zle_Qle in Hc. lia. }
    rewrite Hint, H0, H32. simpl. by rewrite Nat2Z.id.
Qed.

(** Below [2^53] the predecessor of a positive target is exact. *)
Lemma targetPredecessor_exact t :
  (0 < t <= 2 ^ 53)%Z → targetPredecessor t = (t - 1)%Z.
Proof.
  intros Ht. unfold targetPredecessor, minus64, rounded, truncate.
  assert (Heq : inject_Z t - 1 == inject_Z (t - 1)).
  { unfold Z.sub. rewrite inject_Z_plus. reflexivity. }
  assert (Hr : round64 (inject_Z t - 1) == inject_Z (t - 1)).
  { rewrite Heq. apply round64_integer. lia. }
  assert (H0 : 0 <= round64 (inject_Z t - 1)).
  { rewrite Hr. change 0 with (inject_Z 0). rewrite <- Zle_Qle. lia. }
  assert (Hfin : Qle_bool (2 ^ 1024) (Qabs (round64 (inject_Z t - 1))) = false).
  { apply not_true_iff_false. intros Hc. apply Qle_bool_iff in Hc.
    rewrite Qabs_pos, Hr in Hc by done.
    assert (Hlt : inject_Z (t - 1) < 2 ^ 1024); [|lra].
    eapply Qlt_le_trans; [|apply (pow2_le 53); lia].
    rewrite <- pow2_inject by lia. rewrite <- Zlt_Qlt. lia. }
  rewrite Hfin. apply Qle_bool_iff in H0. rewrite H0, Hr. apply Qfloor_Z.
Qed.

Local Close Scope Q_scope.

(** ** Rounding, in the program *)

(** [0.1 + 0.2] is the double [0.30000000000000004], which is more than
    the sum of the two reals: on this draw the selector returns 4, the
    value of the second entry of [{2: 0.1, 4: 0.2, 8: 0.7}]. *)
Lemma selectSpawnValue_rounds :
  (∃ w', selectSpawnValue table_1_2_7
           (world_drawing draw_0_30000000000000004) = Some (4, w')) ∧
  plus64 (finite (decimal (1 # 10))) (decimal (2 # 10))
  = finite draw_0_30000000000000004 ∧
  (decimal (1 # 10) + decimal (2 # 10) < draw_0_30000000000000004)%Q.
Proof.
  split; [eexists; vm_compute; reflexivity|]. split; vm_compute; reflexivity.
Qed.

(** A sum that has overflowed stays infinite: the cumulative mass of the
    table [{2: -1.7e308, 4: -1.7e308, 8: 1.7e308, 16: 1.7e308}] is
    [-Infinity] from the second entry on, no entry reaches the draw 0 and
    the value of the first entry is returned. *)
Lemma selectSpawnValue_overflows :
  cumulativeMass table_overflowing 1 = infinity true ∧
  cumulativeMass table_overflowing 3 = infinity true ∧
  ∃ w', selectSpawnValue table_overflowing world0 = Some (2, w').
Proof.
  split; [vm_compute; reflexivity|]. split; [vm_compute; reflexivity|].
  eexists; vm_compute; reflexivity.
Qed.

(** [0.5714285714285714 * 7] is the double 4: of seven empty cells the
    one of index 4 is drawn, where the floor of the product of the reals
    is 3. *)
Lemma drawnIndex_rounds :
  drawnIndex (world_drawing draw_0_5714285714285714) 7 = 4 ∧
  Qfloor (draw_0_5714285714285714 * 7) = 3.
Proof. split; vm_compute; reflexivity. Qed.

(** The validator compares [|sum - 1|] with [0.001] in doubles: the sum
    0.999 is reported, the sum of 0.5 and 0.501 is not; and the
    predecessor of the target [2^53 + 4] is the target itself, so that
    this target is reported as no power of two. *)
Lemma validateGameConfig_rounds :
  validateGameConfig config_sum_0_999
  = ["Spawn value probabilities must sum to 1.0"%string] ∧
  validateGameConfig config_sum_1_001 = [] ∧
  targetPredecessor 9007199254740996 = 9007199254740996 ∧
  validateGameConfig config_target_9007199254740996
  = ["Target value should be a power of 2"%string].
Proof. repeat split; vm_compute; reflexivity. Qed.

(** The grid size 3.5 passes the validator, and [Array(3.5)] throws. *)
Lemma initializeGame_fractional_size w :
  validateGameConfig config_size_3_5 = [] ∧
  initializeGame config_size_3_5 w = None.
Proof. split; vm_compute; reflexivity. Qed.

(** ** Reading and writing a square grid *)

Lemma index_of_nat {A} (l : list A) (i : nat) : index l (Z.of_nat i) = l !! i.
Proof.
  unfold index. destruct (Z.ltb_spec (Z.of_nat i) 0); [lia|].
  by rewrite Nat2Z.id.
Qed.

Lemma grid_at_zcell g r c : grid_at g (zcell r c) = cellAt g r c.
Proof.
  unfold grid_at, cellAt, zcell; simpl. rewrite index_of_nat.
  destruct (g !! r); [apply index_of_nat | done].
Qed.

Lemma square_cellAt n g r c :
  square n g → (r < n)%nat → (c < n)%nat → is_Some (cellAt g r c).
Proof.
  intros [Hlen Hrows] Hr Hc. unfold cellAt.
  destruct (lookup_lt_is_Some_2 g r) as [rw Hrw]; [lia|].
  rewrite Hrw. apply lookup_lt_is_Some_2. rewrite (Hrows _ _ Hrw). lia.
Qed.

Lemma cellAt_lt n g r c x :
  square n g → cellAt g r c = Some x → (r < n)%nat ∧ (c < n)%nat.
Proof.
  intros [Hlen Hrows]. unfold cellAt.
  destruct (g !! r) as [rw|] eqn:Hrw; [|done]. intros Hc.
  apply lookup_lt_Some in Hc. rewrite (Hrows _ _ Hrw) in Hc.
  apply lookup_lt_Some in Hrw. lia.
Qed.

Lemma getAllTiles_rows g : getAllTiles g = flat_map row_tiles g.
Proof. reflexivity. Qed.

Lemma flat_map_insert_perm {A B} (f : A → list B) (l : list A) i x y :
  l !! i = Some x →
  f x ++ flat_map f (<[i := y]> l) ≡ₚ f y ++ flat_map f l.
Proof.
  revert i. induction l as [|a l IH]; intros [|i] Hi; simplify_eq/=.
  - by rewrite !app_assoc, (Permutation_app_comm (f x) (f y)).
  - specialize (IH _ Hi).
    rewrite !app_assoc, (Permutation_app_comm (f x) (f a)),
      (Permutation_app_comm (f y) (f a)), <- !app_assoc.
    by rewrite IH.
Qed.

(** Writing [v] over [old] trades the tiles of [old] for those of [v];
    all other cells are unchanged. *)
Lemma grid_set_spec n g r c old v :
  square n g → cellAt g r c = Some old →
  ∃ g', grid_set g (zcell r c) v = Some g' ∧ square n g' ∧
        (∀ r' c', cellAt g' r' c' =
                  if decide (r' = r ∧ c' = c) then Some v else cellAt g r' c') ∧
        cell_tiles old ++ getAllTiles g' ≡ₚ cell_tiles v ++ getAllTiles g.
Proof.
  intros Hsq Hold. destruct (cellAt_lt _ _ _ _ _ Hsq Hold) as [Hr Hc].
  destruct Hsq as [Hlen Hrows].
  unfold grid_set, zcell; simpl. rewrite index_of_nat, !Nat2Z.id.
  unfold cellAt in Hold. destruct (g !! r) as [rw|] eqn:Hrw; [|done].
  rewrite index_of_nat, Hold. eexists; split; [done|]. split; [|split].
  - split; [by rewrite length_insert|]. intros r' rw'.
    destruct (decide (r' = r)) as [->|Hne].
    + rewrite list_lookup_insert_eq by lia. intros [= <-].
      rewrite length_insert. eauto.
    + rewrite list_lookup_insert_ne by done. eauto.
  - intros r' c'. unfold cellAt. destruct (decide (r' = r)) as [->|Hne].
    + rewrite list_lookup_insert_eq by lia. rewrite Hrw.
      destruct (decide (c' = c)) as [->|Hne].
      * rewrite list_lookup_insert_eq; [|by eapply lookup_lt_Some].
        by rewrite decide_True.
      * rewrite list_lookup_insert_ne by done. by rewrite decide_False by tauto.
    + rewrite list_lookup_insert_ne by done. by rewrite decide_False by tauto.
  - rewrite !getAllTiles_rows.
    pose proof (flat_map_insert_perm cell_tiles rw c old v Hold) as Hrow.
    pose proof (flat_map_insert_perm row_tiles g r rw (<[c:=v]> rw) Hrw) as Hg.
    fold (row_tiles (<[c:=v]> rw)) in Hrow. fold (row_tiles rw) in Hrow.
    apply (Permutation_app_inv_l (row_tiles rw)).
    rewrite (Permutation_app_swap_app (row_tiles rw) (cell_tiles old)), Hg.
    rewrite !app_assoc, Hrow. 
    by rewrite (Permutation_app_comm (row_tiles rw)).
Qed.

(** ** Lines of a traversal *)

Lemma rev_seq_0 n : rev (seq 0 n) = map (λ k, n - 1 - k)%nat (seq 0 n).
Proof.
  induction n as [|n IH]; [done|].
  transitivity (rev (seq 0 n ++ [n])); [by rewrite seq_S|].
  rewrite rev_app_distr, IH. cbn [rev app seq map].
  f_equal; [lia|]. rewrite <- seq_shift, map_map.
  apply map_ext_in. intros k Hk. apply in_seq in Hk. lia.
Qed.

Lemma traversal_lines d n :
  getTraversalOrder d n =
  flat_map (λ l, map (line_cell d n l) (seq 0 n)) (seq 0 n).
Proof.
  destruct d; unfold getTraversalOrder, line_cell, line_rc; simpl; try done.
  - apply flat_map_ext. intros l. by rewrite rev_seq_0, map_map.
  - apply flat_map_ext. intros l. by rewrite rev_seq_0, map_map.
Qed.

Lemma line_rc_lt d n l k :
  (l < n)%nat → (k < n)%nat →
  ((line_rc d n l k).1 < n)%nat ∧ ((line_rc d n l k).2 < n)%nat.
Proof. destruct d; simpl; lia. Qed.

Lemma line_rc_inj d n l k l' k' :
  (k < n)%nat → (k' < n)%nat →
  line_rc d n l k = line_rc d n l' k' → l = l' ∧ k = k'.
Proof. destruct d; simpl; intros ?? [= ??]; lia. Qed.

Lemma grid_at_line g d n l k :
  grid_at g (line_cell d n l k) =
  cellAt g (line_rc d n l k).1 (line_rc d n l k).2.
Proof. apply grid_at_zcell. Qed.

Lemma line_within d n l k :
  (l < n)%nat → (k < n)%nat → isWithinBounds (line_cell d n l k) n = true.
Proof.
  intros Hl Hk. destruct (line_rc_lt d n l k Hl Hk) as [H1 H2].
  unfold isWithinBounds, line_cell, zcell; simpl.
  repeat (apply andb_true_intro; split); (apply Z.leb_le || apply Z.ltb_lt); lia.
Qed.

Lemma line_next_S d n l k :
  (S k < n)%nat →
  getNextCell (line_cell d n l (S k)) d = Some (line_cell d n l k).
Proof.
  intros Hk. destruct d; unfold getNextCell, line_cell, line_rc, zcell; simpl.
  - destruct (Z.ltb_spec 0 (Z.of_nat (S k))); [|lia]. do 2 f_equal. lia.
  - do 2 f_equal. lia.
  - destruct (Z.ltb_spec 0 (Z.of_nat (S k))); [|lia]. do 2 f_equal. lia.
  - do 2 f_equal. lia.
Qed.

Lemma line_next_0 d n l c :
  (0 < n)%nat →
  getNextCell (line_cell d n l 0) d = Some c → isWithinBounds c n = false.
Proof.
  intros Hn. destruct d; unfold getNextCell, line_cell, line_rc, zcell; simpl;
    intros [= <-]; unfold isWithinBounds; simpl.
  - replace (Z.of_nat (n - 1 - 0) + 1) with (Z.of_nat n) by lia.
    rewrite Z.ltb_irrefl. by rewrite andb_false_r.
  - replace (Z.of_nat (n - 1 - 0) + 1) with (Z.of_nat n) by lia.
    rewrite Z.ltb_irrefl. by rewrite andb_false_r.
Qed.

(** ** The farthest-position walk *)

Lemma findFarthest_loop_spec d n l g mc :
  square n g → (l < n)%nat →
  ∀ j fuel, (j < n)%nat → (j ≤ fuel)%nat →
  ∃ j0 nx,
    findFarthest_loop fuel d g mc (line_cell d n l j)
      (getNextCell (line_cell d n l j) d) = Some (line_cell d n l j0, nx) ∧
    (j0 ≤ j)%nat ∧
    (∀ i, (j0 ≤ i < j)%nat → free g mc (line_cell d n l i)) ∧
    match nx with
    | None => j0 = 0%nat
    | Some c => ∃ j1, j0 = S j1 ∧ c = line_cell d n l j1 ∧ ¬ free g mc c
    end.
Proof.
  intros Hsq Hl. induction j as [|j IH]; intros fuel Hj Hfuel.
  - exists 0%nat, None. split; [|split; [lia|split; [intros; lia|done]]].
    destruct (getNextCell (line_cell d n l 0) d) as [c|] eqn:Hnext.
    + apply line_next_0 in Hnext; [|lia].
      destruct fuel; simpl; destruct Hsq as [-> _]; by rewrite Hnext.
    + by destruct fuel.
  - rewrite line_next_S by done.
    assert (Hin : isWithinBounds (line_cell d n l j) (length g) = true)
      by (destruct Hsq as [-> _]; apply line_within; lia).
    destruct (line_rc_lt d n l j) as [Hr Hc]; [lia..|].
    destruct (square_cellAt n g _ _ Hsq Hr Hc) as [x Hx].
    rewrite <- grid_at_line in Hx.
    assert (Hstop : ¬ free g mc (line_cell d n l j) →
      ∃ j0 nx, Some (line_cell d n l (S j), Some (line_cell d n l j))
               = Some (line_cell d n l j0, nx) ∧ (j0 ≤ S j)%nat ∧
        (∀ i, (j0 ≤ i < S j)%nat → free g mc (line_cell d n l i)) ∧
        match nx with
        | None => j0 = 0%nat
        | Some c => ∃ j1, j0 = S j1 ∧ c = line_cell d n l j1 ∧ ¬ free g mc c
        end).
    { intros Hnf. exists (S j), (Some (line_cell d n l j)).
      split; [done|]. split; [lia|]. split; [intros; lia|]. by exists j. }
    destruct fuel as [|fuel]; [lia|].
    simpl. rewrite Hin, Hx. destruct x as [t|].
    { apply Hstop. intros [Hf _]. congruence. }
    case_bool_decide as Hmc.
    { apply Hstop. intros [_ Hf]. done. }
    destruct (IH fuel) as (j0 & nx & Heq & Hle & Hfree & Hnx); [lia..|].
    exists j0, nx. split; [done|]. split; [lia|]. split; [|done].
    intros i Hi. destruct (decide (i = j)) as [->|]; [by split|].
    apply Hfree. lia.
Qed.

Lemma findFarthestPosition_spec d n l k g mc :
  square n g → (l < n)%nat → (k < n)%nat →
  ∃ j0 nx,
    findFarthestPosition (line_cell d n l k) d g mc
      = Some (line_cell d n l j0, nx) ∧
    (j0 ≤ k)%nat ∧
    (∀ i, (j0 ≤ i < k)%nat → free g mc (line_cell d n l i)) ∧
    match nx with
    | None => j0 = 0%nat
    | Some c => ∃ j1, j0 = S j1 ∧ c = line_cell d n l j1 ∧ ¬ free g mc c
    end.
Proof.
  intros Hsq Hl Hk. unfold findFarthestPosition.
  apply (findFarthest_loop_spec d n l g mc Hsq Hl); [done|].
  destruct Hsq as [-> _]. lia.
Qed.

(** ** The walk never runs out of iterations *)

Lemma findFarthest_loop_total d g mc : ∀ fuel previous current,
  (∀ c, current = Some c → isWithinBounds c (length g) = true →
        edgeDistance d (length g) c < Z.of_nat fuel) →
  is_Some (findFarthest_loop fuel d g mc previous current).
Proof.
  induction fuel as [|fuel IH]; intros previous current Hdist.
  - destruct current as [c|]; simpl; [|done].
    destruct (isWithinBounds c (length g)) eqn:Hin; [|done].
    specialize (Hdist c eq_refl Hin). exfalso.
    unfold isWithinBounds in Hin. destruct d; simpl in Hdist; lia.
  - destruct current as [c|]; simpl; [|done].
    destruct (isWithinBounds c (length g)) eqn:Hin; [|done].
    specialize (Hdist c eq_refl Hin).
    destruct (grid_at g c) as [[t|]|]; [done| |done].
    case_bool_decide; [done|]. apply IH. intros c' Hnext Hin'.
    unfold getNextCell in Hnext.
    destruct d; simpl in *; repeat case_match; simplify_eq/=; lia.
Qed.

(** [grid.length] iterations always suffice, whatever the grid, the set
    of merged cells and the starting position. *)
Lemma findFarthestPosition_total position d g mc :
  is_Some (findFarthestPosition position d g mc).
Proof.
  unfold findFarthestPosition. apply findFarthest_loop_total.
  intros c _ Hin. unfold isWithinBounds in Hin. destruct d; simpl; lia.
Qed.

(** ** One iteration of the move loop *)

Lemma mergeCandidate_Some g mc t next nx nt :
  mergeCandidate g mc t next = Some (nx, nt) ↔
  next = Some nx ∧ grid_at g nx = Some (Some nt) ∧
  value nt = value t ∧ cellKey nx ∉ mc.
Proof.
  unfold mergeCandidate. destruct next as [c|]; [|naive_solver].
  destruct (grid_at g c) as [[t'|]|] eqn:Hc; [|naive_solver..].
  repeat case_bool_decide; simpl; naive_solver.
Qed.

Lemma processCell_null g d acc c w :
  grid_at g c = Some None → processCell g d acc c w = Some (acc, w).
Proof. unfold processCell. by intros ->. Qed.

(** What happens to a tile standing at distance [k] on line [l]: it
    slides to distance [j0 ≤ k] over free cells, or merges into the tile
    right behind them. *)
Lemma processCell_tile g d n l k acc t w :
  square n (acc_grid acc) → (l < n)%nat → (k < n)%nat →
  grid_at g (line_cell d n l k) = Some (Some t) →
  grid_at (acc_grid acc) (line_cell d n l k) = Some None →
  ∃ acc' w' j0,
    processCell g d acc (line_cell d n l k) w = Some (acc', w') ∧
    (j0 ≤ k)%nat ∧
    (∀ i, (j0 ≤ i < k)%nat →
          free (acc_grid acc) (acc_mergedCells acc) (line_cell d n l i)) ∧
    ((∃ g',
        grid_set (acc_grid acc) (line_cell d n l j0)
          (Some (with_position t (line_cell d n l j0))) = Some g' ∧
        grid_at (acc_grid acc) (line_cell d n l j0) = Some None ∧
        acc' = mkAcc g' (acc_mergedCells acc) (acc_mergedTiles acc)
                 (acc_moved acc || differs (line_cell d n l j0) (position t))
                 (acc_score acc) ∧
        w' = w)
     ∨
     (∃ j1 nt m g',
        j0 = S j1 ∧
        grid_at (acc_grid acc) (line_cell d n l j1) = Some (Some nt) ∧
        value nt = value t ∧
        value m = value t * 2 ∧ position m = line_cell d n l j1 ∧
        grid_set (acc_grid acc) (line_cell d n l j1) (Some m) = Some g' ∧
        acc' = mkAcc g' ({[cellKey (line_cell d n l j1)]} ∪ acc_mergedCells acc)
                 (acc_mergedTiles acc ++ [m])
                 (acc_moved acc || differs (line_cell d n l j1) (position t))
                 (acc_score acc + value t * 2))).
Proof.
  intros Hsq Hl Hk Ht Hown. unfold processCell. rewrite Ht.
  destruct (findFarthestPosition_spec d n l k (acc_grid acc)
              (acc_mergedCells acc) Hsq Hl Hk)
    as (j0 & nx & Hff & Hle & Hfree & Hnx).
  unfold bind, lift. rewrite Hff. cbn [fst snd].
  assert (Hempty : grid_at (acc_grid acc) (line_cell d n l j0) = Some None).
  { destruct (decide (j0 = k)) as [->|]; [done|]. apply Hfree. lia. }
  destruct (mergeCandidate (acc_grid acc) (acc_mergedCells acc) t nx)
    as [[c nt]|] eqn:Hmc.
  - apply mergeCandidate_Some in Hmc as (-> & Hnt & Hval & Hnot).
    destruct Hnx as (j1 & -> & -> & _).
    pose proof Hnt as Hnt'. rewrite grid_at_line in Hnt'.
    destruct (grid_set_spec n (acc_grid acc) _ _ _
      (Some (with_mergedFrom
         (mkTile (mkTileId (Date_now w (tileIdCounter w)) (tileIdCounter w))
            (value t * 2) (line_cell d n l j1) None)
         [with_position t (cloneCell (position t));
          with_position nt (cloneCell (position nt))])) Hsq Hnt')
      as (g' & Hset & _).
    fold (line_cell d n l j1) in Hset.
    unfold createTile, generateTileId, bind, ret. cbn. rewrite Hset.
    eexists _, _, (S j1). split; [done|]. split; [done|]. split; [done|].
    right. eexists j1, nt, _, g'. by repeat split.
  - pose proof Hempty as Hempty'. rewrite grid_at_line in Hempty'.
    destruct (grid_set_spec n (acc_grid acc) _ _ _
      (Some (with_position t (line_cell d n l j0))) Hsq Hempty')
      as (g' & Hset & _).
    fold (line_cell d n l j0) in Hset. rewrite Hset. unfold ret.
    eexists _, _, j0. split; [done|]. split; [done|]. split; [done|].
    left. by exists g'.
Qed.

(** ** Induction over the traversal *)

Lemma foldM_app {A S} (f : S → A → M S) l1 l2 s w :
  foldM f (l1 ++ l2) s w =
  match foldM f l1 s w with
  | Some (s', w') => foldM f l2 s' w'
  | None => None
  end.
Proof.
  revert s w. induction l1 as [|x l1 IH]; intros s w; [done|].
  simpl. unfold bind. destruct (f s x w) as [[s' w']|]; [apply IH | done].
Qed.

(** Loop rule: an invariant indexed by the line and the distance of the
    next cell to process. *)
Lemma traversal_rule g d n (I : nat → nat → MoveAcc → World → Prop) :
  (∀ l k acc w, (l < n)%nat → (k < n)%nat → I l k acc w →
     ∃ acc' w', processCell g d acc (line_cell d n l k) w = Some (acc', w') ∧
                I l (S k) acc' w') →
  (∀ l acc w, (l < n)%nat → I l n acc w → I (S l) 0%nat acc w) →
  ∀ acc w, I 0%nat 0%nat acc w →
    ∃ acc' w', foldM (processCell g d) (getTraversalOrder d n) acc w
                 = Some (acc', w') ∧ I n 0%nat acc' w'.
Proof.
  intros Hstep Hline. rewrite traversal_lines.
  assert (Hinner : ∀ l, (l < n)%nat → ∀ m k acc w, (k + m = n)%nat → I l k acc w →
    ∃ acc' w', foldM (processCell g d) (map (line_cell d n l) (seq k m)) acc w
                 = Some (acc', w') ∧ I l n acc' w').
  { intros l Hl. induction m as [|m IH]; intros k acc w Hkm HI.
    - replace k with n in HI by lia. by exists acc, w.
    - simpl. unfold bind.
      destruct (Hstep l k acc w) as (acc1 & w1 & -> & HI1); [lia..|done|].
      apply IH; [lia|done]. }
  assert (Houter : ∀ m l acc w, (l + m = n)%nat → I l 0%nat acc w →
    ∃ acc' w', foldM (processCell g d)
                 (flat_map (λ l, map (line_cell d n l) (seq 0 n)) (seq l m)) acc w
                 = Some (acc', w') ∧ I n 0%nat acc' w').
  { induction m as [|m IH]; intros l acc w Hlm HI.
    - replace l with n in HI by lia. by exists acc, w.
    - simpl. rewrite foldM_app.
      destruct (Hinner l ltac:(lia) n 0%nat acc w) as (acc1 & w1 & -> & HI1);
        [lia|done|].
      apply IH; [lia|]. apply Hline; [lia|done]. }
  intros acc w HI. by apply Houter.
Qed.

(** ** Tiles of a grid, cell by cell *)

Lemma sum_values_app a b : sum_values (a ++ b) = sum_values a + sum_values b.
Proof. induction a as [|t a IH]; simpl; lia. Qed.

Global Instance sum_values_perm : Proper ((≡ₚ) ==> (=)) sum_values.
Proof. intros a b H. induction H; simpl; lia. Qed.

Lemma cells_tiles_app g a b :
  cells_tiles g (a ++ b) = cells_tiles g a ++ cells_tiles g b.
Proof. apply flat_map_app. Qed.

Lemma flat_map_map {A B C} (h : A → B) (f : B → list C) l :
  flat_map f (map h l) = flat_map (λ x, f (h x)) l.
Proof. induction l as [|x l IH]; [done|]. simpl. by rewrite IH. Qed.

Lemma flat_map_flat_map {A B C} (h : A → list B) (f : B → list C) l :
  flat_map f (flat_map h l) = flat_map (λ x, flat_map f (h x)) l.
Proof.
  induction l as [|x l IH]; [done|]. simpl. by rewrite flat_map_app, IH.
Qed.

Lemma flat_map_perm_ext {A B} (f h : A → list B) l :
  (∀ x, f x ≡ₚ h x) → flat_map f l ≡ₚ flat_map h l.
Proof.
  intros Hfh. induction l as [|x l IH]; [done|]. simpl. by rewrite Hfh, IH.
Qed.

Lemma flat_map_nil_const {A B} (l : list A) :
  flat_map (λ _, @nil B) l = [].
Proof. by induction l. Qed.

Lemma flat_map_app_perm {A B} (f h : A → list B) l :
  flat_map (λ x, f x ++ h x) l ≡ₚ flat_map f l ++ flat_map h l.
Proof.
  induction l as [|x l IH]; [done|]. simpl. rewrite IH.
  rewrite <- !app_assoc. f_equiv.
  by rewrite !app_assoc, (Permutation_app_comm (h x)).
Qed.

Lemma flat_map_swap {A B C} (F : A → B → list C) la lb :
  flat_map (λ a, flat_map (λ b, F a b) lb) la ≡ₚ
  flat_map (λ b, flat_map (λ a, F a b) la) lb.
Proof.
  induction la as [|a la IH]; simpl.
  - by rewrite flat_map_nil_const.
  - by rewrite IH, flat_map_app_perm.
Qed.

Lemma flat_map_rev_perm {A B} (f : A → list B) l :
  flat_map f (rev l) ≡ₚ flat_map f l.
Proof. apply Permutation_flat_map. symmetry. apply Permutation_rev. Qed.

Lemma flat_map_lookup {A B} (f : A → list B) (l : list A) :
  flat_map f l =
  flat_map (λ i, match l !! i with Some x => f x | None => [] end)
    (seq 0 (length l)).
Proof.
  induction l as [|x l IH]; [done|].
  cbn [length seq flat_map]. f_equal. by rewrite <- seq_shift, flat_map_map.
Qed.

(** Row-major enumeration of a square grid. *)
Lemma getAllTiles_row_major n g :
  square n g →
  getAllTiles g =
  flat_map (λ r, flat_map (λ c, slot_tiles (cellAt g r c)) (seq 0 n)) (seq 0 n).
Proof.
  intros [Hlen Hrows]. rewrite getAllTiles_rows, flat_map_lookup, Hlen.
  apply flat_map_ext. intros r. unfold cellAt.
  destruct (g !! r) as [rw|] eqn:Hrw.
  - unfold row_tiles. rewrite flat_map_lookup, (Hrows _ _ Hrw).
    apply flat_map_ext. intros c. by destruct (rw !! c) as [[?|]|].
  - symmetry. apply (flat_map_nil_const (seq 0 n)).
Qed.

Lemma cells_tiles_lines g d n :
  cells_tiles g (getTraversalOrder d n) =
  flat_map (λ l, flat_map (λ k,
      slot_tiles (cellAt g (line_rc d n l k).1 (line_rc d n l k).2))
    (seq 0 n)) (seq 0 n).
Proof.
  rewrite traversal_lines. unfold cells_tiles. rewrite flat_map_flat_map.
  apply flat_map_ext. intros l. rewrite flat_map_map.
  apply flat_map_ext. intros k. by rewrite grid_at_line.
Qed.

Lemma flat_map_mirror {B} (f : nat → list B) n :
  flat_map (λ k, f (n - 1 - k)%nat) (seq 0 n) ≡ₚ flat_map f (seq 0 n).
Proof.
  rewrite <- (flat_map_map (λ k, n - 1 - k)%nat f), <- rev_seq_0.
  apply flat_map_rev_perm.
Qed.

(** In every direction the traversal visits each cell exactly once. *)
Lemma cells_tiles_traversal g d n :
  square n g → cells_tiles g (getTraversalOrder d n) ≡ₚ getAllTiles g.
Proof.
  intros Hsq. rewrite cells_tiles_lines, (getAllTiles_row_major n g Hsq).
  destruct d; simpl.
  - apply (flat_map_swap (λ l k, slot_tiles (cellAt g k l))).
  - etrans; [|apply (flat_map_swap (λ l k, slot_tiles (cellAt g k l)))].
    apply flat_map_perm_ext. intros l.
    apply (flat_map_mirror (λ r, slot_tiles (cellAt g r l))).
  - done.
  - apply flat_map_perm_ext. intros l.
    apply (flat_map_mirror (λ c, slot_tiles (cellAt g l c))).
Qed.

(** ** Conservation invariant of the move loop *)

Lemma processed_S d n l k :
  processed d n l (S k) = processed d n l k ++ [line_cell d n l k].
Proof. unfold processed. by rewrite seq_S, map_app, app_assoc. Qed.

Lemma processed_next_line d n l :
  processed d n (S l) 0 = processed d n l n.
Proof.
  unfold processed. rewrite seq_S, flat_map_app. simpl.
  by rewrite !app_nil_r.
Qed.

Lemma processed_all d n :
  processed d n n 0 = getTraversalOrder d n.
Proof. unfold processed. rewrite traversal_lines. simpl. apply app_nil_r. Qed.

Lemma cellAt_createEmptyGrid n r c :
  cellAt (createEmptyGrid n) r c =
  if decide (r < n ∧ c < n)%nat then Some None else None.
Proof.
  unfold cellAt, createEmptyGrid.
  destruct (decide (r < n)%nat) as [Hr|Hr].
  - rewrite lookup_replicate_2 by done.
    destruct (decide (c < n)%nat) as [Hc|Hc].
    + rewrite lookup_replicate_2 by done. by rewrite decide_True.
    + rewrite (proj1 (lookup_replicate_None _ _ _)) by lia.
      by rewrite decide_False by tauto.
  - rewrite (proj1 (lookup_replicate_None _ _ _)) by lia.
    by rewrite decide_False by tauto.
Qed.

Lemma square_createEmptyGrid n : square n (createEmptyGrid n).
Proof.
  unfold createEmptyGrid. split; [apply length_replicate|].
  intros r rw [-> _]%lookup_replicate. apply length_replicate.
Qed.

Lemma getAllTiles_createEmptyGrid n : getAllTiles (createEmptyGrid n) = [].
Proof.
  rewrite (getAllTiles_row_major n _ (square_createEmptyGrid n)).
  assert (H : ∀ r, flat_map (λ c, slot_tiles (cellAt (createEmptyGrid n) r c))
                     (seq 0 n) = []).
  { intros r. erewrite flat_map_ext; [apply (flat_map_nil_const (seq 0 n))|].
    intros c. simpl. rewrite cellAt_createEmptyGrid. by case_decide. }
  erewrite flat_map_ext; [apply (flat_map_nil_const (seq 0 n))|].
  intros r. apply H.
Qed.

Lemma Conserved_init g d n :
  Conserved g d n 0 0 (mkAcc (createEmptyGrid n) ∅ [] false 0).
Proof.
  split; simpl.
  - apply square_createEmptyGrid.
  - intros l' k' Hl Hk _. rewrite grid_at_line, cellAt_createEmptyGrid.
    destruct (line_rc_lt d n l' k' Hl Hk). by rewrite decide_True.
  - unfold tileSum. by rewrite getAllTiles_createEmptyGrid.
  - intros _. by rewrite getAllTiles_createEmptyGrid.
  - done.
  - intros r c t. rewrite cellAt_createEmptyGrid. by case_decide.
Qed.

Lemma Conserved_next_line g d n l acc :
  Conserved g d n l n acc → Conserved g d n (S l) 0 acc.
Proof.
  intros [Hsq Hem Hsum Hperm Hsc Hpos].
  split; rewrite ?processed_next_line; try done.
  intros l' k' Hl Hk Hb. apply Hem; [done..|]. unfold beyond in *. lia.
Qed.

Lemma Conserved_step g d n l k acc w :
  square n g → (l < n)%nat → (k < n)%nat → Conserved g d n l k acc →
  ∃ acc' w', processCell g d acc (line_cell d n l k) w = Some (acc', w') ∧
             Conserved g d n l (S k) acc'.
Proof.
  intros Hg Hl Hk [Hsq Hem Hsum Hperm Hsc Hpos].
  destruct (line_rc_lt d n l k Hl Hk) as [Hr Hc].
  destruct (square_cellAt n g _ _ Hg Hr Hc) as [x Hx].
  rewrite <- grid_at_line in Hx.
  assert (Hcells : cells_tiles g (processed d n l (S k))
                   = cells_tiles g (processed d n l k) ++ slot_tiles (Some x)).
  { rewrite processed_S, cells_tiles_app. simpl. by rewrite Hx, app_nil_r. }
  assert (Hkeep : ∀ g' j v, (j ≤ k)%nat →
    (∀ r' c', cellAt g' r' c' =
       if decide (r' = (line_rc d n l j).1 ∧ c' = (line_rc d n l j).2)
       then Some v else cellAt (acc_grid acc) r' c') →
    ∀ l' k', (l' < n)%nat → (k' < n)%nat → beyond l (S k) l' k' →
      grid_at g' (line_cell d n l' k') = Some None).
  { intros g' j v Hj Hlook l' k' Hl' Hk' Hb. rewrite grid_at_line, Hlook.
    rewrite decide_False.
    - rewrite <- grid_at_line. apply Hem; [done..|]. unfold beyond in *. lia.
    - intros [H1 H2].
      destruct (line_rc_inj d n l' k' l j) as [-> ->]; [lia..| |].
      + by apply injective_projections.
      + unfold beyond in Hb. lia. }
  destruct x as [t|].
  - destruct (processCell_tile g d n l k acc t w Hsq Hl Hk Hx)
      as (acc' & w' & j0 & Hrun & Hle & Hfree & Hcase).
    { apply Hem; [done..|]. right. lia. }
    exists acc', w'. split; [done|].
    destruct Hcase as [(g' & Hset & Hold & -> & _)
                      |(j1 & nt & m & g' & -> & Hold & Hval & Hm & Hmpos & Hset & ->)].
    + rewrite grid_at_line in Hold.
      destruct (grid_set_spec n _ _ _ _
        (Some (with_position t (line_cell d n l j0))) Hsq Hold)
        as (g'' & Hset' & Hsq' & Hlook & Hp).
      fold (line_cell d n l j0) in Hset'. rewrite Hset in Hset'.
      injection Hset' as <-. simpl in Hp.
      split; simpl.
      * done.
      * by apply (Hkeep g' j0 _ Hle Hlook).
      * unfold tileSum. rewrite Hcells, Hp, sum_values_app. simpl.
        unfold tileSum in Hsum. lia.
      * intros Hnil. rewrite Hcells, Hp, map_app. simpl.
        rewrite (Hperm Hnil). by rewrite <- Permutation_cons_append.
      * done.
      * intros r c t'. rewrite Hlook. case_decide as Hd; [|apply Hpos].
        intros [= <-]. destruct Hd as [-> ->]. done.
    + rewrite grid_at_line in Hold.
      destruct (grid_set_spec n _ _ _ _ (Some m) Hsq Hold)
        as (g'' & Hset' & Hsq' & Hlook & Hp).
      fold (line_cell d n l j1) in Hset'. rewrite Hset in Hset'.
      injection Hset' as <-. simpl in Hp.
      split; simpl.
      * done.
      * by apply (Hkeep g' j1 _ ltac:(lia) Hlook).
      * unfold tileSum. rewrite Hcells, sum_values_app. simpl.
        unfold tileSum in Hsum. apply sum_values_perm in Hp.
        simpl in Hp. lia.
      * intros Hnil. by destruct (acc_mergedTiles acc).
      * rewrite sum_values_app. simpl. lia.
      * intros r c t'. rewrite Hlook. case_decide as Hd; [|apply Hpos].
        intros [= <-]. destruct Hd as [-> ->]. done.
  - exists acc, w. split; [by apply processCell_null|].
    split; try done.
    + intros l' k' Hl' Hk' Hb. apply Hem; [done..|]. unfold beyond in *. lia.
    + by rewrite Hcells, app_nil_r.
    + by rewrite Hcells, app_nil_r.
Qed.

(** ** The move engine on a square grid *)

Lemma performMove_conserved g d w :
  square (length g) g →
  ∃ r w', performMove g d w = Some (r, w') ∧
    square (length g) (pm_grid r) ∧ positions_ok (pm_grid r) ∧
    tileSum (pm_grid r) = tileSum g ∧
    (pm_mergedTiles r = [] →
       map value (getAllTiles (pm_grid r)) ≡ₚ map value (getAllTiles g)) ∧
    pm_score r = sum_values (pm_mergedTiles r).
Proof.
  intros Hg. unfold performMove, bind.
  destruct (traversal_rule g d (length g)
              (λ l k acc _, Conserved g d (length g) l k acc))
    with (acc := mkAcc (createEmptyGrid (length g)) ∅ [] false 0) (w := w)
    as (acc & w' & -> & [Hsq _ Hsum Hperm Hsc Hpos]).
  - intros l k acc w1 Hl Hk HI. by apply Conserved_step.
  - intros l acc _ _. apply Conserved_next_line.
  - apply Conserved_init.
  - rewrite processed_all in Hsum, Hperm.
    pose proof (cells_tiles_traversal g d (length g) Hg) as Hall.
    eexists _, _. split; [done|]. cbn [pm_grid pm_score pm_mergedTiles].
    split; [done|]. split; [done|]. split; [by rewrite Hsum, Hall|].
    split; [|done]. intros Hnil. by rewrite (Hperm Hnil), Hall.
Qed.

Lemma squareb_square n g : squareb n g = true → square n g.
Proof.
  unfold squareb. intros [Hl Hrows]%andb_true_iff.
  apply Nat.eqb_eq in Hl. split; [done|]. intros r rw Hrw.
  rewrite forallb_forall in Hrows. apply Nat.eqb_eq, Hrows.
  apply list_elem_of_In. by eapply list_elem_of_lookup_2.
Qed.

(** C1 (as stated) fails: merging [2, 2] into [4] leaves the sum of the
    tile values at 4, it does not raise it by the value of the merged tile. *)
Lemma performMove_sum_not_increased :
  ∃ r w', performMove grid_2_2 Left world0 = Some (r, w') ∧
          pm_mergedTiles r ≠ [] ∧
          tileSum grid_2_2 = 4 ∧ tileSum (pm_grid r) = 4 ∧
          sum_values (pm_mergedTiles r) = 4 ∧
          tileSum (pm_grid r) ≠ tileSum grid_2_2 + sum_values (pm_mergedTiles r).
Proof.
  eexists _, _. split; [vm_compute; reflexivity|].
  repeat split; try (by vm_compute).
Qed.

(** C1 (amended): on every square grid and in every direction
    [performMove] returns, the sum of the tile values of the output grid
    equals the sum of the input grid (a merged tile is worth the two tiles
    it replaces), the score gained is the sum of the values of
    [mergedTiles], and when no merge occurs the multiset of tile values is
    unchanged. *)
Theorem performMove_conserves_values g d w :
  square (length g) g →
  ∃ r w', performMove g d w = Some (r, w') ∧
    tileSum (pm_grid r) = tileSum g ∧
    pm_score r = sum_values (pm_mergedTiles r) ∧
    (pm_mergedTiles r = [] →
       map value (getAllTiles (pm_grid r)) ≡ₚ map value (getAllTiles g)).
Proof.
  intros Hg.
  destruct (performMove_conserved g d w Hg)
    as (r & w' & Hrun & _ & _ & Hsum & Hperm & Hscore).
  by exists r, w'.
Qed.

Lemma performMove_conserves_values_witness :
  ∃ r w', performMove grid_2_2 Left world0 = Some (r, w') ∧
    tileSum (pm_grid r) = tileSum grid_2_2 ∧
    pm_score r = sum_values (pm_mergedTiles r) ∧
    (pm_mergedTiles r = [] →
       map value (getAllTiles (pm_grid r)) ≡ₚ map value (getAllTiles grid_2_2)).
Proof.
  apply (performMove_conserves_values grid_2_2 Left world0).
  apply squareb_square. reflexivity.
Defined.

(** C2: the row [[2, 2, 2, null]] moved Left becomes [[4, 2, null, null]]
    with a score of exactly 4 and a single merged tile: the third 2 slides
    next to the new 4 and does not merge again. *)
Theorem performMove_no_double_merge i0 i1 i2 w :
  ∃ r w', performMove (grid_2_2_2 i0 i1 i2) Left w = Some (r, w') ∧
    grid_values (pm_grid r) =
      [[Some 4; Some 2; None; None];
       [None; None; None; None]; [None; None; None; None];
       [None; None; None; None]] ∧
    pm_score r = 4 ∧ map value (pm_mergedTiles r) = [4] ∧ pm_moved r = true.
Proof. eexists _, _. split; [vm_compute; reflexivity|]. by vm_compute. Qed.

(** ** The largest tile survives a move *)

Lemma elem_of_getAllTiles g t :
  t ∈ getAllTiles g ↔ ∃ r c, cellAt g r c = Some (Some t).
Proof.
  rewrite getAllTiles_rows, list_elem_of_In, in_flat_map. unfold cellAt. split.
  - intros (rw & [r Hr]%list_elem_of_In%list_elem_of_lookup & Hin).
    unfold row_tiles in Hin. apply in_flat_map in Hin as (x & Hx & Hin).
    apply list_elem_of_In, list_elem_of_lookup in Hx as [c Hc].
    destruct x as [t'|]; [|done]. destruct Hin as [->|[]].
    exists r, c. by rewrite Hr.
  - intros (r & c & Hrc). destruct (g !! r) as [rw|] eqn:Hr; [|done].
    exists rw. split; [by eapply list_elem_of_In, list_elem_of_lookup_2|].
    unfold row_tiles. apply in_flat_map. exists (Some t).
    split; [by eapply list_elem_of_In, list_elem_of_lookup_2 | by left].
Qed.

Lemma Kept_step g d n l k acc w :
  square n g → nonneg_values g → (l < n)%nat → (k < n)%nat →
  Kept g d n l k acc →
  ∃ acc' w', processCell g d acc (line_cell d n l k) w = Some (acc', w') ∧
             Kept g d n l (S k) acc'.
Proof.
  intros Hg Hnn Hl Hk [Hcons Hdom].
  destruct (Conserved_step g d n l k acc w Hg Hl Hk Hcons)
    as (acc' & w' & Hrun & Hcons').
  exists acc', w'. split; [done|]. split; [done|].
  destruct (line_rc_lt d n l k Hl Hk) as [Hr Hc].
  destruct (square_cellAt n g _ _ Hg Hr Hc) as [x Hx].
  pose proof Hx as Hxg. rewrite <- grid_at_line in Hx.
  rewrite processed_S, cells_tiles_app. simpl. rewrite Hx, app_nil_r.
  destruct x as [t|].
  2:{ rewrite (processCell_null _ _ _ _ _ Hx) in Hrun.
      injection Hrun as <- <-. simpl. by rewrite app_nil_r. }
  assert (Ht0 : 0 <= value t).
  { apply Hnn, elem_of_getAllTiles. eauto. }
  destruct Hcons as [Hsq Hem _ _ _ _].
  destruct (processCell_tile g d n l k acc t w Hsq Hl Hk Hx)
    as (acc2 & w2 & j0 & Hrun2 & Hle & Hfree & Hcase).
  { apply Hem; [done..|]. right. lia. }
  rewrite Hrun in Hrun2. injection Hrun2 as <- <-.
  destruct Hcase as [(g' & Hset & Hold & -> & _)
                    |(j1 & nt & m & g' & -> & Hold & Hval & Hm & _ & Hset & ->)];
    simpl.
  - rewrite grid_at_line in Hold.
    destruct (grid_set_spec n _ _ _ _
      (Some (with_position t (line_cell d n l j0))) Hsq Hold)
      as (g'' & Hset' & _ & _ & Hp).
    fold (line_cell d n l j0) in Hset'. rewrite Hset in Hset'.
    injection Hset' as <-. simpl in Hp.
    intros u [Hu|Hu%list_elem_of_singleton]%elem_of_app.
    + destruct (Hdom u Hu) as (u' & Hu' & Hle').
      exists u'. split; [|done]. rewrite Hp. by apply list_elem_of_further.
    + subst u. eexists. split; [rewrite Hp; apply list_elem_of_here|done].
  - rewrite grid_at_line in Hold.
    destruct (grid_set_spec n _ _ _ _ (Some m) Hsq Hold)
      as (g'' & Hset' & _ & Hlook & Hp).
    fold (line_cell d n l j1) in Hset'. rewrite Hset in Hset'.
    injection Hset' as <-. simpl in Hp.
    assert (Hmin : m ∈ getAllTiles g').
    { apply elem_of_getAllTiles. eexists _, _. rewrite Hlook.
      by rewrite decide_True. }
    intros u [Hu|Hu%list_elem_of_singleton]%elem_of_app.
    + destruct (Hdom u Hu) as (u' & Hu' & Hle').
      assert (Hin : u' ∈ nt :: getAllTiles g').
      { rewrite Hp. by apply list_elem_of_further. }
      apply elem_of_cons in Hin as [->|Hin].
      * exists m. split; [done|]. lia.
      * by exists u'.
    + subst u. exists m. split; [done|]. lia.
Qed.

(** After a move every tile of a non-negative square grid is matched by
    a tile of at least its value. *)
Lemma performMove_dominates g d w r w' :
  square (length g) g → nonneg_values g →
  performMove g d w = Some (r, w') →
  dominated (getAllTiles g) (getAllTiles (pm_grid r)).
Proof.
  intros Hg Hnn. unfold performMove, bind.
  destruct (traversal_rule g d (length g)
              (λ l k acc _, Kept g d (length g) l k acc))
    with (acc := mkAcc (createEmptyGrid (length g)) ∅ [] false 0) (w := w)
    as (acc & w1 & -> & [_ Hdom]).
  - intros l k acc w1 Hl Hk HI. by apply Kept_step.
  - intros l acc _ _ [Hcons Hdom]. split; [by apply Conserved_next_line|].
    by rewrite processed_next_line.
  - split; [apply Conserved_init|]. intros t Ht. by apply elem_of_nil in Ht.
  - intros [= <- _]. simpl. rewrite processed_all in Hdom.
    intros t Ht. apply Hdom.
    by rewrite (cells_tiles_traversal g d (length g) Hg).
Qed.

Lemma hasWon_true g target :
  hasWon g target = true ↔ ∃ t, t ∈ getAllTiles g ∧ target <= value t.
Proof.
  unfold hasWon. rewrite existsb_exists. split.
  - intros (t & Ht & Hle). exists t.
    split; [by apply list_elem_of_In | by apply Z.leb_le].
  - intros (t & Ht & Hle). exists t.
    split; [by apply list_elem_of_In | by apply Z.leb_le].
Qed.

Lemma performMove_keeps_hasWon g d w r w' target :
  square (length g) g → nonneg_values g →
  performMove g d w = Some (r, w') →
  hasWon g target = true → hasWon (pm_grid r) target = true.
Proof.
  intros Hg Hnn Hrun. rewrite !hasWon_true. intros (t & Ht & Hle).
  destruct (performMove_dominates g d w r w' Hg Hnn Hrun t Ht)
    as (t' & Ht' & Hle').
  exists t'. split; [done|]. lia.
Qed.

(** ** Spawning *)

Lemma spread_id t : spread t = t.
Proof. by destruct t. Qed.

Lemma cloneTile_id t : cloneTile t = t.
Proof.
  destruct t as [i v [r c] mf]. unfold cloneTile, cloneCell. simpl. f_equal.
  destruct mf as [ms|]; [|done]. simpl. f_equal.
  rewrite (map_ext spread id) by apply spread_id. apply map_id.
Qed.

(** A deep copy is equal to the original (it only differs in identity). *)
Lemma cloneGrid_id g : cloneGrid g = g.
Proof.
  unfold cloneGrid. rewrite <- (map_id g) at 2. apply map_ext. intros rw.
  rewrite <- (map_id rw) at 2. apply map_ext. intros [t|]; [|done].
  simpl. by rewrite cloneTile_id.
Qed.

Lemma getEmptyCells_In g c :
  In c (getEmptyCells g) → ∃ r c', c = zcell r c' ∧ cellAt g r c' = Some None.
Proof.
  unfold getEmptyCells. intros (r & _ & Hin)%in_flat_map.
  destruct (g !! r) as [rw|] eqn:Hrw; [|done].
  apply in_flat_map in Hin as (c' & _ & Hin).
  destruct (rw !! c') as [[t|]|] eqn:Hc; try done.
  destruct Hin as [<-|[]]. exists r, c'. split; [done|].
  unfold cellAt. by rewrite Hrw.
Qed.

Lemma index_In {A} (l : list A) i x : index l i = Some x → In x l.
Proof.
  unfold index. destruct (i <? 0); [done|]. intros Hl.
  apply list_elem_of_In. by eapply list_elem_of_lookup_2.
Qed.

(** A successful spawn writes one new tile, carrying its own coordinates,
    into a cell that was empty; the input grid is otherwise unchanged. *)
Lemma spawnRandomTile_Some n g sv w g' w' :
  square n g → spawnRandomTile g sv w = Some (Some g', w') →
  ∃ r c t, cellAt g r c = Some None ∧ position t = zcell r c ∧
    selectSpawnValue_with (Math_random w (S (random_calls w))) sv = Some (value t) ∧
    square n g' ∧
    (∀ r' c', cellAt g' r' c' =
              if decide (r' = r ∧ c' = c) then Some (Some t) else cellAt g r' c') ∧
    getAllTiles g' ≡ₚ t :: getAllTiles g.
Proof.
  intros Hsq. unfold spawnRandomTile. case_bool_decide; [done|].
  run_M.
  destruct (selectSpawnValue_with _ sv) as [v|] eqn:Hv; [|done].
  destruct (index (getEmptyCells g) _) as [cell|] eqn:Hcell; [|done].
  apply index_In, getEmptyCells_In in Hcell as (r & c & -> & Hempty).
  rewrite cloneGrid_id.
  destruct (grid_set g (zcell r c) _) as [g1|] eqn:Hset; [|done].
  intros [= <- <-].
  match type of Hset with
  | grid_set _ _ (Some ?t) = _ =>
      destruct (grid_set_spec n g r c None (Some t) Hsq Hempty)
        as (g'' & Hset' & Hsq' & Hlook & Hp);
      exists r, c, t
  end.
  rewrite Hset in Hset'. injection Hset' as <-.
  split; [done|]. split; [done|]. split; [reflexivity|].
  split; [done|]. split; [done|]. simpl in Hp. exact Hp.
Qed.

(** ** One tile per cell *)

Lemma map_flat_map {A B C} (h : B → C) (f : A → list B) l :
  map h (flat_map f l) = flat_map (λ x, map h (f x)) l.
Proof.
  induction l as [|x l IH]; [done|]. simpl. by rewrite map_app, IH.
Qed.

Lemma NoDup_flat_map {A B} (f : A → list B) l :
  NoDup l → (∀ x, NoDup (f x)) →
  (∀ x y z, x ≠ y → In z (f x) → In z (f y) → False) →
  NoDup (flat_map f l).
Proof.
  intros Hl Hf Hdisj. induction Hl as [|x l Hx Hl IH]; simpl.
  - constructor.
  - apply NoDup_app. split; [apply Hf|]. split; [|done].
    intros z Hz (y & Hy & Hzy)%list_elem_of_In%in_flat_map.
    apply (Hdisj x y z); [|by apply list_elem_of_In|done].
    intros ->. by apply Hx, list_elem_of_In.
Qed.

(** On a grid satisfying the invariant no two tiles claim the same cell. *)
Lemma grid_wf_distinct_positions g :
  grid_wf g → NoDup (map position (getAllTiles g)).
Proof.
  intros [Hsq Hpos]. rewrite (getAllTiles_row_major _ _ Hsq), map_flat_map.
  assert (Hin : ∀ r c z,
    In z (map position (slot_tiles (cellAt g r c))) → z = zcell r c).
  { intros r c z. destruct (cellAt g r c) as [[t|]|] eqn:Hc; simpl; try done.
    intros [<-|[]]. by apply Hpos. }
  apply NoDup_flat_map.
  - apply NoDup_seq.
  - intros r. rewrite map_flat_map. apply NoDup_flat_map.
    + apply NoDup_seq.
    + intros c. destruct (cellAt g r c) as [[t|]|]; simpl;
        try constructor; [apply not_elem_of_nil | constructor].
    + intros c c' z Hne H1%Hin H2%Hin. subst z.
      injection H2 as H2. lia.
  - intros r r' z Hne.
    rewrite !map_flat_map. intros (c & _ & H1%Hin)%in_flat_map
      (c' & _ & H2%Hin)%in_flat_map.
    subst z. injection H2 as H2 _. lia.
Qed.

(** ** The grid invariant *)

Lemma grid_wf_invariant g : grid_wf g → grid_invariant g.
Proof. intros Hwf. split; [done|]. by apply grid_wf_distinct_positions. Qed.

(** C9: the grid invariant (at most one tile per cell, every tile's
    stored position equal to its location in the matrix) is preserved by
    [performMove] in every direction, which always returns on such a
    grid, and holds of every grid returned by [spawnRandomTile]. *)
Theorem grid_invariant_preserved g :
  grid_invariant g →
  (∀ d w, ∃ r w', performMove g d w = Some (r, w') ∧
                  length (pm_grid r) = length g ∧
                  grid_invariant (pm_grid r)) ∧
  (∀ sv w g' w', spawnRandomTile g sv w = Some (Some g', w') →
                 length g' = length g ∧ grid_invariant g').
Proof.
  intros [[Hsq Hpos] _]. split.
  - intros d w.
    destruct (performMove_conserved g d w Hsq)
      as (r & w' & Hrun & Hsq' & Hpos' & _).
    exists r, w'. split; [done|].
    assert (Hlen : length (pm_grid r) = length g) by apply Hsq'.
    split; [done|]. apply grid_wf_invariant.
    split; [by rewrite Hlen | done].
  - intros sv w g' w' Hspawn.
    destruct (spawnRandomTile_Some _ g sv w g' w' Hsq Hspawn)
      as (r & c & t & Hempty & Htpos & _ & Hsq' & Hlook & _).
    assert (Hlen : length g' = length g) by apply Hsq'.
    split; [done|]. apply grid_wf_invariant. split; [by rewrite Hlen|].
    intros r' c' t'. rewrite Hlook. case_decide as Hd; [|apply Hpos].
    intros [= <-]. by destruct Hd as [-> ->].
Qed.

Lemma grid_wfb_sound g : grid_wfb g = true → grid_wf g.
Proof.
  unfold grid_wfb. intros [Hsq Hpos]%andb_true_iff.
  apply squareb_square in Hsq. split; [done|]. intros r c t Hc.
  destruct (cellAt_lt _ _ _ _ _ Hsq Hc) as [Hr Hc'].
  unfold positions_okb in Hpos. rewrite forallb_forall in Hpos.
  specialize (Hpos r). rewrite forallb_forall in Hpos.
  specialize (Hpos ltac:(apply in_seq; lia) c ltac:(apply in_seq; lia)).
  rewrite Hc in Hpos. by apply bool_decide_eq_true in Hpos.
Qed.

Lemma grid_invariant_preserved_witness :
  (∀ d w, ∃ r w', performMove grid_2_2 d w = Some (r, w') ∧
                  length (pm_grid r) = length grid_2_2 ∧
                  grid_invariant (pm_grid r)) ∧
  (∀ sv w g' w', spawnRandomTile grid_2_2 sv w = Some (Some g', w') →
                 length g' = length grid_2_2 ∧ grid_invariant g').
Proof.
  apply (grid_invariant_preserved grid_2_2).
  apply grid_wf_invariant, grid_wfb_sound. reflexivity.
Defined.

(** ** The spawn selector *)

Lemma reaches_test r m : leb64 r m = true ↔ reaches r m.
Proof.
  destruct m as [m|[|]]; simpl; [apply Qle_bool_iff|split; done..].
Qed.

Lemma selectSpawnValue_loop_Some r c l v :
  selectSpawnValue_loop r c l = Some v →
  ∃ i e, l !! i = Some e ∧ v = sv_value e ∧ reaches r (massFrom c l i) ∧
         ∀ j, (j < i)%nat → ¬ reaches r (massFrom c l j).
Proof.
  revert c. induction l as [|e l IH]; intros c; [done|]. simpl.
  destruct (leb64 r (plus64 c (probability e))) eqn:Hle.
  - intros [= <-]. exists 0%nat, e. unfold massFrom. simpl.
    rewrite ?take_0. simpl. split; [done|]. split; [done|].
    split; [by apply reaches_test|]. intros j Hj. lia.
  - intros (i & e' & Hi & -> & Hreach & Hmin)%IH.
    exists (S i), e'. repeat split; [done..|].
    intros [|j] Hj.
    + rewrite <- reaches_test. unfold massFrom. simpl. rewrite ?take_0. simpl.
      by rewrite Hle.
    + apply (Hmin j). lia.
Qed.

Lemma selectSpawnValue_loop_None r c l :
  selectSpawnValue_loop r c l = None →
  ∀ i, (i < length l)%nat → ¬ reaches r (massFrom c l i).
Proof.
  revert c. induction l as [|e l IH]; intros c; simpl; [intros; lia|].
  destruct (leb64 r (plus64 c (probability e))) eqn:Hle; [done|].
  intros Hnone [|i] Hi.
  - rewrite <- reaches_test. unfold massFrom. simpl. rewrite ?take_0. simpl.
    by rewrite Hle.
  - apply (IH _ Hnone i). lia.
Qed.

(** C10: on a non-empty table, [selectSpawnValue] returns (advancing the
    random source by one draw [r]) the value of the first entry whose
    cumulative mass is at least [r]; when no cumulative mass reaches [r]
    it returns the value of the first entry; in both cases the result is
    the value of an entry of the table.  The cumulative mass of an entry
    is the sum the loop has accumulated when it reaches the entry, in
    double arithmetic. *)
Theorem selectSpawnValue_first_reaching sv w :
  sv ≠ [] →
  let r := Math_random w (random_calls w) in
  ∃ v w', selectSpawnValue sv w = Some (v, w') ∧
    random_calls w' = S (random_calls w) ∧
    ((∃ i e, sv !! i = Some e ∧ v = sv_value e ∧
             reaches r (cumulativeMass sv i) ∧
             ∀ j, (j < i)%nat → ¬ reaches r (cumulativeMass sv j))
     ∨
     ((∀ i, (i < length sv)%nat → ¬ reaches r (cumulativeMass sv i)) ∧
      ∃ first, sv !! 0%nat = Some first ∧ v = sv_value first)) ∧
    ∃ e, e ∈ sv ∧ v = sv_value e.
Proof.
  intros Hne r. unfold selectSpawnValue, selectSpawnValue_with. run_M.
  fold r. destruct (selectSpawnValue_loop r (finite 0) sv) as [v|] eqn:Hloop.
  - eexists v, _. split; [done|]. split; [done|].
    destruct (selectSpawnValue_loop_Some _ _ _ _ Hloop)
      as (i & e & Hi & -> & Hreach & Hmin).
    split; [left; by exists i, e|].
    exists e. split; [|done]. by eapply list_elem_of_lookup_2.
  - destruct sv as [|first sv]; [done|]. simpl.
    eexists (sv_value first), _. split; [done|]. split; [done|].
    split.
    + right. split; [|by exists first].
      apply (selectSpawnValue_loop_None _ _ _ Hloop).
    + exists first. split; [|done]. apply list_elem_of_here.
Qed.

Lemma selectSpawnValue_first_reaching_witness :
  let sv := [mkSpawn 2 (decimal (9 # 10)); mkSpawn 4 (decimal (1 # 10))] in
  let r := Math_random world0 (random_calls world0) in
  ∃ v w', selectSpawnValue sv world0 = Some (v, w') ∧
    random_calls w' = S (random_calls world0) ∧
    ((∃ i e, sv !! i = Some e ∧ v = sv_value e ∧
             reaches r (cumulativeMass sv i) ∧
             ∀ j, (j < i)%nat → ¬ reaches r (cumulativeMass sv j))
     ∨
     ((∀ i, (i < length sv)%nat → ¬ reaches r (cumulativeMass sv i)) ∧
      ∃ first, sv !! 0%nat = Some first ∧ v = sv_value first)) ∧
    ∃ e, e ∈ sv ∧ v = sv_value e.
Proof.
  apply (selectSpawnValue_first_reaching
           [mkSpawn 2 (decimal (9 # 10)); mkSpawn 4 (decimal (1 # 10))] world0).
  discriminate.
Defined.

(** ** Configuration validation *)

(** All three violations of the example are reported, in order. *)
Lemma validateGameConfig_reports_all :
  validateGameConfig config_2_100_empty =
  ["Grid size must be between 3 and 6"%string;
   "Target value should be a power of 2"%string;
   "At least one spawn value must be configured"%string].
Proof. reflexivity. Qed.

Lemma validateGameConfig_default : validateGameConfig DEFAULT_GAME_CONFIG = [].
Proof. reflexivity. Qed.

Lemma not_power_of_two_4294967300 : ¬ is_power_of_two 4294967300.
Proof.
  intros [k Hk]. destruct (decide (k ≤ 32)%nat) as [Hle|Hgt].
  - assert (2 ^ Z.of_nat k <= 2 ^ 32) by (apply Z.pow_le_mono_r; lia). lia.
  - assert (2 ^ 33 <= 2 ^ Z.of_nat k) by (apply Z.pow_le_mono_r; lia). lia.
Qed.

(** C8 (failing input): the power-of-two test is made on the 32-bit
    truncation of the target, so the target [2^32 + 4], which is not a
    power of two, is reported as valid. *)
Theorem validateGameConfig_accepts_4294967300 :
  validateGameConfig config_target_4294967300 = [] ∧
  ¬ config_ok config_target_4294967300 ∧
  bitand 4294967300 4294967299 = 0.
Proof.
  split; [reflexivity|]. split; [|reflexivity].
  intros (_ & _ & _ & Hpow & _). by apply not_power_of_two_4294967300.
Qed.

Lemma land_pred_power_of_two v :
  0 < v → Z.land v (v - 1) = 0 ↔ is_power_of_two v.
Proof.
  intros Hv. split.
  - intros Hland. pose proof (Z.log2_spec v Hv) as [Hlo Hhi].
    pose proof (Z.log2_nonneg v) as Hk.
    destruct (decide (v = 2 ^ Z.log2 v)) as [Heq|Hne].
    { exists (Z.to_nat (Z.log2 v)). by rewrite Z2Nat.id. }
    exfalso.
    assert (Hlog : Z.log2 (v - 1) = Z.log2 v).
    { apply Z.log2_unique; [done|]. lia. }
    assert (Hb1 : Z.testbit v (Z.log2 v) = true) by by apply Z.bit_log2.
    assert (Hb2 : Z.testbit (v - 1) (Z.log2 v) = true).
    { rewrite <- Hlog. apply Z.bit_log2.
      assert (0 < 2 ^ Z.log2 v) by (apply Z.pow_pos_nonneg; lia). lia. }
    assert (Hb : Z.testbit (Z.land v (v - 1)) (Z.log2 v) = true)
      by by rewrite Z.land_spec, Hb1, Hb2.
    rewrite Hland, Z.bits_0 in Hb. done.
  - intros [k ->]. replace (2 ^ Z.of_nat k - 1) with (Z.ones (Z.of_nat k))
      by (rewrite Z.ones_equiv; lia).
    rewrite Z.land_ones by lia. apply Z.mod_same.
    assert (0 < 2 ^ Z.of_nat k) by (apply Z.pow_pos_nonneg; lia). lia.
Qed.

Lemma ToInt32_small v : 0 <= v < 2 ^ 31 → ToInt32 v = v.
Proof.
  intros Hv. unfold ToInt32. rewrite Z.mod_small by lia.
  destruct (Z.leb_spec (2 ^ 31) v); [lia|done].
Qed.

Lemma spawnEntryErrors_nil sv :
  spawnEntryErrors sv = [] ↔
  0 < sv_value sv ∧ (0 <= probability sv)%Q ∧ (probability sv <= 1)%Q.
Proof.
  unfold spawnEntryErrors. rewrite Number_isInteger_inject_Z. simpl.
  rewrite orb_false_r.
  destruct (Z.leb_spec (sv_value sv) 0);
    destruct (Qgtb 0 (probability sv)) eqn:H0;
    destruct (Qgtb (probability sv) 1) eqn:H1; simpl;
    rewrite <- ?not_true_iff_false in *; unfold Qgtb in *;
    rewrite ?negb_true_iff, ?negb_false_iff, ?not_true_iff_false,
      ?not_false_iff_true in *;
    rewrite <- ?Qle_bool_iff; split; try done; try lia;
    intros (? & ? & ?); try lia; congruence.
Qed.

Lemma flat_map_nil_iff {A B} (f : A → list B) l :
  flat_map f l = [] ↔ Forall (λ x, f x = []) l.
Proof.
  induction l as [|x l IH]; simpl; [by split|].
  rewrite Forall_cons, <- IH. apply app_nil.
Qed.

Lemma sums_to_one_test sum :
  gtb64 (abs64 (minus64 sum 1)) (decimal (1 # 1000)) = false ↔ sums_to_one sum.
Proof.
  unfold sums_to_one. destruct (abs64 (minus64 sum 1)) as [d|[|]] eqn:Habs; simpl.
  - rewrite negb_false_iff. apply Qle_bool_iff.
  - by destruct (minus64 sum 1).
  - split; done.
Qed.

Lemma gridSize_errors_nil c :
  (if Qltb (gridSize c) 3 || Qgtb (gridSize c) 6
   then ["Grid size must be between 3 and 6"%string] else []) = []
  ↔ (3 <= gridSize c)%Q ∧ (gridSize c <= 6)%Q.
Proof.
  rewrite <- Qltb_false, <- Qgtb_false.
  destruct (Qltb (gridSize c) 3), (Qgtb (gridSize c) 6); simpl; naive_solver.
Qed.

Lemma targetValue_errors_nil c :
  (if (targetValue c <=? 0) || negb (Number_isInteger (inject_Z (targetValue c)))
   then ["Target value must be a positive integer"%string] else []) = []
  ↔ 0 < targetValue c.
Proof.
  rewrite Number_isInteger_inject_Z. simpl. rewrite orb_false_r.
  destruct (Z.leb_spec (targetValue c) 0); split; try done; lia.
Qed.

Lemma spawnValues_errors_nil c :
  (if bool_decide (length (spawnValues c) = 0%nat)
   then ["At least one spawn value must be configured"%string]
   else
     (if gtb64 (abs64 (minus64 (fold_left (λ sum sv, plus64 sum (probability sv))
                                  (spawnValues c) (finite 0)) 1))
               (decimal (1 # 1000))
      then ["Spawn value probabilities must sum to 1.0"%string] else [])
     ++ flat_map spawnEntryErrors (spawnValues c)) = []
  ↔ spawnValues c ≠ [] ∧
    sums_to_one (totalProbability (spawnValues c)) ∧
    Forall (λ sv, 0 < sv_value sv ∧ (0 <= probability sv)%Q ∧
                  (probability sv <= 1)%Q) (spawnValues c).
Proof.
  fold (totalProbability (spawnValues c)). case_bool_decide as Hlen.
  - split; [done|]. intros [Hne _]. by destruct (spawnValues c).
  - assert (Hne : spawnValues c ≠ []) by (by destruct (spawnValues c)).
    rewrite app_nil, flat_map_nil_iff, <- sums_to_one_test.
    rewrite (Forall_iff _ _ _ spawnEntryErrors_nil).
    destruct (gtb64 _ (decimal (1 # 1000))); naive_solver.
Qed.

(** On targets below [2^31] the validator is exact: it returns the empty
    list precisely for the configurations that meet every constraint. *)
Lemma validateGameConfig_nil_iff c :
  targetValue c < 2 ^ 31 →
  validateGameConfig c = [] ↔ config_ok c.
Proof.
  intros Hsmall. unfold validateGameConfig, config_ok.
  rewrite !app_nil.
  rewrite gridSize_errors_nil, targetValue_errors_nil, spawnValues_errors_nil.
  assert (HC : 0 < targetValue c →
    (if negb (bitand (targetValue c) (targetPredecessor (targetValue c)) =? 0)
     then ["Target value should be a power of 2"%string] else []) = []
    ↔ is_power_of_two (targetValue c)).
  { intros Ht. rewrite targetPredecessor_exact by lia.
    unfold bitand. rewrite !ToInt32_small by lia.
    rewrite <- (land_pred_power_of_two _ Ht).
    destruct (Z.eqb_spec (Z.land (targetValue c) (targetValue c - 1)) 0);
      simpl; split; done. }
  split.
  - intros (? & Ht & Hp & ?). apply (HC Ht) in Hp. tauto.
  - intros (? & ? & Ht & Hp & ?). apply (HC Ht) in Hp. tauto.
Qed.

(** ** Moves that change nothing *)

Lemma line_cell_in_traversal d n l k :
  (l < n)%nat → (k < n)%nat → In (line_cell d n l k) (getTraversalOrder d n).
Proof.
  intros Hl Hk. rewrite traversal_lines. apply in_flat_map.
  exists l. split; [apply in_seq; lia|]. apply in_map. apply in_seq. lia.
Qed.

Lemma with_position_own t : with_position t (position t) = t.
Proof. by destruct t. Qed.

Lemma differs_same c : differs c c = false.
Proof. unfold differs. by rewrite !Z.eqb_refl. Qed.

Lemma Unmoved_step g d n w0 l k acc w :
  square n g → length g = n → positions_ok g → anyTileCanMove g d = false →
  (l < n)%nat → (k < n)%nat → Unmoved g d n w0 l k acc w →
  ∃ acc' w', processCell g d acc (line_cell d n l k) w = Some (acc', w') ∧
             Unmoved g d n w0 l (S k) acc' w'.
Proof.
  intros Hg Hlen Hpos Hstill Hl Hk [Hsq Hcopy Hmc Hmt Hmv Hsc Hw].
  destruct (line_rc_lt d n l k Hl Hk) as [Hr Hc].
  destruct (square_cellAt n g _ _ Hg Hr Hc) as [x Hx].
  rewrite <- grid_at_line in Hx.
  assert (Hown : grid_at (acc_grid acc) (line_cell d n l k) = Some None).
  { rewrite Hcopy by done. rewrite decide_True; [done|]. right. lia. }
  destruct x as [t|].
  2:{ exists acc, w. split; [by apply processCell_null|].
      split; try done. intros l' k' Hl' Hk'. rewrite Hcopy by done.
      destruct (decide (l' = l ∧ k' = k)) as [[-> ->]|Hne].
      - rewrite decide_True by (right; lia).
        rewrite decide_False by (unfold beyond; lia). done.
      - destruct (decide (beyond l k l' k')) as [Hb|Hb].
        + rewrite decide_True; [done|]. unfold beyond in *. lia.
        + rewrite decide_False; [done|]. unfold beyond in *. lia. }
  assert (Htpos : position t = line_cell d n l k).
  { rewrite grid_at_line in Hx. apply (Hpos _ _ _ Hx). }
  assert (Hcant : tileCanMove g d (line_cell d n l k) = false).
  { unfold anyTileCanMove in Hstill. rewrite Hlen in Hstill.
    destruct (tileCanMove g d (line_cell d n l k)) eqn:Hcan; [|done].
    assert (existsb (tileCanMove g d) (getTraversalOrder d n) = true); [|congruence].
    apply existsb_exists. exists (line_cell d n l k).
    split; [by apply line_cell_in_traversal | done]. }
  destruct (processCell_tile g d n l k acc t w Hsq Hl Hk Hx Hown)
    as (acc' & w' & j0 & Hrun & Hle & Hfree & Hcase).
  (* the cell right in front of the tile, if any, holds a different value *)
  assert (Hfront : ∀ k', k = S k' →
    ∃ t', grid_at (acc_grid acc) (line_cell d n l k') = Some (Some t') ∧
          value t' ≠ value t).
  { intros k' ->. unfold tileCanMove in Hcant. rewrite Hx in Hcant.
    rewrite line_next_S in Hcant by done.
    rewrite Hlen, line_within in Hcant by lia. simpl in Hcant.
    rewrite Hcopy by lia. rewrite decide_False by (unfold beyond; lia).
    destruct (line_rc_lt d n l k') as [Hr' Hc']; [lia..|].
    destruct (square_cellAt n g _ _ Hg Hr' Hc') as [y Hy].
    rewrite <- grid_at_line in Hy. rewrite Hy in Hcant |- *.
    destruct y as [t'|]; [|done]. exists t'. split; [done|].
    by apply bool_decide_eq_false in Hcant. }
  assert (Hj0 : j0 = k).
  { destruct (decide (j0 = k)) as [|Hne]; [done|]. exfalso.
    destruct k as [|k']; [lia|].
    destruct (Hfront k' eq_refl) as (t' & Ht' & _).
    destruct (Hfree k') as [Hf _]; [lia|]. congruence. }
  subst j0. exists acc', w'. split; [done|].
  destruct Hcase as [(g' & Hset & Hold & -> & ->)
                    |(j1 & nt & m & g' & -> & Hold & Hval & _)].
  2:{ exfalso. destruct (Hfront j1 eq_refl) as (t' & Ht' & Hne). congruence. }
  rewrite <- Htpos, with_position_own in Hset. rewrite Htpos in Hset.
  rewrite grid_at_line in Hold.
  destruct (grid_set_spec n _ _ _ _ (Some t) Hsq Hold)
    as (g'' & Hset' & Hsq' & Hlook & _).
  fold (line_cell d n l k) in Hset'. rewrite Hset in Hset'.
  injection Hset' as <-.
  split; simpl; try done.
  - intros l' k' Hl' Hk'. rewrite grid_at_line, Hlook.
    destruct (decide (l' = l ∧ k' = k)) as [[-> ->]|Hne].
    + rewrite decide_True by done.
      rewrite decide_False by (unfold beyond; lia). done.
    + rewrite decide_False.
      2:{ intros [H1 H2]. apply Hne.
          apply (line_rc_inj d n); [lia..|]. by apply injective_projections. }
      rewrite <- grid_at_line, Hcopy by done.
      destruct (decide (beyond l k l' k')) as [Hb|Hb].
      * rewrite decide_True; [done|]. unfold beyond in *. lia.
      * rewrite decide_False; [done|]. unfold beyond in *. lia.
  - by rewrite Hmv, <- Htpos, differs_same.
Qed.

(** When no tile can slide or merge, [performMove] reports [moved = false]
    with no score and no merged tile, and draws no identifier. *)
Lemma performMove_unmoved g d w :
  grid_wf g → anyTileCanMove g d = false →
  ∃ r, performMove g d w = Some (r, w) ∧
       pm_moved r = false ∧ pm_score r = 0 ∧ pm_mergedTiles r = [].
Proof.
  intros [Hg Hpos] Hstill. unfold performMove, bind.
  destruct (traversal_rule g d (length g) (Unmoved g d (length g) w))
    with (acc := mkAcc (createEmptyGrid (length g)) ∅ [] false 0) (w := w)
    as (acc & w' & -> & [_ _ _ Hmt Hmv Hsc ->]).
  - intros l k acc w1 Hl Hk HI. by apply Unmoved_step.
  - intros l acc w1 Hl [Hsq Hcopy Hmc Hmt Hmv Hsc Hw]. split; try done.
    intros l' k' Hl' Hk'. rewrite Hcopy by done.
    destruct (decide (beyond l (length g) l' k')) as [Hb|Hb].
    + rewrite decide_True; [done|]. unfold beyond in *. lia.
    + rewrite decide_False; [done|]. unfold beyond in *. lia.
  - split; simpl; try done.
    + apply square_createEmptyGrid.
    + intros l' k' Hl' Hk'. rewrite grid_at_line, cellAt_createEmptyGrid.
      destruct (line_rc_lt d (length g) l' k' Hl' Hk').
      rewrite decide_True by done. rewrite decide_True; [done|].
      unfold beyond. lia.
  - eexists. split; [done|]. simpl. by rewrite Hmt, Hmv, Hsc.
Qed.

(** ** The random source *)

Lemma processCell_random g d acc c w acc' w' :
  processCell g d acc c w = Some (acc', w') → same_random w w'.
Proof.
  unfold processCell. destruct (grid_at g c) as [[t|]|]; [|by intros [= _ <-]|done].
  unfold bind at 1. unfold lift at 1.
  destruct (findFarthestPosition _ _ _ _) as [[f nx]|]; [|done].
  cbn [fst snd].
  destruct (mergeCandidate _ _ _ _) as [[c' nt]|]; run_M.
  - destruct (grid_set _ _ _); [|done]. by intros [= _ <-].
  - destruct (grid_set _ _ _); [|done]. by intros [= _ <-].
Qed.

Lemma foldM_random g d cs acc w acc' w' :
  foldM (processCell g d) cs acc w = Some (acc', w') → same_random w w'.
Proof.
  revert acc w. induction cs as [|c cs IH]; intros acc w; simpl.
  - by intros [= _ <-].
  - unfold bind.
    destruct (processCell g d acc c w) as [[acc1 w1]|] eqn:Hstep; [|done].
    intros Hrest. destruct (processCell_random _ _ _ _ _ _ _ Hstep) as [H1 H2].
    destruct (IH _ _ Hrest) as [H3 H4]. split; congruence.
Qed.

Lemma performMove_random g d w r w' :
  performMove g d w = Some (r, w') → same_random w w'.
Proof.
  unfold performMove, bind.
  destruct (foldM _ _ _ w) as [[acc w1]|] eqn:Hfold; [|done].
  intros [= _ <-]. by eapply foldM_random.
Qed.

(** The index drawn by [spawnRandomTile] is one of the array. *)
Lemma Qfloor_scaled_range (r : double) (len : nat) :
  (0 <= r)%Q → (r < 1)%Q → (0 < len)%nat →
  0 <= Qfloor (times64 r (inject_Z (Z.of_nat len))) < Z.of_nat len.
Proof.
  intros H0 H1 Hlen. apply floor_scaled_range; try done.
  apply Qeq_bool_iff, double_exact.
Qed.

Lemma index_in_range {A} (l : list A) i :
  0 <= i < Z.of_nat (length l) → is_Some (index l i).
Proof.
  intros Hi. unfold index. destruct (Z.ltb_spec i 0); [lia|].
  apply lookup_lt_is_Some_2. lia.
Qed.

Lemma selectSpawnValue_with_total r sv :
  sv ≠ [] → is_Some (selectSpawnValue_with r sv).
Proof.
  intros Hne. unfold selectSpawnValue_with.
  destruct (selectSpawnValue_loop r (finite 0) sv); [done|].
  by destruct sv.
Qed.

(** With a non-empty table and draws in range, spawning never raises. *)
Lemma spawnRandomTile_total n g sv w :
  square n g → sv ≠ [] → random_in_range w →
  ∃ o w', spawnRandomTile g sv w = Some (o, w').
Proof.
  intros Hsq Hne Hrand. unfold spawnRandomTile.
  case_bool_decide as Hlen; [by eexists _, _|]. run_M.
  destruct (selectSpawnValue_with_total
              (Math_random w (S (random_calls w))) sv Hne) as [v ->].
  destruct (Hrand (random_calls w)) as [H0 H1].
  destruct (index_in_range (getEmptyCells g)
    (Qfloor (times64 (Math_random w (random_calls w))
               (inject_Z (Z.of_nat (length (getEmptyCells g)))))))
    as [cell Hcell].
  { apply Qfloor_scaled_range; [done..|lia]. }
  rewrite Hcell.
  apply index_In, getEmptyCells_In in Hcell as (r & c & -> & Hempty).
  rewrite cloneGrid_id.
  match goal with
  | |- context [grid_set g (zcell r c) ?v] =>
      destruct (grid_set_spec n g r c None v Hsq Hempty) as (g' & -> & _)
  end.
  by eexists _, _.
Qed.

(** ** Rejected moves *)

(** C6: when no tile can slide or merge in the chosen direction, [move]
    returns the input state itself with [moved = false], score 0 and no
    merged tile; the history is unchanged, no tile is spawned and neither
    a random number nor an identifier is drawn. *)
Theorem move_rejected_is_identity s d w :
  grid_invariant (grid s) → anyTileCanMove (grid s) d = false →
  ∃ r, move s d w = Some (r, w) ∧
       newState r = s ∧ moved r = false ∧ mr_score r = 0 ∧ mergedTiles r = [] ∧
       previousStates (newState r) = previousStates s ∧
       grid (newState r) = grid s.
Proof.
  intros [Hinv _] Hstill. unfold move.
  case_bool_decide as Hlost; [by exists (rejected s)|].
  destruct (performMove_unmoved (grid s) d w Hinv Hstill)
    as (pm & Hpm & Hmoved & _).
  unfold bind. rewrite Hpm, Hmoved. simpl. by exists (rejected s).
Qed.

Lemma move_rejected_is_identity_witness :
  ∃ r, move state_2_4 Left world0 = Some (r, world0) ∧
       newState r = state_2_4 ∧ moved r = false ∧ mr_score r = 0 ∧
       mergedTiles r = [] ∧
       previousStates (newState r) = previousStates state_2_4 ∧
       grid (newState r) = grid state_2_4.
Proof.
  apply (move_rejected_is_identity state_2_4 Left world0).
  - apply grid_wf_invariant, grid_wfb_sound. reflexivity.
  - reflexivity.
Defined.

(** ** Status transitions *)

(** A full board without equal neighbours is lost. *)
Lemma determineGameStatus_full_2x2 :
  hasMovesAvailable grid_full_2x2 = Some false ∧
  determineGameStatus grid_full_2x2 2048 Playing = Some Lost.
Proof. split; reflexivity. Qed.

Lemma move_keeps_Won s d w r w' :
  status s = Won → move s d w = Some (r, w') → status (newState r) = Won.
Proof.
  intros Hwon. unfold move. rewrite Hwon. simpl. unfold bind.
  destruct (performMove (grid s) d w) as [[pm w1]|]; [|done].
  destruct (pm_moved pm); simpl; [|by intros [= <- _]].
  destruct (spawnRandomTile (pm_grid pm) _ w1) as [[[g'|] w2]|];
    [|by intros [= <- _]|done].
  unfold determineGameStatus_call4, determineGameStatus, lift. simpl.
  by intros [= <- _].
Qed.

(** C7: once the status is Won, every later state returned by [move]
    still has status Won, because [determineGameStatus] answers Won for
    the current status Won whatever the grid; and on a well-formed state
    [move] does return. *)
Theorem won_is_sticky s :
  status s = Won →
  (∀ s', after_moves s s' → status s' = Won) ∧
  (∀ g target, determineGameStatus g target (status s) = Some Won) ∧
  (∀ d w, state_ok s → random_in_range w →
          ∃ r w', move s d w = Some (r, w') ∧ status (newState r) = Won).
Proof.
  intros Hwon. split; [|split; [by rewrite Hwon|]].
  - intros s' Hafter. induction Hafter as [|s' d w r w' _ IH Hmove]; [done|].
    by eapply move_keeps_Won.
  - intros d w [Hsq Hne] Hrand.
    assert (Hrun : ∃ r w', move s d w = Some (r, w')).
    { unfold move. rewrite Hwon. simpl. unfold bind.
      destruct (performMove_conserved (grid s) d w Hsq)
        as (pm & w1 & Hpm & Hsq1 & _).
      rewrite Hpm. destruct (pm_moved pm); simpl; [|by eexists _, _].
      destruct (spawnRandomTile_total _ (pm_grid pm) (spawnValues (config s)) w1
                  Hsq1 Hne) as (o & w2 & ->).
      { intros k. destruct (performMove_random _ _ _ _ _ Hpm) as [-> _].
        apply Hrand. }
      destruct o as [g'|]; [|by eexists _, _].
      unfold determineGameStatus_call4, determineGameStatus, lift. simpl.
      by eexists _, _. }
    destruct Hrun as (r & w' & Hmove). exists r, w'. split; [done|].
    by eapply move_keeps_Won.
Qed.

Lemma random_in_range_world0 : random_in_range world0.
Proof. intros k. by split. Qed.

Lemma won_is_sticky_witness :
  (∀ s', after_moves state_won s' → status s' = Won) ∧
  (∀ g target, determineGameStatus g target (status state_won) = Some Won) ∧
  (∀ d w, state_ok state_won → random_in_range w →
          ∃ r w', move state_won d w = Some (r, w') ∧ status (newState r) = Won).
Proof. apply (won_is_sticky state_won). reflexivity. Defined.

Lemma move_ignores_wonAndContinued s f d w :
  turn_summary (move (with_flag s f) d w) = turn_summary (move s d w).
Proof.
  unfold move, with_flag. simpl. case_bool_decide; [done|]. unfold bind.
  destruct (performMove (grid s) d w) as [[pm w1]|]; [|done].
  destruct (pm_moved pm); simpl; [|done].
  destruct (spawnRandomTile (pm_grid pm) _ w1) as [[[g'|] w2]|]; [|done..].
  unfold determineGameStatus_call4, lift.
  by destruct (determineGameStatus g' _ _).
Qed.

(** In Playing status, with the target still on the board, every
    accepted move sets the status to Won, whatever [wonAndContinued]. *)
Lemma playing_with_target_tile_rewins s d w r w' :
  square (length (grid s)) (grid s) → nonneg_values (grid s) →
  status s = Playing →
  hasWon (grid s) (targetValue (config s)) = true →
  move s d w = Some (r, w') → moved r = true →
  status (newState r) = Won.
Proof.
  intros Hsq Hnn Hst Hwon. unfold move. rewrite Hst. simpl. unfold bind.
  destruct (performMove (grid s) d w) as [[pm w1]|] eqn:Hpm; [|done].
  destruct (pm_moved pm); simpl; [|by intros [= <- _]].
  destruct (spawnRandomTile (pm_grid pm) _ w1) as [[[g'|] w2]|] eqn:Hspawn;
    [|by intros [= <- _]|done].
  assert (Hwon' : hasWon g' (targetValue (config s)) = true).
  { pose proof (performMove_keeps_hasWon _ _ _ _ _ _ Hsq Hnn Hpm Hwon) as Hw.
    destruct (performMove_conserved (grid s) d w Hsq)
      as (pm' & w1' & Hpm' & Hsq1 & _).
    rewrite Hpm in Hpm'. injection Hpm' as <- <-.
    destruct (spawnRandomTile_Some _ _ _ _ _ _ Hsq1 Hspawn)
      as (_ & _ & t & _ & _ & _ & _ & _ & Hp).
    apply hasWon_true in Hw as (u & Hu & Hle). apply hasWon_true.
    exists u. split; [|done]. rewrite Hp. by apply list_elem_of_further. }
  unfold determineGameStatus_call4, determineGameStatus, lift. simpl.
  rewrite Hwon'. by intros [= <- _].
Qed.

(** C3 (failing input): after [continueAfterWin] the state is Playing
    with [wonAndContinued = true] and still holds the 2048 tile; the next
    successful move evaluates the status from Playing, finds the tile and
    sets the status to Won again. *)
Theorem continued_game_is_won_again :
  let s := continueAfterWin state_won in
  status s = Playing ∧ wonAndContinued s = Some true ∧
  hasWon (grid s) (targetValue (config s)) = true ∧
  ∃ r w', move s Left world0 = Some (r, w') ∧
          moved r = true ∧ status (newState r) = Won ∧
          wonAndContinued (newState r) = Some true.
Proof.
  repeat split. eexists _, _. split; [vm_compute; reflexivity|]. done.
Qed.

(** ** Undo history *)

Lemma move_accepted s d w r w' :
  move s d w = Some (r, w') → moved r = true →
  ∃ g' st,
    newState r =
      mkState g' (score s + mr_score r) st
        (slice0 (cloneGameState s false :: previousStates s) (undoLimit (config s)))
        (config s) (moveCount s + 1) (wonAndContinued s).
Proof.
  unfold move. case_bool_decide; [by intros [= <- _]|]. unfold bind.
  destruct (performMove (grid s) d w) as [[pm w1]|]; [|done].
  destruct (pm_moved pm); simpl; [|by intros [= <- _]].
  destruct (spawnRandomTile (pm_grid pm) _ w1) as [[[g'|] w2]|];
    [|by intros [= <- _]|done].
  unfold lift. destruct (determineGameStatus_call4 _ _ _ _) as [st|]; [|done].
  intros [= <- _] _. by eexists _, _.
Qed.

Lemma slice0_all {A} (l : list A) e :
  Z.of_nat (length l) <= e → slice0 l e = l.
Proof.
  intros He. unfold slice0. destruct (Z.ltb_spec e 0); [lia|].
  apply take_ge. lia.
Qed.

Lemma slice0_length {A} (l : list A) e :
  0 <= e → Z.of_nat (length (slice0 l e)) <= e.
Proof.
  intros He. unfold slice0. destruct (Z.ltb_spec e 0); [lia|].
  rewrite length_take. lia.
Qed.

Lemma cloneGameState_flat_fields s :
  grid (cloneGameState s false) = grid s ∧
  score (cloneGameState s false) = score s ∧
  moveCount (cloneGameState s false) = moveCount s.
Proof. unfold cloneGameState. simpl. by rewrite cloneGrid_id. Qed.

Lemma slice0_app_short {A} (l rest : list A) e :
  Z.of_nat (length l) <= e → ∃ rest', slice0 (l ++ rest) e = l ++ rest'.
Proof.
  intros He. unfold slice0. destruct (Z.ltb_spec e 0); [lia|].
  exists (take (Z.to_nat e - length l) rest). apply take_app_ge. lia.
Qed.

(** While the number of moves stays within the limit, the history begins
    with the copies of the states gone through. *)
Lemma played_history s0 past s :
  played s0 past s →
  Z.of_nat (length past) <= undoLimit (config s0) →
  config s = config s0 ∧
  ∃ rest, previousStates s = map (λ t, cloneGameState t false) past ++ rest.
Proof.
  intros Hplayed. induction Hplayed as [|past s d w r w' _ IH Hmove Hmoved].
  - intros _. split; [done|]. by exists (previousStates s0).
  - intros Hlen. simpl in Hlen. destruct IH as [Hcfg [rest Hprev]]; [lia|].
    destruct (move_accepted _ _ _ _ _ Hmove Hmoved) as (g' & st & ->). simpl.
    split; [done|]. rewrite Hprev, Hcfg.
    apply (slice0_app_short
             (cloneGameState s false :: map (λ t, cloneGameState t false) past)).
    simpl. rewrite length_map. lia.
Qed.

Lemma undo_cons s p ps :
  previousStates s = p :: ps →
  undo s = mkState (grid p) (score p) (status p) ps (config p) (moveCount p)
             (wonAndContinued p).
Proof. unfold undo. by intros ->. Qed.

Lemma undo_n_history past rest : ∀ k s t,
  previousStates s = map (λ t, cloneGameState t false) past ++ rest →
  (s :: past) !! k = Some t →
  grid (undo_n k s) = grid t ∧ score (undo_n k s) = score t ∧
  moveCount (undo_n k s) = moveCount t ∧
  previousStates (undo_n k s)
    = map (λ t, cloneGameState t false) (drop k past) ++ rest.
Proof.
  induction k as [|k IH]; intros s t Hprev Hk.
  - simpl in Hk. injection Hk as <-. by rewrite drop_0.
  - simpl in Hk.
    assert (Hlt : (k < length (s :: past))%nat).
    { apply lookup_lt_Some in Hk. simpl. lia. }
    destruct (lookup_lt_is_Some_2 (s :: past) k Hlt) as [u Hu].
    destruct (IH s u Hprev Hu) as (_ & _ & _ & Hhist).
    unfold undo_n in *. simpl.
    rewrite (drop_S _ _ _ Hk) in Hhist. simpl in Hhist.
    rewrite (undo_cons _ _ _ Hhist). simpl. by rewrite cloneGrid_id.
Qed.

Lemma played_first s0 past s :
  played s0 past s → (s :: past) !! length past = Some s0.
Proof. induction 1; done. Qed.

Lemma initializeGame_fresh cfg w s w' :
  initializeGame cfg w = Some (s, w') →
  previousStates s = [] ∧ score s = 0 ∧ moveCount s = 0 ∧
  status s = Playing ∧ config s = cfg.
Proof.
  unfold initializeGame. destruct (0 <? length (validateGameConfig cfg))%nat; [done|].
  unfold bind, lift. destruct (Array_length (gridSize cfg)) as [n|]; [|done].
  destruct (spawnRandomTile _ _ w) as [[[g1|] w1]|]; [|done..].
  destruct (spawnRandomTile _ _ w1) as [[[g2|] w2]|]; [|done..].
  by intros [= <- _].
Qed.

(** C4: after [N] successful moves with [N] within the undo limit, [k]
    undos ([k ≤ N]) restore the grid, score and move count of the state
    [k] moves back, and from a fresh game [N] undos lead back to score 0
    and move count 0; in particular, for every state [s] and direction
    [d] whose move is accepted, [undo] of the new state has the grid,
    score and move count of [s]. *)
Theorem undo_round_trip :
  (∀ s0 past s,
     played s0 past s →
     Z.of_nat (length past) <= undoLimit (config s0) →
     (∀ k t, (s :: past) !! k = Some t →
        grid (undo_n k s) = grid t ∧ score (undo_n k s) = score t ∧
        moveCount (undo_n k s) = moveCount t) ∧
     (∀ cfg w0 w1, initializeGame cfg w0 = Some (s0, w1) →
        score (undo_n (length past) s) = 0 ∧
        moveCount (undo_n (length past) s) = 0)) ∧
  (∀ s d w r w',
     move s d w = Some (r, w') → moved r = true →
     1 <= undoLimit (config s) →
     grid (undo (newState r)) = grid s ∧ score (undo (newState r)) = score s ∧
     moveCount (undo (newState r)) = moveCount s).
Proof.
  assert (Hall : ∀ s0 past s, played s0 past s →
     Z.of_nat (length past) <= undoLimit (config s0) →
     ∀ k t, (s :: past) !! k = Some t →
     grid (undo_n k s) = grid t ∧ score (undo_n k s) = score t ∧
     moveCount (undo_n k s) = moveCount t).
  { intros s0 past s Hplayed Hlen k t Hk.
    destruct (played_history _ _ _ Hplayed Hlen) as [_ [rest Hprev]].
    destruct (undo_n_history past rest k s t Hprev Hk) as (? & ? & ? & _).
    done. }
  split.
  - intros s0 past s Hplayed Hlen. split; [by apply (Hall s0)|].
    intros cfg w0 w1 Hinit.
    destruct (initializeGame_fresh _ _ _ _ Hinit) as (_ & Hsc & Hmc & _).
    destruct (Hall _ _ _ Hplayed Hlen _ _ (played_first _ _ _ Hplayed))
      as (_ & -> & ->).
    done.
  - intros s d w r w' Hmove Hmoved Hlimit.
    apply (Hall s [s] (newState r)) with (k := 1%nat); [|done..].
    eapply played_move; [apply played_nil | exact Hmove | exact Hmoved].
Qed.

Lemma game0_eq : initializeGame DEFAULT_GAME_CONFIG world0 = Some (state0, world1).
Proof. vm_compute. reflexivity. Qed.

Lemma turn1_eq : move state0 Left world1 = Some (result1, world2).
Proof. vm_compute. reflexivity. Qed.

Lemma undo_round_trip_witness :
  ((∀ k t, (newState result1 :: [state0]) !! k = Some t →
      grid (undo_n k (newState result1)) = grid t ∧
      score (undo_n k (newState result1)) = score t ∧
      moveCount (undo_n k (newState result1)) = moveCount t) ∧
   (∀ cfg w0 w1, initializeGame cfg w0 = Some (state0, w1) →
      score (undo_n (length [state0]) (newState result1)) = 0 ∧
      moveCount (undo_n (length [state0]) (newState result1)) = 0)) ∧
  (grid (undo (newState result1)) = grid state0 ∧
   score (undo (newState result1)) = score state0 ∧
   moveCount (undo (newState result1)) = moveCount state0).
Proof.
  split.
  - apply (proj1 undo_round_trip state0 [state0] (newState result1)).
    + eapply played_move; [apply played_nil | exact turn1_eq | reflexivity].
    + vm_compute. discriminate.
  - apply (proj2 undo_round_trip state0 Left world1 result1 world2).
    + exact turn1_eq.
    + reflexivity.
    + vm_compute. discriminate.
Defined.

(** ** Bounded history *)

Lemma undoLimit_positive c m :
  maxUndoStates c = Some m → 0 < m → undoLimit c = m.
Proof.
  unfold undoLimit, or_default. intros -> Hm.
  destruct (Z.eqb_spec m 0); [lia|done].
Qed.

(** With [maxUndoStates] set to a positive bound, no state reached by
    successful moves from a state within the bound has a longer history. *)
Lemma history_bounded_positive s0 past s m :
  played s0 past s →
  maxUndoStates (config s0) = Some m → 0 < m →
  Z.of_nat (length (previousStates s0)) <= m →
  config s = config s0 ∧ Z.of_nat (length (previousStates s)) <= m.
Proof.
  intros Hplayed Hmax Hm Hlen0.
  induction Hplayed as [|past s d w r w' _ [Hcfg IH] Hmove Hmoved]; [done|].
  destruct (move_accepted _ _ _ _ _ Hmove Hmoved) as (g' & st & ->). simpl.
  split; [done|]. rewrite Hcfg, (undoLimit_positive _ _ Hmax Hm).
  apply slice0_length. lia.
Qed.

(** C5 (failing input): with [maxUndoStates: 0] the bound used is
    [0 || 10 = 10]; after the first successful move of a fresh game the
    history already holds one state. *)
Theorem history_exceeds_zero_bound :
  validateGameConfig config_no_undo = [] ∧
  ∃ s0 w0 r w1,
    initializeGame config_no_undo world0 = Some (s0, w0) ∧
    move s0 Left w0 = Some (r, w1) ∧ moved r = true ∧
    maxUndoStates (config (newState r)) = Some 0 ∧
    undoLimit (config (newState r)) = 10 ∧
    length (previousStates (newState r)) = 1%nat.
Proof.
  split; [reflexivity|].
  eexists _, _, _, _. split; [vm_compute; reflexivity|].
  split; [vm_compute; reflexivity|]. done.
Qed.

(** * Further properties of the program *)

(** ** Empty cells and tiles *)

Lemma length_flat_map_lookup {A B} (F : nat → A → list B) (h : A → nat) l :
  (∀ i x, length (F i x) = h x) →
  length (flat_map (λ i, match l !! i with Some x => F i x | None => [] end)
            (seq 0 (length l)))
  = foldr (λ x a, (h x + a)%nat) 0%nat l.
Proof.
  revert F. induction l as [|x l IH]; intros F HF; [done|].
  cbn [length seq flat_map foldr]. rewrite length_app, <- seq_shift, flat_map_map.
  simpl. rewrite HF. f_equal. apply (IH (λ i, F (S i))). intros i y. apply HF.
Qed.

Lemma getEmptyCells_row_length (rw : list (option Tile)) r :
  length (flat_map (λ c : nat,
            match rw !! c with
            | Some None => [mkCell (Z.of_nat r) (Z.of_nat c)]
            | _ => []
            end) (indices rw)) = nullCount rw.
Proof.
  unfold indices, nullCount.
  etrans; [|apply (length_flat_map_lookup
    (λ c (s : option Tile),
       match s with None => [mkCell (Z.of_nat r) (Z.of_nat c)] | Some _ => [] end)
    (λ s : option Tile, match s with None => 1%nat | Some _ => 0%nat end));
    by intros i [?|]].
  reflexivity.
Qed.

Lemma nullCount_row_tiles rw :
  (nullCount rw + length (row_tiles rw) = length rw)%nat.
Proof.
  induction rw as [|[t|] rw IH]; simpl in *; [done|..]; lia.
Qed.

Lemma getEmptyCells_length g :
  length (getEmptyCells g) = foldr (λ rw a, (nullCount rw + a)%nat) 0%nat g.
Proof.
  unfold getEmptyCells, indices.
  apply (length_flat_map_lookup
    (λ r (rw : list (option Tile)),
       flat_map (λ c : nat,
         match rw !! c with
         | Some None => [mkCell (Z.of_nat r) (Z.of_nat c)]
         | _ => []
         end) (seq 0 (length rw)))
    nullCount).
  intros r rw. apply getEmptyCells_row_length.
Qed.

Lemma getEmptyCells_elem g r c :
  cellAt g r c = Some None → In (zcell r c) (getEmptyCells g).
Proof.
  unfold cellAt, getEmptyCells, indices. intros Hc.
  destruct (g !! r) as [rw|] eqn:Hr; [|done].
  apply in_flat_map. exists r. split.
  { apply in_seq. apply lookup_lt_Some in Hr. lia. }
  rewrite Hr. apply in_flat_map. exists c. split.
  { apply in_seq. apply lookup_lt_Some in Hc. lia. }
  rewrite Hc. by left.
Qed.

Lemma getEmptyCells_NoDup g : NoDup (getEmptyCells g).
Proof.
  unfold getEmptyCells, indices. apply NoDup_flat_map.
  - apply NoDup_seq.
  - intros r. destruct (g !! r) as [rw|]; [|constructor].
    apply NoDup_flat_map.
    + apply NoDup_seq.
    + intros c. destruct (rw !! c) as [[?|]|]; try constructor;
        [apply not_elem_of_nil | constructor].
    + intros c c' z Hne H1 H2.
      destruct (rw !! c) as [[?|]|]; try done.
      destruct (rw !! c') as [[?|]|]; try done.
      destruct H1 as [<-|[]]. destruct H2 as [[= H2]|[]]. lia.
  - intros r r' z Hne H1 H2.
    destruct (g !! r) as [rw|]; [|done]. destruct (g !! r') as [rw'|]; [|done].
    apply in_flat_map in H1 as (c & _ & H1).
    apply in_flat_map in H2 as (c' & _ & H2).
    destruct (rw !! c) as [[?|]|]; try done.
    destruct (rw' !! c') as [[?|]|]; try done.
    destruct H1 as [<-|[]]. destruct H2 as [[= H2 _]|[]]. lia.
Qed.

(** X1: [getEmptyCells] lists exactly the cells holding [null], each
    once, and together with the tiles of [getAllTiles] they account for
    every cell of the grid (rows of any lengths). *)
Theorem getEmptyCells_exact g :
  NoDup (getEmptyCells g) ∧
  (∀ c, c ∈ getEmptyCells g ↔ ∃ r k, c = zcell r k ∧ cellAt g r k = Some None) ∧
  (length (getEmptyCells g) + length (getAllTiles g) = cellCount g)%nat.
Proof.
  split; [apply getEmptyCells_NoDup|]. split.
  - intros c. rewrite list_elem_of_In. split; [apply getEmptyCells_In|].
    intros (r & k & -> & Hc). by apply getEmptyCells_elem.
  - rewrite getEmptyCells_length, getAllTiles_rows. unfold cellCount.
    induction g as [|rw g IH]; [done|]. simpl. rewrite length_app.
    pose proof (nullCount_row_tiles rw). lia.
Qed.

(** [getAllTiles] returns exactly the tiles standing in the grid, in
    row-major order: on a square grid it is the concatenation, row by row
    and column by column, of the tiles read at each cell. *)
Lemma getAllTiles_cells g :
  (∀ t, t ∈ getAllTiles g ↔ ∃ r c, cellAt g r c = Some (Some t)) ∧
  (∀ n, square n g →
     getAllTiles g =
     flat_map (λ r, flat_map (λ c, slot_tiles (cellAt g r c)) (seq 0 n)) (seq 0 n)).
Proof.
  split; [apply elem_of_getAllTiles|]. intros n. apply getAllTiles_row_major.
Qed.

(** ** The traversal order *)

Lemma length_flat_map_const {A B} (f : A → list B) l m :
  (∀ x, length (f x) = m) → length (flat_map f l) = (length l * m)%nat.
Proof.
  intros Hf. induction l as [|x l IH]; [done|].
  simpl. rewrite length_app, Hf, IH. lia.
Qed.

Lemma seq_split_at i n :
  (i < n)%nat → seq 0 n = seq 0 i ++ i :: seq (S i) (n - S i).
Proof.
  intros Hi. replace n with (i + S (n - S i))%nat at 1 by lia.
  by rewrite seq_app.
Qed.

Lemma traversal_cell_line d n c :
  In c (getTraversalOrder d n) →
  ∃ l k, (l < n)%nat ∧ (k < n)%nat ∧ c = line_cell d n l k.
Proof.
  rewrite traversal_lines. intros (l & Hl%in_seq & Hc)%in_flat_map.
  apply in_map_iff in Hc as (k & <- & Hk%in_seq). exists l, k.
  split; [lia|]. split; [lia|done].
Qed.

Lemma line_rc_onto d n r c :
  (r < n)%nat → (c < n)%nat →
  ∃ l k, (l < n)%nat ∧ (k < n)%nat ∧ line_rc d n l k = (r, c).
Proof.
  intros Hr Hc. destruct d; unfold line_rc.
  - exists c, r. split; [lia|]. split; [lia|]. done.
  - exists c, (n - 1 - r)%nat. split; [lia|]. split; [lia|]. f_equal. lia.
  - exists r, c. split; [lia|]. split; [lia|]. done.
  - exists r, (n - 1 - c)%nat. split; [lia|]. split; [lia|]. f_equal. lia.
Qed.

Lemma NoDup_map_in {A B} (f : A → B) l :
  (∀ x y, In x l → In y l → f x = f y → x = y) → NoDup l → NoDup (map f l).
Proof.
  intros Hinj Hl. induction Hl as [|x l Hx Hl IH]; simpl; [constructor|].
  constructor.
  - intros (y & Heq & Hy)%list_elem_of_In%in_map_iff.
    apply Hx, list_elem_of_In.
    rewrite (Hinj x y); [done|by left|by right|done].
  - apply IH. intros y z Hy Hz. apply Hinj; by right.
Qed.

Lemma traversal_NoDup d n : NoDup (getTraversalOrder d n).
Proof.
  rewrite traversal_lines. apply NoDup_flat_map.
  - apply NoDup_seq.
  - intros l. apply NoDup_map_in; [|apply NoDup_seq].
    intros k k' Hk%in_seq Hk'%in_seq Heq.
    unfold line_cell, zcell in Heq. injection Heq as H1 H2.
    apply (line_rc_inj d n l k l k'); [lia..|].
    apply injective_projections; lia.
  - intros l l' z Hne (k & <- & Hk%in_seq)%in_map_iff
      (k' & Heq & Hk'%in_seq)%in_map_iff.
    unfold line_cell, zcell in Heq. injection Heq as H1 H2.
    destruct (line_rc_inj d n l' k' l k) as [? _]; [lia..| |done].
    apply injective_projections; lia.
Qed.

(** X2: in every direction the traversal order visits each of the
    [n × n] cells exactly once, and a cell always comes right after its
    neighbour in the direction of the move (the cell nearer the target
    edge is processed first). *)
Theorem getTraversalOrder_visits_each_cell_once d n :
  NoDup (getTraversalOrder d n) ∧
  length (getTraversalOrder d n) = (n * n)%nat ∧
  (∀ c, c ∈ getTraversalOrder d n ↔
        ∃ r k, (r < n)%nat ∧ (k < n)%nat ∧ c = zcell r k) ∧
  (∀ c c', c ∈ getTraversalOrder d n →
     getNextCell c d = Some c' → isWithinBounds c' n = true →
     ∃ before after, getTraversalOrder d n = before ++ c' :: c :: after).
Proof.
  split; [apply traversal_NoDup|]. split; [|split].
  - rewrite traversal_lines.
    rewrite (length_flat_map_const _ _ n), length_seq; [done|].
    intros l. by rewrite length_map, length_seq.
  - intros c. rewrite list_elem_of_In. split.
    + intros (l & k & Hl & Hk & ->)%traversal_cell_line.
      destruct (line_rc_lt d n l k Hl Hk) as [H1 H2].
      exists (line_rc d n l k).1, (line_rc d n l k).2. by repeat split.
    + intros (r & k & Hr & Hk & ->).
      destruct (line_rc_onto d n r k Hr Hk) as (l & j & Hl & Hj & Heq).
      replace (zcell r k) with (line_cell d n l j)
        by (unfold line_cell; by rewrite Heq).
      by apply line_cell_in_traversal.
  - intros c c' (l & k & Hl & Hk & ->)%list_elem_of_In%traversal_cell_line
      Hnext Hin.
    destruct k as [|k].
    { apply line_next_0 in Hnext; [congruence|lia]. }
    rewrite line_next_S in Hnext by done. injection Hnext as <-.
    rewrite traversal_lines.
    set (F := λ l : nat, map (line_cell d n l) (seq 0 n)).
    rewrite (seq_split_at l n Hl), flat_map_app. cbn [flat_map].
    assert (HF : F l = map (line_cell d n l) (seq 0 k)
                       ++ line_cell d n l k :: line_cell d n l (S k)
                       :: map (line_cell d n l) (seq (S (S k)) (n - S (S k)))).
    { unfold F. rewrite (seq_split_at k n) by lia. rewrite map_app.
      replace (n - S k)%nat with (S (n - S (S k))) by lia. done. }
    exists (flat_map F (seq 0 l) ++ map (line_cell d n l) (seq 0 k)),
      (map (line_cell d n l) (seq (S (S k)) (n - S (S k)))
       ++ flat_map F (seq (S l) (n - S l))).
    rewrite HF, <- !app_assoc. done.
Qed.

(** ** The farthest-position search *)

(** X3: from the cell at distance [k] of a line of a square grid,
    [findFarthestPosition] returns as [farthest] the cell at some distance
    [j0 ≤ k] such that every cell strictly between is empty and unmerged,
    and as [next] either [null], when [farthest] lies on the target edge,
    or the cell just beyond [farthest], which is occupied or merged. *)
Theorem findFarthestPosition_farthest_free d n l k g mc :
  square n g → (l < n)%nat → (k < n)%nat →
  ∃ j0 next,
    findFarthestPosition (line_cell d n l k) d g mc
      = Some (line_cell d n l j0, next) ∧
    (j0 ≤ k)%nat ∧
    (∀ i, (j0 ≤ i < k)%nat → free g mc (line_cell d n l i)) ∧
    ((j0 = 0%nat ∧ next = None) ∨
     (∃ j1, j0 = S j1 ∧ next = Some (line_cell d n l j1) ∧
            ¬ free g mc (line_cell d n l j1))).
Proof.
  intros Hsq Hl Hk.
  destruct (findFarthestPosition_spec d n l k g mc Hsq Hl Hk)
    as (j0 & nx & Heq & Hle & Hfree & Hnx).
  exists j0, nx. split; [done|]. split; [done|]. split; [done|].
  destruct nx as [c|]; [right|by left].
  destruct Hnx as (j1 & -> & -> & Hnf). by exists j1.
Qed.

Lemma findFarthestPosition_farthest_free_witness :
  ∃ j0 next,
    findFarthestPosition (line_cell Left 4 0 3) Left grid_2_2 ∅
      = Some (line_cell Left 4 0 j0, next) ∧
    (j0 ≤ 3)%nat ∧
    (∀ i, (j0 ≤ i < 3)%nat → free grid_2_2 ∅ (line_cell Left 4 0 i)) ∧
    ((j0 = 0%nat ∧ next = None) ∨
     (∃ j1, j0 = S j1 ∧ next = Some (line_cell Left 4 0 j1) ∧
            ¬ free grid_2_2 ∅ (line_cell Left 4 0 j1))).
Proof.
  apply (findFarthestPosition_farthest_free Left 4 0 3 grid_2_2 ∅).
  - apply squareb_square. reflexivity.
  - lia.
  - lia.
Defined.

(** X4: the search loop of [findFarthestPosition] ends within
    [grid.length] iterations for every start position, direction, grid
    (square or not) and set of merged cells. *)
Theorem findFarthestPosition_terminates position d g mc :
  ∃ farthest next,
    findFarthestPosition position d g mc = Some (farthest, next).
Proof.
  destruct (findFarthestPosition_total position d g mc) as [[f nx] Heq].
  by exists f, nx.
Qed.

(** ** When does a move move? *)

Lemma differs_true c c' : c ≠ c' → differs c c' = true.
Proof.
  destruct c as [r k], c' as [r' k']. unfold differs. simpl. intros Hne.
  destruct (Z.eqb_spec r r') as [->|]; [|done].
  destruct (Z.eqb_spec k k') as [->|]; done.
Qed.

Lemma line_cell_inj d n l k k' :
  (k < n)%nat → (k' < n)%nat →
  line_cell d n l k = line_cell d n l k' → k = k'.
Proof.
  intros Hk Hk' Heq. unfold line_cell, zcell in Heq. injection Heq as H1 H2.
  apply (line_rc_inj d n l k l k'); [done..|].
  apply injective_projections; lia.
Qed.

(** [processCell_tile], with the reason why a sliding tile did not merge. *)
Lemma processCell_tile_full g d n l k acc t w :
  square n (acc_grid acc) → (l < n)%nat → (k < n)%nat →
  grid_at g (line_cell d n l k) = Some (Some t) →
  grid_at (acc_grid acc) (line_cell d n l k) = Some None →
  ∃ acc' w' j0,
    processCell g d acc (line_cell d n l k) w = Some (acc', w') ∧
    (j0 ≤ k)%nat ∧
    (∀ i, (j0 ≤ i < k)%nat →
          free (acc_grid acc) (acc_mergedCells acc) (line_cell d n l i)) ∧
    ((acc_moved acc' =
        acc_moved acc || differs (line_cell d n l j0) (position t) ∧
      acc_mergedTiles acc' = acc_mergedTiles acc ∧
      (j0 = 0%nat ∨
       ∃ j1, j0 = S j1 ∧
         ¬ free (acc_grid acc) (acc_mergedCells acc) (line_cell d n l j1) ∧
         ∀ nt, grid_at (acc_grid acc) (line_cell d n l j1) = Some (Some nt) →
               value nt = value t →
               cellKey (line_cell d n l j1) ∈ acc_mergedCells acc))
     ∨
     (∃ j1, j0 = S j1 ∧
        acc_moved acc' =
          acc_moved acc || differs (line_cell d n l j1) (position t))).
Proof.
  intros Hsq Hl Hk Ht Hown. unfold processCell. rewrite Ht.
  destruct (findFarthestPosition_spec d n l k (acc_grid acc)
              (acc_mergedCells acc) Hsq Hl Hk)
    as (j0 & nx & Hff & Hle & Hfree & Hnx).
  unfold bind, lift. rewrite Hff. cbn [fst snd].
  assert (Hempty : grid_at (acc_grid acc) (line_cell d n l j0) = Some None).
  { destruct (decide (j0 = k)) as [->|]; [done|]. apply Hfree. lia. }
  destruct (mergeCandidate (acc_grid acc) (acc_mergedCells acc) t nx)
    as [[c nt]|] eqn:Hmc.
  - apply mergeCandidate_Some in Hmc as (-> & Hnt & Hval & Hnot).
    destruct Hnx as (j1 & -> & -> & _).
    pose proof Hnt as Hnt'. rewrite grid_at_line in Hnt'.
    unfold createTile, generateTileId, bind, ret. cbn.
    match goal with
    | |- context [grid_set _ _ ?v] =>
        destruct (grid_set_spec n (acc_grid acc) _ _ _ v Hsq Hnt')
          as (g' & Hset & _)
    end.
    fold (line_cell d n l j1) in Hset. rewrite Hset.
    eexists _, _, (S j1). split; [done|]. split; [done|]. split; [done|].
    right. by exists j1.
  - pose proof Hempty as Hempty'. rewrite grid_at_line in Hempty'.
    destruct (grid_set_spec n (acc_grid acc) _ _ _
      (Some (with_position t (line_cell d n l j0))) Hsq Hempty')
      as (g' & Hset & _).
    fold (line_cell d n l j0) in Hset. rewrite Hset. unfold ret.
    eexists _, _, j0. split; [done|]. split; [done|]. split; [done|].
    left. split; [done|]. split; [done|].
    destruct nx as [c|]; [right|by left].
    destruct Hnx as (j1 & -> & -> & Hnf). exists j1.
    split; [done|]. split; [done|]. intros nt Hnt Hval.
    destruct (decide (cellKey (line_cell d n l j1) ∈ acc_mergedCells acc))
      as [|Hnot]; [done|].
    assert (mergeCandidate (acc_grid acc) (acc_mergedCells acc) t
              (Some (line_cell d n l j1)) = Some (line_cell d n l j1, nt))
      by (by apply mergeCandidate_Some).
    congruence.
Qed.

Lemma processCell_moved_mono g d acc c w acc' w' :
  processCell g d acc c w = Some (acc', w') →
  acc_moved acc = true → acc_moved acc' = true.
Proof.
  unfold processCell. destruct (grid_at g c) as [[t|]|]; [|by intros [= <- _]|done].
  unfold bind at 1. unfold lift at 1.
  destruct (findFarthestPosition _ _ _ _) as [[f nx]|]; [|done].
  cbn [fst snd].
  destruct (mergeCandidate _ _ _ _) as [[c' nt]|]; run_M.
  - destruct (grid_set _ _ _); [|done]. intros [= <- _] ->. done.
  - destruct (grid_set _ _ _); [|done]. intros [= <- _] ->. done.
Qed.

Lemma Unmoved_step_at g d n w0 l k acc w :
  square n g → length g = n → positions_ok g →
  tileCanMove g d (line_cell d n l k) = false →
  (l < n)%nat → (k < n)%nat → Unmoved g d n w0 l k acc w →
  ∃ acc' w', processCell g d acc (line_cell d n l k) w = Some (acc', w') ∧
             Unmoved g d n w0 l (S k) acc' w'.
Proof.
  intros Hg Hlen Hpos Hcant Hl Hk [Hsq Hcopy Hmc Hmt Hmv Hsc Hw].
  destruct (line_rc_lt d n l k Hl Hk) as [Hr Hc].
  destruct (square_cellAt n g _ _ Hg Hr Hc) as [x Hx].
  rewrite <- grid_at_line in Hx.
  assert (Hown : grid_at (acc_grid acc) (line_cell d n l k) = Some None).
  { rewrite Hcopy by done. rewrite decide_True; [done|]. right. lia. }
  destruct x as [t|].
  2:{ exists acc, w. split; [by apply processCell_null|].
      split; try done. intros l' k' Hl' Hk'. rewrite Hcopy by done.
      destruct (decide (l' = l ∧ k' = k)) as [[-> ->]|Hne].
      - rewrite decide_True by (right; lia).
        rewrite decide_False by (unfold beyond; lia). done.
      - destruct (decide (beyond l k l' k')) as [Hb|Hb].
        + rewrite decide_True; [done|]. unfold beyond in *. lia.
        + rewrite decide_False; [done|]. unfold beyond in *. lia. }
  assert (Htpos : position t = line_cell d n l k).
  { rewrite grid_at_line in Hx. apply (Hpos _ _ _ Hx). }
  destruct (processCell_tile g d n l k acc t w Hsq Hl Hk Hx Hown)
    as (acc' & w' & j0 & Hrun & Hle & Hfree & Hcase).
  (* the cell right in front of the tile, if any, holds a different value *)
  assert (Hfront : ∀ k', k = S k' →
    ∃ t', grid_at (acc_grid acc) (line_cell d n l k') = Some (Some t') ∧
          value t' ≠ value t).
  { intros k' ->. unfold tileCanMove in Hcant. rewrite Hx in Hcant.
    rewrite line_next_S in Hcant by done.
    rewrite Hlen, line_within in Hcant by lia. simpl in Hcant.
    rewrite Hcopy by lia. rewrite decide_False by (unfold beyond; lia).
    destruct (line_rc_lt d n l k') as [Hr' Hc']; [lia..|].
    destruct (square_cellAt n g _ _ Hg Hr' Hc') as [y Hy].
    rewrite <- grid_at_line in Hy. rewrite Hy in Hcant |- *.
    destruct y as [t'|]; [|done]. exists t'. split; [done|].
    by apply bool_decide_eq_false in Hcant. }
  assert (Hj0 : j0 = k).
  { destruct (decide (j0 = k)) as [|Hne]; [done|]. exfalso.
    destruct k as [|k']; [lia|].
    destruct (Hfront k' eq_refl) as (t' & Ht' & _).
    destruct (Hfree k') as [Hf _]; [lia|]. congruence. }
  subst j0. exists acc', w'. split; [done|].
  destruct Hcase as [(g' & Hset & Hold & -> & ->)
                    |(j1 & nt & m & g' & -> & Hold & Hval & _)].
  2:{ exfalso. destruct (Hfront j1 eq_refl) as (t' & Ht' & Hne). congruence. }
  rewrite <- Htpos, with_position_own in Hset. rewrite Htpos in Hset.
  rewrite grid_at_line in Hold.
  destruct (grid_set_spec n _ _ _ _ (Some t) Hsq Hold)
    as (g'' & Hset' & Hsq' & Hlook & _).
  fold (line_cell d n l k) in Hset'. rewrite Hset in Hset'.
  injection Hset' as <-.
  split; simpl; try done.
  - intros l' k' Hl' Hk'. rewrite grid_at_line, Hlook.
    destruct (decide (l' = l ∧ k' = k)) as [[-> ->]|Hne].
    + rewrite decide_True by done.
      rewrite decide_False by (unfold beyond; lia). done.
    + rewrite decide_False.
      2:{ intros [H1 H2]. apply Hne.
          apply (line_rc_inj d n); [lia..|]. by apply injective_projections. }
      rewrite <- grid_at_line, Hcopy by done.
      destruct (decide (beyond l k l' k')) as [Hb|Hb].
      * rewrite decide_True; [done|]. unfold beyond in *. lia.
      * rewrite decide_False; [done|]. unfold beyond in *. lia.
  - by rewrite Hmv, <- Htpos, differs_same.
Qed.

Lemma Moving_step g d n l k acc w :
  square n g → length g = n → positions_ok g →
  (l < n)%nat → (k < n)%nat → Moving g d n l k acc w →
  ∃ acc' w', processCell g d acc (line_cell d n l k) w = Some (acc', w') ∧
             Moving g d n l (S k) acc' w'.
Proof.
  intros Hg Hlen Hpos Hl Hk [Hcons Hmv].
  destruct (Conserved_step g d n l k acc w Hg Hl Hk Hcons)
    as (acc' & w' & Hrun & Hcons').
  exists acc', w'. split; [done|]. split; [done|].
  destruct Hmv as [Hm|[Hun Hcant]].
  { left. by eapply processCell_moved_mono. }
  destruct (tileCanMove g d (line_cell d n l k)) eqn:Hcan.
  2:{ right.
      destruct (Unmoved_step_at g d n w l k acc w Hg Hlen Hpos Hcan Hl Hk Hun)
        as (acc2 & w2 & Hrun2 & Hun2).
      rewrite Hrun in Hrun2. injection Hrun2 as <- <-.
      pose proof (unm_world _ _ _ _ _ _ _ _ Hun2) as ->.
      split; [done|]. intros l' k' Hl' Hk' Hb.
      destruct (decide (l' = l ∧ k' = k)) as [[-> ->]|Hne]; [done|].
      apply Hcant; [done..|]. unfold beyond in *. lia. }
  left. destruct Hun as [Hsq Hcopy Hmc Hmt Hmv _ _].
  unfold tileCanMove in Hcan.
  destruct (grid_at g (line_cell d n l k)) as [[t|]|] eqn:Ht; try done.
  destruct (getNextCell (line_cell d n l k) d) as [nx|] eqn:Hnext; [|done].
  apply andb_true_iff in Hcan as [Hin Hcan]. rewrite Hlen in Hin.
  destruct k as [|k'].
  { apply line_next_0 in Hnext; [congruence|lia]. }
  rewrite line_next_S in Hnext by done. injection Hnext as <-.
  assert (Htpos : position t = line_cell d n l (S k')).
  { rewrite grid_at_line in Ht. apply (Hpos _ _ _ Ht). }
  assert (Hfront : grid_at (acc_grid acc) (line_cell d n l k')
                   = grid_at g (line_cell d n l k')).
  { rewrite Hcopy by lia. rewrite decide_False; [done|]. unfold beyond. lia. }
  destruct (processCell_tile_full g d n l (S k') acc t w Hsq Hl Hk Ht)
    as (acc2 & w2 & j0 & Hrun2 & Hle & Hfree & Hcase).
  { rewrite Hcopy by done. rewrite decide_True; [done|]. right. lia. }
  rewrite Hrun in Hrun2. injection Hrun2 as <- <-.
  destruct Hcase as [(Hmoved & _ & Hwhy)|(j1 & -> & Hmoved)];
    rewrite Hmoved, Htpos, Hmv; simpl.
  - apply differs_true. intros Heq.
    apply line_cell_inj in Heq; [|lia..]. subst j0.
    destruct Hwhy as [|(j1 & [= <-] & Hnf & Hnomerge)]; [done|].
    destruct (grid_at g (line_cell d n l k')) as [[t'|]|] eqn:Hg1; try done.
    + apply bool_decide_eq_true in Hcan.
      rewrite Hmc in Hnomerge. by apply (Hnomerge t') in Hcan.
    + apply Hnf. split; [congruence|]. rewrite Hmc. apply not_elem_of_empty.
  - apply differs_true. intros Heq.
    apply line_cell_inj in Heq; lia.
Qed.

Lemma performMove_moved_spec g d w :
  grid_wf g →
  ∃ r w', performMove g d w = Some (r, w') ∧ pm_moved r = anyTileCanMove g d.
Proof.
  intros [Hg Hpos].
  destruct (anyTileCanMove g d) eqn:Hany.
  2:{ destruct (performMove_unmoved g d w (conj Hg Hpos) Hany)
        as (r & Hrun & Hmoved & _). by exists r, w. }
  unfold performMove, bind.
  destruct (traversal_rule g d (length g) (Moving g d (length g)))
    with (acc := mkAcc (createEmptyGrid (length g)) ∅ [] false 0) (w := w)
    as (acc & w' & -> & [_ Hmv]).
  - intros l k acc w1 Hl Hk HI. by apply Moving_step.
  - intros l acc w1 Hl [Hcons Hmv]. split; [by apply Conserved_next_line|].
    destruct Hmv as [Hm|[[Hsq Hcopy Hmc Hmt Hmv Hsc Hw] Hcant]]; [by left|right].
    split.
    + split; try done. intros l' k' Hl' Hk'. rewrite Hcopy by done.
      destruct (decide (beyond l (length g) l' k')) as [Hb|Hb].
      * rewrite decide_True; [done|]. unfold beyond in *. lia.
      * rewrite decide_False; [done|]. unfold beyond in *. lia.
    + intros l' k' Hl' Hk' Hb. apply Hcant; [done..|]. unfold beyond in *. lia.
  - split; [apply Conserved_init|]. right. split.
    + split; simpl; try done.
      * apply square_createEmptyGrid.
      * intros l' k' Hl' Hk'. rewrite grid_at_line, cellAt_createEmptyGrid.
        destruct (line_rc_lt d (length g) l' k' Hl' Hk').
        rewrite decide_True by done. rewrite decide_True; [done|].
        unfold beyond. lia.
    + intros l' k' Hl' Hk' Hb. exfalso. apply Hb. unfold beyond. lia.
  - eexists _, _. split; [done|]. simpl.
    destruct Hmv as [Hm|[_ Hcant]]; [done|]. exfalso.
    unfold anyTileCanMove in Hany. apply existsb_exists in Hany as (c & Hc & Hcan).
    apply traversal_cell_line in Hc as (l & k & Hl & Hk & ->).
    rewrite Hcant in Hcan; [done|done..|]. unfold beyond. lia.
Qed.

(** X5: on a well-formed grid [performMove] reports [moved = true]
    exactly when some tile has, in the direction of the move, an
    in-bounds neighbouring cell that is empty or holds a tile of equal
    value. *)
Theorem performMove_moved_iff g d w :
  grid_wf g →
  ∃ r w', performMove g d w = Some (r, w') ∧ pm_moved r = anyTileCanMove g d.
Proof. apply performMove_moved_spec. Qed.

Lemma performMove_moved_iff_witness :
  ∃ r w', performMove grid_2_2 Left world0 = Some (r, w') ∧
          pm_moved r = anyTileCanMove grid_2_2 Left.
Proof.
  apply (performMove_moved_iff grid_2_2 Left world0).
  apply grid_wfb_sound. reflexivity.
Defined.

(** ** The highest tile *)

Lemma getHighestTileValue_tiles s :
  getHighestTileValue s = fold_left higher (getAllTiles (grid s)) 0.
Proof.
  unfold getHighestTileValue, getAllTiles. generalize 0.
  induction (grid s) as [|rw g IH]; intros h; [done|].
  simpl. rewrite fold_left_app, IH. f_equal.
  clear. revert h.
  induction rw as [|[t|] rw IH]; intros h; simpl; [done|..]; apply IH.
Qed.

Lemma fold_higher_spec ts h0 :
  h0 <= fold_left higher ts h0 ∧
  (∀ t, t ∈ ts → value t <= fold_left higher ts h0) ∧
  (fold_left higher ts h0 = h0 ∨
   ∃ t, t ∈ ts ∧ value t = fold_left higher ts h0).
Proof.
  revert h0. induction ts as [|t ts IH]; intros h0; simpl.
  - split; [lia|]. split; [|by left]. intros t Ht. by apply elem_of_nil in Ht.
  - destruct (IH (higher h0 t)) as (Hle & Hall & Hatt).
    assert (Hh : h0 <= higher h0 t ∧ value t <= higher h0 t ∧
                 (higher h0 t = h0 ∨ higher h0 t = value t)).
    { unfold higher. destruct (Z.ltb_spec h0 (value t)); lia. }
    split; [lia|]. split.
    + intros t' [->|Hin]%elem_of_cons; [lia|by apply Hall].
    + destruct Hatt as [Heq|(t' & Hin & Heq)].
      * rewrite Heq. destruct Hh as (_ & _ & [?|?]); [by left|].
        right. exists t. split; [apply list_elem_of_here|done].
      * right. exists t'. split; [by apply list_elem_of_further|done].
Qed.

(** X6: [getHighestTileValue] is the maximum of the tile values of the
    board and 0: it is never negative, no tile exceeds it, and it is 0
    or the value of a tile of the board. *)
Theorem getHighestTileValue_is_max s :
  0 <= getHighestTileValue s ∧
  (∀ t, t ∈ getAllTiles (grid s) → value t <= getHighestTileValue s) ∧
  (getHighestTileValue s = 0 ∨
   ∃ t, t ∈ getAllTiles (grid s) ∧ value t = getHighestTileValue s).
Proof.
  rewrite getHighestTileValue_tiles. apply fold_higher_spec.
Qed.

(** X7: for a positive target, [hasWon] answers whether the highest
    tile has reached the target. *)
Theorem hasWon_iff_highest s target :
  0 < target →
  hasWon (grid s) target = (target <=? getHighestTileValue s).
Proof.
  intros Hpos. apply eq_iff_eq_true. rewrite hasWon_true, Z.leb_le.
  rewrite getHighestTileValue_tiles.
  destruct (fold_higher_spec (getAllTiles (grid s)) 0) as (_ & Hall & Hatt).
  split.
  - intros (t & Ht & Hle). apply Hall in Ht. by etransitivity.
  - intros Hle. destruct Hatt as [Heq|(t & Ht & Heq)]; [lia|].
    exists t. split; [done|lia].
Qed.

Lemma hasWon_iff_highest_witness :
  hasWon (grid state_won) 2048 = (2048 <=? getHighestTileValue state_won).
Proof. apply (hasWon_iff_highest state_won 2048). lia. Defined.

(** ** Statistics *)

Lemma countCells_row (rw : list (option Tile)) a b :
  fold_left (λ (counts : Z * Z) (tile : option Tile),
      match tile with
      | Some _ => (counts.1 + 1, counts.2)
      | None => (counts.1, counts.2 + 1)
      end) rw (a, b)
  = (a + Z.of_nat (length (row_tiles rw)), b + Z.of_nat (nullCount rw)).
Proof.
  revert a b. induction rw as [|[t|] rw IH]; intros a b; simpl.
  - f_equal; lia.
  - rewrite IH. f_equal; lia.
  - rewrite IH. f_equal; lia.
Qed.

Lemma countCells_from (g : Grid) a b :
  fold_left (λ counts rw,
    fold_left (λ (counts : Z * Z) (tile : option Tile),
      match tile with
      | Some _ => (counts.1 + 1, counts.2)
      | None => (counts.1, counts.2 + 1)
      end) rw counts) g (a, b)
  = (a + Z.of_nat (length (flat_map row_tiles g)),
     b + Z.of_nat (foldr (λ rw n, (nullCount rw + n)%nat) 0%nat g)).
Proof.
  revert a b. induction g as [|rw g IH]; intros a b; simpl.
  - f_equal; lia.
  - rewrite countCells_row, IH, length_app. f_equal; lia.
Qed.

Lemma countCells_spec g :
  countCells g = (Z.of_nat (length (getAllTiles g)),
                  Z.of_nat (length (getEmptyCells g))).
Proof.
  rewrite getEmptyCells_length, getAllTiles_rows. unfold countCells.
  by rewrite countCells_from.
Qed.

Lemma cells_partition g :
  (length (getEmptyCells g) + length (getAllTiles g) = cellCount g)%nat.
Proof.
  rewrite getEmptyCells_length, getAllTiles_rows. unfold cellCount.
  induction g as [|rw g IH]; [done|]. simpl. rewrite length_app.
  pose proof (nullCount_row_tiles rw). lia.
Qed.

(** X8: the counters of [getGameStatistics] are the number of tiles of
    the board and the number of its empty cells, which together make up
    all the cells; no tile exceeds [highestTile]; and [canUndo] holds
    exactly when [availableUndos] is positive. *)
Theorem getGameStatistics_counts s :
  st_tileCount (getGameStatistics s) = Z.of_nat (length (getAllTiles (grid s))) ∧
  st_emptyCellCount (getGameStatistics s)
    = Z.of_nat (length (getEmptyCells (grid s))) ∧
  st_tileCount (getGameStatistics s) + st_emptyCellCount (getGameStatistics s)
    = Z.of_nat (cellCount (grid s)) ∧
  (∀ t, t ∈ getAllTiles (grid s) →
        value t <= st_highestTile (getGameStatistics s)) ∧
  (st_canUndo (getGameStatistics s) = true ↔
   (0 < st_availableUndos (getGameStatistics s))%nat).
Proof.
  unfold getGameStatistics. simpl. rewrite countCells_spec. simpl.
  split; [done|]. split; [done|]. split.
  { pose proof (cells_partition (grid s)). lia. }
  split.
  { rewrite getHighestTileValue_tiles. apply fold_higher_spec. }
  unfold canUndo, getAvailableUndos. apply Nat.ltb_lt.
Qed.

(** ** Snapshots *)

Lemma cloneGameState_flat_id p :
  previousStates p = [] → cloneGameState_flat p = p.
Proof.
  destruct p; simpl. intros ->. unfold cloneGameState_flat. simpl.
  by rewrite cloneGrid_id.
Qed.

Lemma map_cloneGameState_flat_id ps :
  Forall (λ p, previousStates p = []) ps → map cloneGameState_flat ps = ps.
Proof.
  induction 1 as [|p ps Hp _ IH]; [done|]. simpl.
  by rewrite IH, cloneGameState_flat_id.
Qed.

(** X9: a snapshot has the grid, score, status, configuration, move
    count and flag of the state and as many history entries; each entry
    has lost its own history; the snapshot of a snapshot is the
    snapshot; and on a state whose history entries carry no history of
    their own the snapshot is equal to the state. *)
Theorem createStateSnapshot_flattens s :
  grid (createStateSnapshot s) = grid s ∧
  score (createStateSnapshot s) = score s ∧
  status (createStateSnapshot s) = status s ∧
  config (createStateSnapshot s) = config s ∧
  moveCount (createStateSnapshot s) = moveCount s ∧
  wonAndContinued (createStateSnapshot s) = wonAndContinued s ∧
  length (previousStates (createStateSnapshot s)) = length (previousStates s) ∧
  flat_history (createStateSnapshot s) ∧
  createStateSnapshot (createStateSnapshot s) = createStateSnapshot s ∧
  (flat_history s → createStateSnapshot s = s).
Proof.
  unfold createStateSnapshot, cloneGameState, flat_history. simpl.
  rewrite !cloneGrid_id, length_map.
  assert (Hflat : Forall (λ p, previousStates p = [])
                    (map cloneGameState_flat (previousStates s))).
  { apply Forall_map, Forall_true. done. }
  repeat (split; [done|]). split.
  - by rewrite map_cloneGameState_flat_id.
  - intros Hs. rewrite map_cloneGameState_flat_id by done. by destruct s.
Qed.

(** ** A lost game is over *)

(** X10: in a lost game every move, in every direction, is rejected
    without drawing a random number or an identifier, and every state
    returned by any sequence of moves is the lost state itself. *)
Theorem lost_is_final s :
  status s = Lost →
  (∀ d w, move s d w = Some (rejected s, w)) ∧
  (∀ s', after_moves s s' → s' = s).
Proof.
  intros Hlost.
  assert (Hmove : ∀ d w, move s d w = Some (rejected s, w)).
  { intros d w. unfold move. by rewrite bool_decide_eq_true_2. }
  split; [done|]. induction 1 as [|s' d w r w' _ -> Hm]; [done|].
  rewrite Hmove in Hm. by injection Hm as <- _.
Qed.

Lemma lost_is_final_witness :
  (∀ d w, move state_lost d w = Some (rejected state_lost, w)) ∧
  (∀ s', after_moves state_lost s' → s' = state_lost).
Proof. apply (lost_is_final state_lost). reflexivity. Defined.

(** ** Undo consumes the history *)

Lemma undo_history_length s :
  length (previousStates (undo s)) = pred (length (previousStates s)).
Proof.
  unfold undo. destruct (previousStates s) as [|p ps] eqn:Hs; [|done].
  by rewrite Hs.
Qed.

Lemma undo_nothing s : previousStates s = [] → undo s = s.
Proof. unfold undo. by intros ->. Qed.

Lemma undo_n_nothing k s : previousStates s = [] → undo_n k s = s.
Proof.
  intros Hs. unfold undo_n. induction k as [|k IH]; [done|].
  simpl. rewrite IH. by apply undo_nothing.
Qed.

Lemma undo_n_length k s :
  length (previousStates (undo_n k s)) = (length (previousStates s) - k)%nat.
Proof.
  unfold undo_n. induction k as [|k IH]; simpl; [lia|].
  rewrite undo_history_length, IH. lia.
Qed.

(** X11: each [undo] takes exactly one entry off the history, whatever
    the restored entry held; after as many undos as [getAvailableUndos]
    counts, [canUndo] is false and further undos change nothing. *)
Theorem undo_consumes_one s k :
  getAvailableUndos (undo_n k s) = (getAvailableUndos s - k)%nat ∧
  canUndo (undo_n (getAvailableUndos s) s) = false ∧
  undo_n (k + getAvailableUndos s) s = undo_n (getAvailableUndos s) s.
Proof.
  unfold getAvailableUndos, canUndo. split; [apply undo_n_length|].
  assert (Hnil : previousStates (undo_n (length (previousStates s)) s) = []).
  { apply length_zero_iff_nil. rewrite undo_n_length. lia. }
  split; [by rewrite Hnil|].
  unfold undo_n at 1. rewrite Nat.iter_add.
  by apply (undo_n_nothing k).
Qed.

(** ** The validator, exactly *)

Lemma pow2_32_pos : 0 < 2 ^ 32.
Proof. done. Qed.

(** The 32-bit test [(t & (t - 1)) === 0] reads [t] modulo [2^32]. *)
Lemma bitand_pred_zero t :
  bitand t (t - 1) = 0 ↔
  t mod 2 ^ 32 = 0 ∨ is_power_of_two (t mod 2 ^ 32).
Proof.
  unfold bitand, ToInt32.
  pose proof (Z.mod_pos_bound t (2 ^ 32) pow2_32_pos) as Hm.
  rewrite <- (Zminus_mod_idemp_l t 1).
  set (m := t mod 2 ^ 32) in *.
  destruct (decide (m = 0)) as [->|Hne].
  { split; [by left|]. intros _. reflexivity. }
  rewrite (Z.mod_small (m - 1)) by lia.
  destruct (Z.leb_spec (2 ^ 31) m) as [Hhi|Hlo].
  - destruct (decide (m = 2 ^ 31)) as [->|Hne'].
    { split; [|reflexivity]. intros _. right. by exists 31%nat. }
    destruct (Z.leb_spec (2 ^ 31) (m - 1)) as [_|?]; [|lia]. split.
    + intros Hland.
      assert (Z.land (m - 2 ^ 32) (m - 1 - 2 ^ 32) < 0)
        by (apply Z.land_neg; lia).
      lia.
    + intros [|[k Hk]]; [done|]. exfalso.
      assert (2 ^ 31 < 2 ^ Z.of_nat k < 2 ^ 32) as [H1 H2] by lia.
      apply Z.pow_lt_mono_r_iff in H1; [|lia..].
      apply Z.pow_lt_mono_r_iff in H2; lia.
  - destruct (Z.leb_spec (2 ^ 31) (m - 1)) as [?|_]; [lia|].
    rewrite land_pred_power_of_two by lia. naive_solver.
Qed.

Lemma targetShape_errors_nil t :
  0 < t <= 2 ^ 53 →
  (if negb (bitand t (targetPredecessor t) =? 0)
   then ["Target value should be a power of 2"%string] else []) = []
  ↔ t mod 2 ^ 32 = 0 ∨ is_power_of_two (t mod 2 ^ 32).
Proof.
  intros Ht. rewrite targetPredecessor_exact by done.
  rewrite <- bitand_pred_zero.
  destruct (Z.eqb_spec (bitand t (t - 1)) 0); simpl; split; done.
Qed.

(** What every accepted configuration satisfies, whatever its target. *)
Lemma validateGameConfig_nil_shape c :
  validateGameConfig c = [] → config_ok_but_target_shape c.
Proof.
  unfold validateGameConfig, config_ok_but_target_shape.
  rewrite !app_nil.
  rewrite gridSize_errors_nil, targetValue_errors_nil, spawnValues_errors_nil.
  tauto.
Qed.

Lemma validateGameConfig_nil_spec c :
  targetValue c <= 2 ^ 53 →
  validateGameConfig c = [] ↔
  config_ok_but_target_shape c ∧
  (targetValue c mod 2 ^ 32 = 0 ∨ is_power_of_two (targetValue c mod 2 ^ 32)).
Proof.
  intros Hsmall. unfold validateGameConfig, config_ok_but_target_shape.
  rewrite !app_nil.
  rewrite gridSize_errors_nil, targetValue_errors_nil, spawnValues_errors_nil.
  split.
  - intros (? & Ht & Hp & ?). apply targetShape_errors_nil in Hp; [|lia]. tauto.
  - intros ((? & ? & Ht & ?) & Hp).
    apply targetShape_errors_nil in Hp; [|lia]. tauto.
Qed.

(** X12: for a target of at most [2^53], [validateGameConfig] returns
    the empty list exactly for the configurations that meet every
    constraint on the grid size, the sign of the target and the spawn
    table (the probabilities being added up, and their sum compared with
    1, in double arithmetic), and whose target value, reduced modulo
    [2^32], is 0 or a power of two. *)
Theorem validateGameConfig_nil_exactly c :
  targetValue c <= 2 ^ 53 →
  validateGameConfig c = [] ↔
  config_ok_but_target_shape c ∧
  (targetValue c mod 2 ^ 32 = 0 ∨ is_power_of_two (targetValue c mod 2 ^ 32)).
Proof. apply validateGameConfig_nil_spec. Qed.

Lemma validateGameConfig_nil_exactly_witness :
  validateGameConfig DEFAULT_GAME_CONFIG = [] ↔
  config_ok_but_target_shape DEFAULT_GAME_CONFIG ∧
  (targetValue DEFAULT_GAME_CONFIG mod 2 ^ 32 = 0 ∨
   is_power_of_two (targetValue DEFAULT_GAME_CONFIG mod 2 ^ 32)).
Proof.
  apply (validateGameConfig_nil_exactly DEFAULT_GAME_CONFIG).
  vm_compute. discriminate.
Defined.

(** ** Settings of the interface *)

Lemma validateGridSize_valid x : validateGridSize x ∈ VALID_GRID_SIZES.
Proof.
  unfold validateGridSize. destruct x as [n|]; [case_bool_decide; [done|]|];
    unfold VALID_GRID_SIZES; simpl; repeat constructor.
Qed.

Lemma validateTargetValue_valid x : validateTargetValue x ∈ VALID_TARGET_VALUES.
Proof.
  unfold validateTargetValue. destruct x as [n|]; [case_bool_decide; [done|]|];
    unfold VALID_TARGET_VALUES; simpl; repeat constructor.
Qed.

(** X13: whatever the size and target read from the settings, the
    configuration the hook builds from their validated values and the
    default spawn table is accepted by [validateGameConfig], and its
    undo limit is 10. *)
Theorem validated_settings_accepted x y th m a :
  validateGameConfig
    (convertToGameLogicConfig
       (mkUIConfig (validateGridSize x) (validateTargetValue y)
          DEFAULT_SPAWN_CONFIG th m a)) = [] ∧
  undoLimit
    (convertToGameLogicConfig
       (mkUIConfig (validateGridSize x) (validateTargetValue y)
          DEFAULT_SPAWN_CONFIG th m a)) = 10.
Proof.
  split; [|reflexivity].
  pose proof (validateGridSize_valid x) as Hx.
  pose proof (validateTargetValue_valid y) as Hy.
  unfold convertToGameLogicConfig. simpl.
  generalize dependent (validateGridSize x).
  generalize dependent (validateTargetValue y).
  intros t Ht n Hn.
  apply list_elem_of_In in Ht, Hn. simpl in Ht, Hn.
  repeat (destruct Hn as [<-|Hn]; [|]); [..|done];
    repeat (destruct Ht as [<-|Ht]; [|]); try done; vm_compute; reflexivity.
Qed.

(** ** Available moves *)

Lemma anyM_total {A} (f : A → option bool) (h : A → bool) l :
  (∀ x, In x l → f x = Some (h x)) → anyM f l = Some (existsb h l).
Proof.
  induction l as [|a l IH]; simpl; intros H; [done|].
  rewrite (H a) by auto. destruct (h a); [done|]. apply IH. auto.
Qed.

Lemma within_zcell adj n :
  isWithinBounds adj n = true →
  ∃ r c, adj = zcell r c ∧ (r < n)%nat ∧ (c < n)%nat.
Proof.
  unfold isWithinBounds. rewrite !andb_true_iff, !Z.leb_le, !Z.ltb_lt.
  intros (((H1 & H2) & H3) & H4).
  exists (Z.to_nat (row adj)), (Z.to_nat (col adj)).
  destruct adj as [r c]; unfold zcell; simpl in *.
  rewrite !Z2Nat.id by lia. split; [done|]. lia.
Qed.

Lemma full_no_empty g n :
  square n g → getEmptyCells g = [] → full g n.
Proof.
  intros Hsq Hnil r c Hr Hc.
  destruct (square_cellAt n g r c Hsq Hr Hc) as [[t|] Hx]; [by exists t|].
  apply getEmptyCells_elem in Hx. rewrite Hnil in Hx. done.
Qed.

Lemma tileCanMove_full g n d r c t :
  length g = n → full g n → cellAt g r c = Some (Some t) →
  tileCanMove g d (zcell r c) = equalAt g n t (neighbour d (zcell r c)).
Proof.
  intros <- Hfull Ht. unfold tileCanMove. rewrite grid_at_zcell, Ht.
  assert (Hnx : ∀ nx, isWithinBounds nx (length g) &&
     match grid_at g nx with
     | Some None => true
     | Some (Some t') => bool_decide (value t' = value t)
     | None => false
     end = equalAt g (length g) t nx).
  { intros nx. unfold equalAt.
    destruct (isWithinBounds nx (length g)) eqn:Hin; [|done]. simpl.
    apply within_zcell in Hin as (r' & c' & -> & Hr & Hc).
    rewrite grid_at_zcell. by destruct (Hfull r' c' Hr Hc) as [t' ->]. }
  assert (Hout : ∀ nx, ¬ (0 <= row nx ∧ 0 <= col nx) →
                       equalAt g (length g) t nx = false).
  { intros nx Hneg. unfold equalAt, isWithinBounds.
    destruct (Z.leb_spec 0 (row nx)); destruct (Z.leb_spec 0 (col nx));
      simpl; rewrite ?andb_false_r; try done; lia. }
  destruct d; simpl.
  - destruct (Z.ltb_spec 0 (Z.of_nat r)); [apply Hnx|].
    symmetry. apply Hout. simpl. lia.
  - apply Hnx.
  - destruct (Z.ltb_spec 0 (Z.of_nat c)); [apply Hnx|].
    symmetry. apply Hout. simpl. lia.
  - apply Hnx.
Qed.

Lemma hasMergeAt_full g n r c :
  square n g → length g = n → full g n → (r < n)%nat → (c < n)%nat →
  hasMergeAt g n (r, c)
  = Some (existsb (λ d, tileCanMove g d (zcell r c)) directions).
Proof.
  intros Hsq Hlen Hfull Hr Hc. destruct (Hfull r c Hr Hc) as [t Ht].
  unfold hasMergeAt. cbn [fst snd]. rewrite index_of_nat.
  pose proof Ht as Ht'. unfold cellAt in Ht'.
  destruct (g !! r) as [rw|]; [|done]. rewrite index_of_nat, Ht'.
  erewrite anyM_total with (h := equalAt g n t).
  - unfold directions. cbn [existsb].
    rewrite !(tileCanMove_full g n _ r c t Hlen Hfull Ht). reflexivity.
  - intros adj _. unfold equalAt.
    destruct (isWithinBounds adj n); [|done]. simpl.
    by destruct (grid_at g adj) as [[a|]|].
Qed.

Lemma in_all_cells n r c :
  In (r, c) (flat_map (λ r, map (λ c, (r, c)) (seq 0 n)) (seq 0 n)) ↔
  (r < n)%nat ∧ (c < n)%nat.
Proof.
  rewrite in_flat_map. split.
  - intros (r' & Hr%in_seq & Hin).
    apply in_map_iff in Hin as (c' & [= <- <-] & Hc%in_seq). lia.
  - intros [Hr Hc]. exists r. split; [apply in_seq; lia|].
    apply in_map_iff. exists c. split; [done|]. apply in_seq. lia.
Qed.

Lemma anyTileCanMove_true g d :
  anyTileCanMove g d = true ↔
  ∃ r c, (r < length g)%nat ∧ (c < length g)%nat ∧
         tileCanMove g d (zcell r c) = true.
Proof.
  unfold anyTileCanMove. rewrite existsb_exists. split.
  - intros (x & Hx & Hcan).
    apply traversal_cell_line in Hx as (l & k & Hl & Hk & ->).
    destruct (line_rc_lt d (length g) l k Hl Hk).
    exists (line_rc d (length g) l k).1, (line_rc d (length g) l k).2.
    done.
  - intros (r & c & Hr & Hc & Hcan).
    destruct (line_rc_onto d (length g) r c Hr Hc) as (l & k & Hl & Hk & Hrc).
    exists (line_cell d (length g) l k).
    split; [by apply line_cell_in_traversal|].
    unfold line_cell. by rewrite Hrc.
Qed.

Lemma hasMovesAvailable_full g :
  square (length g) g → getEmptyCells g = [] →
  hasMovesAvailable g = Some (existsb (anyTileCanMove g) directions).
Proof.
  intros Hsq Hnil. pose proof (full_no_empty g _ Hsq Hnil) as Hfull.
  unfold hasMovesAvailable. rewrite Hnil.
  change (0 <? length (@nil Cell))%nat with false. cbv iota.
  erewrite anyM_total
    with (h := λ rc, existsb (λ d, tileCanMove g d (zcell rc.1 rc.2)) directions).
  - apply (f_equal Some), eq_iff_eq_true. rewrite !existsb_exists. split.
    + intros ([r c] & [Hr Hc]%in_all_cells & (d & _ & Hcan)%existsb_exists).
      exists d. split; [destruct d; simpl; tauto|].
      apply anyTileCanMove_true. by exists r, c.
    + intros (d & Hd & (r & c & Hr & Hc & Hcan)%anyTileCanMove_true).
      exists (r, c). split; [by apply in_all_cells|].
      apply existsb_exists. by exists d.
  - intros [r c] [Hr Hc]%in_all_cells. by apply hasMergeAt_full.
Qed.

(** A walk from a cell that is not occupied to one that is goes through
    a step from a free cell to an occupied one. *)
Lemma occupied_change (f : nat → bool) a k :
  f a = false → f (a + k)%nat = true →
  ∃ i, (a ≤ i < a + k)%nat ∧ f i = false ∧ f (S i) = true.
Proof.
  intros Ha. induction k as [|k IH]; intros Hk.
  - rewrite Nat.add_0_r in Hk. congruence.
  - destruct (f (a + k)%nat) eqn:Hf.
    + destruct IH as (i & Hi & H1 & H2); [done|]. exists i. split; [lia|done].
    + exists (a + k)%nat. split; [lia|]. split; [done|].
      by rewrite <- Nat.add_succ_r.
Qed.

(** A tile with an empty cell somewhere between it and the edge it is
    pushed to: some tile of that line can move. *)
Lemma gap_moves g d n l k0 k1 t :
  square n g → length g = n → (l < n)%nat → (k0 < k1 < n)%nat →
  grid_at g (line_cell d n l k1) = Some (Some t) →
  grid_at g (line_cell d n l k0) = Some None →
  anyTileCanMove g d = true.
Proof.
  intros Hsq Hlen Hl Hk Ht He.
  destruct (occupied_change (occupied g d n l) k0 (k1 - k0))
    as (i & Hi & Hfree & Hocc).
  { unfold occupied. by rewrite He. }
  { unfold occupied. replace (k0 + (k1 - k0))%nat with k1 by lia. by rewrite Ht. }
  unfold anyTileCanMove. apply existsb_exists.
  exists (line_cell d n l (S i)). rewrite Hlen.
  split; [apply line_cell_in_traversal; lia|].
  unfold occupied in Hfree, Hocc. unfold tileCanMove.
  destruct (grid_at g (line_cell d n l (S i))) as [[t'|]|]; try done.
  rewrite line_next_S by lia. rewrite Hlen, line_within by lia. simpl.
  destruct (line_rc_lt d n l i) as [H1 H2]; [lia..|].
  destruct (square_cellAt n g _ _ Hsq H1 H2) as [x Hx].
  rewrite <- grid_at_line in Hx. rewrite Hx in *. by destruct x.
Qed.

(** On a board with a tile and an empty cell some tile can move. *)
Lemma some_tile_can_move g :
  square (length g) g → getAllTiles g ≠ [] → getEmptyCells g ≠ [] →
  existsb (anyTileCanMove g) directions = true.
Proof.
  intros Hsq Htiles Hempty. set (n := length g) in *.
  destruct (getAllTiles g) as [|t ts] eqn:Hts; [done|].
  assert (Ht : t ∈ getAllTiles g) by (rewrite Hts; apply list_elem_of_here).
  apply elem_of_getAllTiles in Ht as (r1 & c1 & Ht).
  destruct (getEmptyCells g) as [|e es] eqn:Hes; [done|].
  assert (He : In e (getEmptyCells g)) by (rewrite Hes; by left).
  apply getEmptyCells_In in He as (r0 & c0 & _ & He).
  destruct (cellAt_lt _ _ _ _ _ Hsq Ht) as [Hr1 Hc1].
  destruct (cellAt_lt _ _ _ _ _ Hsq He) as [Hr0 Hc0].
  assert (Hmoves : ∀ d l k0 k1 t',
    (l < n)%nat → (k0 < k1 < n)%nat →
    cellAt g (line_rc d n l k1).1 (line_rc d n l k1).2 = Some (Some t') →
    cellAt g (line_rc d n l k0).1 (line_rc d n l k0).2 = Some None →
    existsb (anyTileCanMove g) directions = true).
  { intros d l k0 k1 t' Hl Hk H1 H0. apply existsb_exists. exists d.
    split; [destruct d; simpl; tauto|].
    apply (gap_moves g d n l k0 k1 t'); try done; by rewrite grid_at_line. }
  destruct (square_cellAt n g r1 c0 Hsq Hr1 Hc0) as [[t'|] Hx].
  - (* column [c0]: a tile in row [r1], a gap in row [r0] *)
    destruct (decide (r0 < r1)%nat).
    + by apply (Hmoves Up c0 r0 r1 t').
    + assert (r1 ≠ r0) by congruence.
      apply (Hmoves Down c0 (n - 1 - r0) (n - 1 - r1) t')%nat; [done|lia|..];
        simpl.
      * by replace (n - 1 - (n - 1 - r1))%nat with r1 by lia.
      * by replace (n - 1 - (n - 1 - r0))%nat with r0 by lia.
  - (* row [r1]: a tile in column [c1], a gap in column [c0] *)
    destruct (decide (c0 < c1)%nat).
    + by apply (Hmoves Left r1 c0 c1 t).
    + assert (c1 ≠ c0) by congruence.
      apply (Hmoves Right r1 (n - 1 - c0) (n - 1 - c1) t)%nat; [done|lia|..];
        simpl.
      * by replace (n - 1 - (n - 1 - c1))%nat with c1 by lia.
      * by replace (n - 1 - (n - 1 - c0))%nat with c0 by lia.
Qed.

Lemma hasMovesAvailable_spec g :
  square (length g) g →
  hasMovesAvailable g
  = Some ((0 <? length (getEmptyCells g))%nat
          || existsb (anyTileCanMove g) directions).
Proof.
  intros Hsq. destruct (getEmptyCells g) as [|e es] eqn:Hes.
  - by rewrite hasMovesAvailable_full.
  - unfold hasMovesAvailable. by rewrite Hes.
Qed.

Lemma hasMovesAvailable_moves g :
  square (length g) g → getAllTiles g ≠ [] →
  hasMovesAvailable g = Some (existsb (anyTileCanMove g) directions).
Proof.
  intros Hsq Htiles. rewrite hasMovesAvailable_spec by done.
  destruct (getEmptyCells g) as [|e es] eqn:Hes; [done|].
  rewrite some_tile_can_move; [done..|]. by rewrite Hes.
Qed.

(** ** A move collapses every line *)

Lemma collapse_cons2 a b r :
  collapse (a :: b :: r)
  = if a =? b then b * 2 :: collapse r else a :: collapse (b :: r).
Proof. reflexivity. Qed.

Lemma push_after_merge o v : push (o, true) v = (v :: o, false).
Proof. by destruct o. Qed.

Lemma pushed_collapse_gen vs :
  (∀ u o, rev (fold_left push vs (u :: o, false)).1
          = rev o ++ collapse (u :: vs)) ∧
  (∀ o, rev (fold_left push vs (o, true)).1 = rev o ++ collapse vs).
Proof.
  induction vs as [|v vs [IH1 IH2]].
  - split; intros; simpl; [done|by rewrite app_nil_r].
  - split.
    + intros u o. rewrite collapse_cons2. cbn [fold_left push].
      destruct (u =? v).
      * rewrite IH2. simpl. by rewrite <- app_assoc.
      * rewrite IH1. simpl. by rewrite <- app_assoc.
    + intros o. cbn [fold_left]. rewrite push_after_merge, IH1. done.
Qed.

Lemma pushed_collapse vs : rev (pushed vs).1 = collapse vs.
Proof.
  unfold pushed. destruct vs as [|v vs]; [done|].
  cbn [fold_left push]. by rewrite (proj1 (pushed_collapse_gen vs)).
Qed.

Lemma pushed_snoc vs v : pushed (vs ++ [v]) = push (pushed vs) v.
Proof. unfold pushed. by rewrite fold_left_app. Qed.

Lemma lineValues_S g d n l k :
  lineValues g d n l (S k)
  = lineValues g d n l k
    ++ map value (slot_tiles (grid_at g (line_cell d n l k))).
Proof.
  unfold lineValues. rewrite seq_S, map_app, cells_tiles_app, map_app.
  simpl. by rewrite app_nil_r.
Qed.

Lemma valueAt_Some_None G c : valueAt G c = Some None ↔ grid_at G c = Some None.
Proof. unfold valueAt. by destruct (grid_at G c) as [[t|]|]. Qed.

Lemma valueAt_Some_Some G c v :
  valueAt G c = Some (Some v) ↔
  ∃ t, grid_at G c = Some (Some t) ∧ value t = v.
Proof.
  unfold valueAt. destruct (grid_at G c) as [[t|]|]; simpl; split;
    try done; try (by intros (? & ? & ?)).
  - intros [= <-]. by exists t.
  - by intros (t' & [= <-] & <-).
Qed.

Lemma cellKey_inj c c' : cellKey c = cellKey c' → c = c'.
Proof. destruct c, c'. unfold cellKey. simpl. congruence. Qed.

Lemma grid_set_line d n G l j v G' :
  square n G → (l < n)%nat → (j < n)%nat →
  grid_set G (line_cell d n l j) v = Some G' →
  square n G' ∧
  ∀ l' k', (l' < n)%nat → (k' < n)%nat →
    grid_at G' (line_cell d n l' k')
    = if decide (l' = l ∧ k' = j) then Some v
      else grid_at G (line_cell d n l' k').
Proof.
  intros Hsq Hl Hj Hset.
  destruct (line_rc_lt d n l j Hl Hj) as [Hr Hc].
  destruct (square_cellAt n G _ _ Hsq Hr Hc) as [old Hold].
  destruct (grid_set_spec n G _ _ old v Hsq Hold)
    as (g'' & Hset' & Hsq' & Hlook & _).
  fold (line_cell d n l j) in Hset'. rewrite Hset in Hset'.
  injection Hset' as <-.
  split; [done|]. intros l' k' Hl' Hk'. rewrite !grid_at_line, Hlook.
  destruct (decide (l' = l ∧ k' = j)) as [[-> ->]|Hne].
  - by rewrite decide_True.
  - rewrite decide_False; [done|]. intros [H1 H2]. apply Hne.
    apply (line_rc_inj d n l' k' l j); [done..|].
    by apply injective_projections.
Qed.

Lemma processCell_tile_exact g d n l k acc t w :
  square n (acc_grid acc) → (l < n)%nat → (k < n)%nat →
  grid_at g (line_cell d n l k) = Some (Some t) →
  grid_at (acc_grid acc) (line_cell d n l k) = Some None →
  ∃ acc' w' j0,
    processCell g d acc (line_cell d n l k) w = Some (acc', w') ∧
    (j0 ≤ k)%nat ∧
    (∀ i, (j0 ≤ i < k)%nat →
          free (acc_grid acc) (acc_mergedCells acc) (line_cell d n l i)) ∧
    ((∃ g',
        grid_set (acc_grid acc) (line_cell d n l j0)
          (Some (with_position t (line_cell d n l j0))) = Some g' ∧
        acc' = mkAcc g' (acc_mergedCells acc) (acc_mergedTiles acc)
                 (acc_moved acc || differs (line_cell d n l j0) (position t))
                 (acc_score acc) ∧
        w' = w ∧
        (j0 = 0%nat ∨
         ∃ j1, j0 = S j1 ∧
           ¬ free (acc_grid acc) (acc_mergedCells acc) (line_cell d n l j1) ∧
           ∀ nt, grid_at (acc_grid acc) (line_cell d n l j1) = Some (Some nt) →
                 value nt = value t →
                 cellKey (line_cell d n l j1) ∈ acc_mergedCells acc))
     ∨
     (∃ j1 nt g',
        j0 = S j1 ∧
        grid_at (acc_grid acc) (line_cell d n l j1) = Some (Some nt) ∧
        value nt = value t ∧
        (cellKey (line_cell d n l j1) ∉ acc_mergedCells acc) ∧
        grid_set (acc_grid acc) (line_cell d n l j1)
          (Some (mergedTile w t nt (line_cell d n l j1))) = Some g' ∧
        acc' = mkAcc g' ({[cellKey (line_cell d n l j1)]} ∪ acc_mergedCells acc)
                 (acc_mergedTiles acc
                  ++ [mergedTile w t nt (line_cell d n l j1)])
                 (acc_moved acc || differs (line_cell d n l j1) (position t))
                 (acc_score acc + value t * 2) ∧
        w' = mkWorld (S (tileIdCounter w)) (Date_now w) (random_calls w)
               (Math_random w))).
Proof.
  intros Hsq Hl Hk Ht Hown. unfold processCell. rewrite Ht.
  destruct (findFarthestPosition_spec d n l k (acc_grid acc)
              (acc_mergedCells acc) Hsq Hl Hk)
    as (j0 & nx & Hff & Hle & Hfree & Hnx).
  unfold bind, lift. rewrite Hff. cbn [fst snd].
  assert (Hempty : grid_at (acc_grid acc) (line_cell d n l j0) = Some None).
  { destruct (decide (j0 = k)) as [->|]; [done|]. apply Hfree. lia. }
  destruct (mergeCandidate (acc_grid acc) (acc_mergedCells acc) t nx)
    as [[c nt]|] eqn:Hmc.
  - apply mergeCandidate_Some in Hmc as (-> & Hnt & Hval & Hnot).
    destruct Hnx as (j1 & -> & -> & _).
    pose proof Hnt as Hnt'. rewrite grid_at_line in Hnt'.
    destruct (grid_set_spec n (acc_grid acc) _ _ _
                (Some (mergedTile w t nt (line_cell d n l j1))) Hsq Hnt')
      as (g' & Hset & _).
    fold (line_cell d n l j1) in Hset.
    unfold createTile, generateTileId, bind, ret. cbn.
    change (with_mergedFrom _ _) with (mergedTile w t nt (line_cell d n l j1)).
    rewrite Hset.
    eexists _, _, (S j1). split; [done|]. split; [done|]. split; [done|].
    right. by exists j1, nt, g'.
  - pose proof Hempty as Hempty'. rewrite grid_at_line in Hempty'.
    destruct (grid_set_spec n (acc_grid acc) _ _ _
      (Some (with_position t (line_cell d n l j0))) Hsq Hempty')
      as (g' & Hset & _).
    fold (line_cell d n l j0) in Hset. rewrite Hset. unfold ret.
    eexists _, _, j0. split; [done|]. split; [done|]. split; [done|].
    left. exists g'. split; [done|]. split; [done|]. split; [done|].
    destruct nx as [c|]; [right|by left].
    destruct Hnx as (j1 & -> & -> & Hnf). exists j1.
    split; [done|]. split; [done|]. intros nt Hnt Hval.
    destruct (decide (cellKey (line_cell d n l j1) ∈ acc_mergedCells acc))
      as [|Hnot]; [done|].
    assert (mergeCandidate (acc_grid acc) (acc_mergedCells acc) t
              (Some (line_cell d n l j1)) = Some (line_cell d n l j1, nt))
      by (by apply mergeCandidate_Some).
    congruence.
Qed.

Lemma lookup_snoc_other {A} (l : list A) (x y : A) i :
  i ≠ length l → (l ++ [x]) !! i = (l ++ [y]) !! i.
Proof.
  intros Hi. destruct (decide (i < length l)%nat).
  - by rewrite !lookup_app_l.
  - rewrite !(proj2 (lookup_ge_None _ _)); [done|rewrite length_app; simpl; lia..].
Qed.

Lemma lookup_snoc_old {A} (l : list A) (x : A) i :
  i ≠ length l → (l ++ [x]) !! i = l !! i.
Proof.
  intros Hi. destruct (decide (i < length l)%nat).
  - by rewrite lookup_app_l.
  - rewrite !(proj2 (lookup_ge_None _ _)); [done|try rewrite length_app; simpl; lia..].
Qed.

Lemma lookup_snoc_last {A} (l : list A) (x : A) :
  (l ++ [x]) !! length l = Some x.
Proof. by rewrite lookup_app_r, Nat.sub_diag. Qed.

Lemma LineBuilt_slide G mc d n l out fr t' G' :
  square n G → (l < n)%nat → (length out < n)%nat →
  LineBuilt G mc d n l (out, fr) →
  grid_set G (line_cell d n l (length out)) (Some t') = Some G' →
  LineBuilt G' mc d n l (value t' :: out, false).
Proof.
  intros Hsq Hl Hm [Hval Hfresh Hclean] Hset. simpl in *.
  destruct (grid_set_line d n G l (length out) _ G' Hsq Hl Hm Hset)
    as [Hsq' Hlook].
  split; simpl.
  - intros i Hi. unfold valueAt. rewrite Hlook by done.
    destruct (decide (l = l ∧ i = length out)) as [[_ ->]|Hne].
    + simpl. rewrite <- (length_rev out). by rewrite lookup_snoc_last.
    + fold (valueAt G (line_cell d n l i)). rewrite Hval by done.
      rewrite lookup_snoc_old; [done|]. rewrite length_rev. tauto.
  - intros i [= ->]. split; [|done]. intros Hin. exfalso.
    by apply (Hclean (length out)).
  - intros i Hi. apply Hclean. lia.
Qed.

Lemma LineBuilt_merge G mc d n l u rest t' G' :
  square n G → (l < n)%nat → (length rest < n)%nat →
  LineBuilt G mc d n l (u :: rest, false) →
  grid_set G (line_cell d n l (length rest)) (Some t') = Some G' →
  LineBuilt G' ({[cellKey (line_cell d n l (length rest))]} ∪ mc) d n l
    (value t' :: rest, true).
Proof.
  intros Hsq Hl Hm [Hval Hfresh Hclean] Hset. simpl in *.
  destruct (grid_set_line d n G l (length rest) _ G' Hsq Hl Hm Hset)
    as [Hsq' Hlook].
  split; simpl.
  - intros i Hi. unfold valueAt. rewrite Hlook by done.
    destruct (decide (l = l ∧ i = length rest)) as [[_ ->]|Hne].
    + simpl. rewrite <- (length_rev rest). by rewrite lookup_snoc_last.
    + fold (valueAt G (line_cell d n l i)). rewrite Hval by done.
      f_equal. apply lookup_snoc_other. rewrite length_rev. tauto.
  - intros i [= ->]. split; [done|]. intros _. set_solver.
  - intros i Hi. apply not_elem_of_union. split.
    + rewrite not_elem_of_singleton. intros Heq%cellKey_inj.
      apply line_cell_inj in Heq; lia.
    + apply Hclean. lia.
Qed.

Lemma Collapsed_step g d n l k acc w :
  square n g → (l < n)%nat → (k < n)%nat → Collapsed g d n l k acc →
  ∃ acc' w', processCell g d acc (line_cell d n l k) w = Some (acc', w') ∧
             Collapsed g d n l (S k) acc'.
Proof.
  intros Hg Hl Hk [Hsq Hdone Hline Hlen Hrest Hmoved].
  specialize (Hline Hl).
  destruct (line_rc_lt d n l k Hl Hk) as [Hr Hc].
  destruct (square_cellAt n g _ _ Hg Hr Hc) as [x Hx].
  rewrite <- grid_at_line in Hx.
  destruct x as [t|].
  2:{ exists acc, w. split; [by apply processCell_null|].
      assert (Hvs : lineValues g d n l (S k) = lineValues g d n l k).
      { rewrite lineValues_S, Hx. simpl. apply app_nil_r. }
      split; rewrite ?Hvs; try done; [lia|].
      intros Hpos Hm. destruct (Hmoved Hpos Hm) as [?|?]; [by left|right; lia]. }
  destruct (pushed (lineValues g d n l k)) as [out fr] eqn:Hst.
  simpl in Hlen, Hmoved.
  assert (Hvs : pushed (lineValues g d n l (S k)) = push (out, fr) (value t)).
  { rewrite lineValues_S, Hx. simpl. by rewrite pushed_snoc, Hst. }
  pose proof Hline as [Hval Hfresh Hclean]. simpl in Hval, Hfresh, Hclean.
  assert (Hocc : ∀ i, (i < length out)%nat →
    ∃ a, grid_at (acc_grid acc) (line_cell d n l i) = Some (Some a) ∧
         rev out !! i = Some (value a)).
  { intros i Hi. specialize (Hval i ltac:(lia)).
    destruct (lookup_lt_is_Some_2 (rev out) i) as [u Hu];
      [rewrite length_rev; lia|].
    rewrite Hu in Hval. apply valueAt_Some_Some in Hval as (a & Ha & <-).
    by exists a. }
  assert (Hemp : ∀ i, (length out ≤ i < n)%nat →
    free (acc_grid acc) (acc_mergedCells acc) (line_cell d n l i)).
  { intros i Hi. split; [|by apply Hclean]. apply valueAt_Some_None.
    rewrite Hval by lia. f_equal. apply lookup_ge_None.
    rewrite length_rev. lia. }
  destruct (processCell_tile_exact g d n l k acc t w Hsq Hl Hk Hx)
    as (acc' & w' & j0 & Hrun & Hle & Hfree & Hcase).
  { apply Hemp. lia. }
  exists acc', w'. split; [done|].
  assert (Hge : (length out ≤ j0)%nat).
  { destruct (decide (length out ≤ j0)%nat); [done|]. exfalso.
    destruct (Hocc j0) as (a & Ha & _); [lia|].
    destruct (Hfree j0) as [Hf _]; [lia|]. congruence. }
  assert (Hothers : ∀ j v G',
    (j < n)%nat → grid_set (acc_grid acc) (line_cell d n l j) v = Some G' →
    square n G' ∧
    (∀ l' i, (l' < l)%nat → (i < n)%nat →
       valueAt G' (line_cell d n l' i)
       = Some (collapse (lineValues g d n l' n) !! i)) ∧
    (∀ l' i, (l < l' < n)%nat → (i < n)%nat →
       grid_at G' (line_cell d n l' i) = Some None)).
  { intros j v G' Hj Hset.
    destruct (grid_set_line d n _ l j v G' Hsq Hl Hj Hset) as [Hsq' Hlook].
    split; [done|]. split.
    - intros l' i Hl' Hi. unfold valueAt.
      rewrite Hlook, decide_False by lia. by apply Hdone.
    - intros l' i Hl' Hi. rewrite Hlook, decide_False by lia.
      by apply Hrest. }
  destruct Hcase as [(g' & Hset & -> & -> & Hwhy)
                    |(j1 & nt & g' & -> & Hnt & Hv & Hnot & Hset & -> & ->)].
  - (* the tile slides to the first empty cell of the line *)
    assert (j0 = length out) as ->.
    { destruct Hwhy as [->|(j1 & -> & Hnf & _)]; [lia|].
      destruct (decide (j1 < length out)%nat); [lia|].
      exfalso. apply Hnf, Hemp. lia. }
    assert (Hpush : push (out, fr) (value t) = (value t :: out, false)).
    { destruct out as [|u rest]; [done|]. destruct fr; [done|]. simpl.
      destruct (Z.eqb_spec u (value t)) as [Heq|]; [|done]. exfalso.
      destruct Hwhy as [Hm|(j1 & [= <-] & _ & Hno)]; [done|].
      destruct (Hocc (length rest)) as (a & Ha & Hu); [simpl; lia|].
      simpl in Hu. rewrite <- (length_rev rest), lookup_snoc_last in Hu.
      injection Hu as Hu.
      apply (Hno a) in Ha; [|congruence].
      by apply (Hfresh (length rest)) in Ha. }
    destruct (Hothers (length out) _ _ ltac:(lia) Hset)
      as (Hsq' & Hdone' & Hrest').
    split; cbn [acc_grid acc_mergedCells acc_moved]; rewrite ?Hvs, ?Hpush.
    + done.
    + done.
    + intros _.
      apply (LineBuilt_slide _ _ d n l out fr
               (with_position t (line_cell d n l (length out))) g' Hsq Hl);
        [lia|done|done].
    + simpl. lia.
    + intros l' i Hl' Hi. split; [by apply Hrest'|by apply Hrest].
    + intros Hpos Hm. simpl.
      assert (Htpos : position t = line_cell d n l k).
      { rewrite grid_at_line in Hx. apply (Hpos _ _ _ Hx). }
      apply orb_true_iff in Hm as [Hm|Hm].
      * destruct (Hmoved Hpos Hm) as [?|?]; [by left|right; lia].
      * right. rewrite Htpos in Hm.
        destruct (decide (length out = k)) as [Heq|]; [|lia].
        rewrite Heq, differs_same in Hm. done.
  - (* the tile merges into the last tile of the line *)
    assert (j1 < length out)%nat as Hj1.
    { destruct (decide (j1 < length out)%nat); [done|]. exfalso.
      destruct (Hemp j1) as [He _]; [lia|]. congruence. }
    assert (length out = S j1) as Hout by lia.
    destruct out as [|u rest]; [done|]. injection Hout as Hout. subst j1.
    destruct (Hocc (length rest)) as (a & Ha & Hu); [simpl; lia|].
    simpl in Hu. rewrite <- (length_rev rest), lookup_snoc_last in Hu.
    injection Hu as Hu. rewrite Hnt in Ha. injection Ha as <-.
    assert (fr = false) as ->.
    { destruct fr; [|done]. exfalso. apply Hnot.
      by apply (Hfresh (length rest)). }
    assert (Hpush : push (u :: rest, false) (value t) = (value t * 2 :: rest, true)).
    { simpl. rewrite Hu, Hv, Z.eqb_refl. done. }
    destruct (Hothers (length rest) _ _ ltac:(simpl in Hlen; lia) Hset)
      as (Hsq' & Hdone' & Hrest').
    split; cbn [acc_grid acc_mergedCells acc_moved]; rewrite ?Hvs, ?Hpush.
    + done.
    + done.
    + intros _.
      apply (LineBuilt_merge _ _ d n l u rest
               (mergedTile w t nt (line_cell d n l (length rest))) g' Hsq Hl);
        [simpl in Hlen; lia|done|done].
    + simpl in *. lia.
    + intros l' i Hl' Hi. split; [by apply Hrest'|].
      apply not_elem_of_union. split; [|by apply Hrest].
      rewrite not_elem_of_singleton. intros Heq%cellKey_inj.
      unfold line_cell, zcell in Heq. injection Heq as H1 H2.
      apply Nat2Z.inj in H1, H2.
      destruct (line_rc_inj d n l' i l (length rest)); [done|simpl in Hlen; lia| |lia].
      by apply injective_projections.
    + intros _ _. right. simpl in *. lia.
Qed.

Lemma Collapsed_init g d n :
  Collapsed g d n 0 0 (mkAcc (createEmptyGrid n) ∅ [] false 0).
Proof.
  assert (Hempty : ∀ l i, (l < n)%nat → (i < n)%nat →
    grid_at (createEmptyGrid n) (line_cell d n l i) = Some None).
  { intros l i Hl Hi. rewrite grid_at_line, cellAt_createEmptyGrid.
    destruct (line_rc_lt d n l i Hl Hi). by rewrite decide_True. }
  split; simpl.
  - apply square_createEmptyGrid.
  - intros; lia.
  - intros Hl. split; simpl.
    + intros i Hi. apply valueAt_Some_None. by apply Hempty.
    + intros i [=].
    + intros i _. set_solver.
  - lia.
  - intros l' i Hl' Hi. split; [apply Hempty; lia|set_solver].
  - done.
Qed.

Lemma Collapsed_next_line g d n l acc :
  (l < n)%nat → Collapsed g d n l n acc → Collapsed g d n (S l) 0 acc.
Proof.
  intros Hl [Hsq Hdone Hline Hlen Hrest Hmoved].
  specialize (Hline Hl). destruct Hline as [Hval _ _].
  split; simpl.
  - done.
  - intros l' i Hl' Hi. destruct (decide (l' = l)) as [->|]; [|apply Hdone; lia].
    rewrite Hval by done. by rewrite pushed_collapse.
  - intros HSl. split; simpl.
    + intros i Hi. apply valueAt_Some_None. apply Hrest; lia.
    + intros i [=].
    + intros i Hi. apply Hrest; lia.
  - lia.
  - intros l' i Hl' Hi. apply Hrest; lia.
  - intros Hpos Hm. left. destruct (Hmoved Hpos Hm) as [(l' & ? & ?)|Hshort].
    + exists l'. split; [lia|done].
    + exists l. split; [lia|]. by rewrite <- pushed_collapse, length_rev.
Qed.

Lemma performMove_lines g d w :
  square (length g) g →
  ∃ r w', performMove g d w = Some (r, w') ∧
    (∀ l i, (l < length g)%nat → (i < length g)%nat →
       valueAt (pm_grid r) (line_cell d (length g) l i)
       = Some (collapse (lineValues g d (length g) l (length g)) !! i)) ∧
    (positions_ok g → pm_moved r = true →
     ∃ l, (l < length g)%nat ∧
          (length (collapse (lineValues g d (length g) l (length g)))
           < length g)%nat).
Proof.
  intros Hg. unfold performMove, bind.
  destruct (traversal_rule g d (length g)
              (λ l k acc _, Collapsed g d (length g) l k acc))
    with (acc := mkAcc (createEmptyGrid (length g)) ∅ [] false 0) (w := w)
    as (acc & w' & -> & [_ Hdone _ _ _ Hmoved]).
  - intros l k acc w1 Hl Hk HI. by apply Collapsed_step.
  - intros l acc _ Hl. by apply Collapsed_next_line.
  - apply Collapsed_init.
  - eexists _, _. split; [done|]. simpl. split; [done|].
    intros Hpos Hm. destruct (Hmoved Hpos Hm) as [?|?]; [done|lia].
Qed.

(** X14: [performMove] collapses every line of a square grid: read from
    the edge the tiles are pushed to, the values of each line of the new
    grid are the values of the tiles of that line of the input with
    equal neighbours merged once, from the edge outwards, followed by
    empty cells. *)
Theorem performMove_collapses_lines g d w :
  square (length g) g →
  ∃ r w', performMove g d w = Some (r, w') ∧
    ∀ l i, (l < length g)%nat → (i < length g)%nat →
      valueAt (pm_grid r) (line_cell d (length g) l i)
      = Some (collapse (lineValues g d (length g) l (length g)) !! i).
Proof.
  intros Hg. destruct (performMove_lines g d w Hg) as (r & w' & Hrun & Hl & _).
  by exists r, w'.
Qed.

Lemma performMove_collapses_lines_witness :
  ∃ r w', performMove grid_2_2 Left world0 = Some (r, w') ∧
    ∀ l i, (l < length grid_2_2)%nat → (i < length grid_2_2)%nat →
      valueAt (pm_grid r) (line_cell Left (length grid_2_2) l i)
      = Some (collapse (lineValues grid_2_2 Left (length grid_2_2) l
                          (length grid_2_2)) !! i).
Proof.
  apply (performMove_collapses_lines grid_2_2 Left world0).
  apply squareb_square. reflexivity.
Defined.

Lemma performMove_room g d w r w' :
  grid_wf g → performMove g d w = Some (r, w') → pm_moved r = true →
  getEmptyCells (pm_grid r) ≠ [].
Proof.
  intros [Hg Hpos] Hrun Hm.
  destruct (performMove_lines g d w Hg) as (r' & w1 & Hrun' & Hlines & Hshort).
  rewrite Hrun in Hrun'. injection Hrun' as <- <-.
  destruct (Hshort Hpos Hm) as (l & Hl & Hlen).
  specialize (Hlines l (length g - 1)%nat Hl ltac:(lia)).
  rewrite (proj2 (lookup_ge_None _ _)) in Hlines by lia.
  apply valueAt_Some_None in Hlines. rewrite grid_at_line in Hlines.
  apply getEmptyCells_elem in Hlines. intros Hnil. by rewrite Hnil in Hlines.
Qed.

(** X15: when [performMove] reports that a tile of a well-formed grid
    has moved, the grid it returns has an empty cell, so the tile spawned
    after a move always finds room. *)
Theorem performMove_moved_leaves_room g d w r w' :
  grid_wf g → performMove g d w = Some (r, w') → pm_moved r = true →
  getEmptyCells (pm_grid r) ≠ [].
Proof. apply performMove_room. Qed.

Lemma slide_2_2_eq : performMove grid_2_2 Left world0 = Some (slid_2_2, world_2_2).
Proof. vm_compute. reflexivity. Qed.

Lemma performMove_moved_leaves_room_witness :
  getEmptyCells (pm_grid slid_2_2) ≠ [].
Proof.
  apply (performMove_moved_leaves_room grid_2_2 Left world0 slid_2_2 world_2_2).
  - apply grid_wfb_sound. reflexivity.
  - exact slide_2_2_eq.
  - reflexivity.
Defined.

(** ** Spawning, exactly *)

Lemma selectSpawnValue_with_spawnable r sv v :
  selectSpawnValue_with r sv = Some v → spawnable sv v.
Proof.
  unfold selectSpawnValue_with.
  destruct (selectSpawnValue_loop r (finite 0) sv) as [v'|] eqn:Hloop.
  - intros [= <-].
    apply selectSpawnValue_loop_Some in Hloop as (i & e & He & -> & _).
    exists e. split; [by eapply list_elem_of_lookup_2|done].
  - destruct (sv !! 0%nat) as [e|] eqn:He; [|done]. intros [= <-].
    exists e. split; [by eapply list_elem_of_lookup_2|done].
Qed.

Lemma spawnRandomTile_spec n g sv w :
  square n g → sv ≠ [] → random_in_range w →
  (getEmptyCells g = [] ∧ spawnRandomTile g sv w = Some (None, w)) ∨
  (∃ r c v g',
     index (getEmptyCells g) (drawnIndex w (length (getEmptyCells g)))
       = Some (zcell r c) ∧
     cellAt g r c = Some None ∧
     selectSpawnValue_with (Math_random w (S (random_calls w))) sv = Some v ∧
     spawnRandomTile g sv w = Some (Some g', world_after w 2 1) ∧
     square n g' ∧
     (∀ r' c', cellAt g' r' c' =
        if decide (r' = r ∧ c' = c)
        then Some (Some (createdTile (world_after w 2 0) (zcell r c) v))
        else cellAt g r' c') ∧
     getAllTiles g' ≡ₚ createdTile (world_after w 2 0) (zcell r c) v
                        :: getAllTiles g).
Proof.
  intros Hsq Hne Hrand. unfold spawnRandomTile.
  case_bool_decide as Hlen.
  { left. split; [by apply length_zero_iff_nil|done]. }
  right. run_M.
  destruct (selectSpawnValue_with_total
              (Math_random w (S (random_calls w))) sv Hne) as [v Hv].
  rewrite Hv.
  destruct (Hrand (random_calls w)) as [H0 H1].
  destruct (index_in_range (getEmptyCells g)
              (drawnIndex w (length (getEmptyCells g)))) as [cell Hcell].
  { apply Qfloor_scaled_range; [done..|lia]. }
  unfold drawnIndex in *. rewrite Hcell.
  pose proof Hcell as Hcell'.
  apply index_In, getEmptyCells_In in Hcell' as (r & c & -> & Hempty).
  rewrite cloneGrid_id.
  destruct (grid_set_spec n g r c None
              (Some (createdTile (world_after w 2 0) (zcell r c) v)) Hsq Hempty)
    as (g' & Hset & Hsq' & Hlook & Hp).
  unfold createdTile, world_after in *. simpl in Hset, Hlook, Hp.
  run_M. rewrite Hset.
  exists r, c, v, g'. simpl. done.
Qed.

(** X16: on a square grid, with a non-empty spawn table and draws in
    [[0, 1)], [spawnRandomTile] never raises; it returns [null], without
    drawing anything, exactly when the grid has no empty cell; otherwise
    it draws two random numbers and one identifier, and returns the grid
    with one cell changed: the empty cell of ordinal [⌊random · count⌋]
    (the product of doubles) in row-major order now holds a fresh tile
    without [mergedFrom],
    standing at that cell, whose value is the entry of the spawn table
    the second draw selects. *)
Theorem spawnRandomTile_exact n g sv w :
  square n g → sv ≠ [] → random_in_range w →
  ∃ o w', spawnRandomTile g sv w = Some (o, w') ∧
    match o with
    | None => getEmptyCells g = [] ∧ w' = w
    | Some g' =>
        getEmptyCells g ≠ [] ∧ w' = world_after w 2 1 ∧ square n g' ∧
        ∃ r c v,
          index (getEmptyCells g) (drawnIndex w (length (getEmptyCells g)))
            = Some (zcell r c) ∧
          cellAt g r c = Some None ∧
          selectSpawnValue_with (Math_random w (S (random_calls w))) sv
            = Some v ∧
          spawnable sv v ∧
          ∀ r' c', cellAt g' r' c' =
            if decide (r' = r ∧ c' = c)
            then Some (Some (createdTile (world_after w 2 0) (zcell r c) v))
            else cellAt g r' c'
    end.
Proof.
  intros Hsq Hne Hrand.
  destruct (spawnRandomTile_spec n g sv w Hsq Hne Hrand)
    as [[Hnil Hrun]|(r & c & v & g' & Hidx & Hempty & Hv & Hrun & Hsq' & Hlook & _)].
  - by exists None, w.
  - exists (Some g'), (world_after w 2 1). split; [done|].
    split. { intros Hnil. apply getEmptyCells_elem in Hempty. by rewrite Hnil in Hempty. }
    split; [done|]. split; [done|]. exists r, c, v.
    split; [done|]. split; [done|]. split; [done|].
    split; [by eapply selectSpawnValue_with_spawnable|done].
Qed.

Lemma spawnRandomTile_exact_witness :
  ∃ o w', spawnRandomTile grid_2_2 DEFAULT_SPAWN_CONFIG world0 = Some (o, w') ∧
    match o with
    | None => getEmptyCells grid_2_2 = [] ∧ w' = world0
    | Some g' =>
        getEmptyCells grid_2_2 ≠ [] ∧ w' = world_after world0 2 1 ∧
        square 4 g' ∧
        ∃ r c v,
          index (getEmptyCells grid_2_2)
                (drawnIndex world0 (length (getEmptyCells grid_2_2)))
            = Some (zcell r c) ∧
          cellAt grid_2_2 r c = Some None ∧
          selectSpawnValue_with (Math_random world0 (S (random_calls world0)))
            DEFAULT_SPAWN_CONFIG = Some v ∧
          spawnable DEFAULT_SPAWN_CONFIG v ∧
          ∀ r' c', cellAt g' r' c' =
            if decide (r' = r ∧ c' = c)
            then Some (Some (createdTile (world_after world0 2 0) (zcell r c) v))
            else cellAt grid_2_2 r' c'
    end.
Proof.
  apply (spawnRandomTile_exact 4 grid_2_2 DEFAULT_SPAWN_CONFIG world0).
  - apply squareb_square. reflexivity.
  - discriminate.
  - apply random_in_range_world0.
Defined.

(** ** Turns, exactly *)

Lemma move_cases s d w r w' :
  move s d w = Some (r, w') →
  r = rejected s ∨
  ∃ pm w1 g' st,
    status s ≠ Lost ∧
    performMove (grid s) d w = Some (pm, w1) ∧ pm_moved pm = true ∧
    spawnRandomTile (pm_grid pm) (spawnValues (config s)) w1
      = Some (Some g', w') ∧
    determineGameStatus g' (targetValue (config s)) (status s) = Some st ∧
    r = mkMoveResult
          (mkState g' (score s + pm_score pm) st
             (slice0 (cloneGameState s false :: previousStates s)
                (undoLimit (config s)))
             (config s) (moveCount s + 1) (wonAndContinued s))
          true (pm_score pm) (pm_mergedTiles pm).
Proof.
  unfold move. case_bool_decide as Hlost; [intros [= <- _]; by left|].
  unfold bind.
  destruct (performMove (grid s) d w) as [[pm w1]|] eqn:Hpm; [|done].
  destruct (pm_moved pm) eqn:Hm; simpl; [|intros [= <- _]; by left].
  destruct (spawnRandomTile (pm_grid pm) _ w1) as [[[g'|] w2]|] eqn:Hsp;
    [|intros [= <- _]; by left|done].
  unfold lift. destruct (determineGameStatus_call4 _ _ _ _) as [st|] eqn:Hst;
    [|done].
  intros [= <- <-]. right. by exists pm, w1, g', st.
Qed.

Lemma determineGameStatus_total g target st :
  square (length g) g → is_Some (determineGameStatus g target st).
Proof.
  intros Hsq. unfold determineGameStatus.
  rewrite hasMovesAvailable_spec by done.
  destruct (bool_decide (st = Won)); [done|].
  destruct (hasWon g target); [done|]. by destruct (_ || _).
Qed.

Lemma move_spec s d w :
  grid_wf (grid s) → spawnValues (config s) ≠ [] → random_in_range w →
  ∃ r w', move s d w = Some (r, w') ∧
    moved r = negb (bool_decide (status s = Lost))
              && anyTileCanMove (grid s) d.
Proof.
  intros Hwf Hsv Hrand. unfold move.
  case_bool_decide as Hlost; [by eexists _, _|]. simpl.
  destruct (performMove_moved_spec (grid s) d w Hwf) as (pm & w1 & Hpm & Hmoved).
  unfold bind. rewrite Hpm, Hmoved.
  destruct (anyTileCanMove (grid s) d) eqn:Hany; simpl; [|by eexists _, _].
  destruct (performMove_conserved (grid s) d w (proj1 Hwf))
    as (pm' & w1' & Hpm' & Hsq1 & _).
  rewrite Hpm in Hpm'. injection Hpm' as <- <-.
  assert (Hrand1 : random_in_range w1).
  { destruct (performMove_random _ _ _ _ _ Hpm) as [Hr _].
    intros k. rewrite Hr. apply Hrand. }
  destruct (spawnRandomTile_spec _ _ _ w1 Hsq1 Hsv Hrand1)
    as [[Hnil _]|(r & c & v & g' & _ & _ & _ & Hspawn & Hsq' & _)].
  { exfalso. by apply (performMove_room _ _ _ _ _ Hwf Hpm). }
  rewrite Hspawn. unfold lift, determineGameStatus_call4.
  destruct (determineGameStatus_total g' (targetValue (config s)) (status s))
    as [st ->].
  { destruct Hsq' as [Hlen Hrows]. by rewrite Hlen. }
  by eexists _, _.
Qed.

(** X17: on a well-formed board, with a non-empty spawn table and draws
    in [[0, 1)], [move] never raises, and it reports [moved = true]
    exactly when the game is not lost and some tile has, in the
    direction of the move, a neighbouring cell of the grid that is empty
    or holds a tile of equal value; the early return for a failed spawn
    is never taken after a move. *)
Theorem move_accepted_iff s d w :
  grid_wf (grid s) → spawnValues (config s) ≠ [] → random_in_range w →
  ∃ r w', move s d w = Some (r, w') ∧
    moved r = negb (bool_decide (status s = Lost))
              && anyTileCanMove (grid s) d.
Proof. apply move_spec. Qed.

Lemma move_accepted_iff_witness :
  ∃ r w', move state_2_4 Right world0 = Some (r, w') ∧
    moved r = negb (bool_decide (status state_2_4 = Lost))
              && anyTileCanMove (grid state_2_4) Right.
Proof.
  apply (move_accepted_iff state_2_4 Right world0).
  - apply grid_wfb_sound. reflexivity.
  - discriminate.
  - apply random_in_range_world0.
Defined.

Lemma tileSum_perm ts ts' : ts ≡ₚ ts' → sum_values ts = sum_values ts'.
Proof.
  induction 1; simpl; lia.
Qed.
Lemma move_accepted_spec s d w r w' :
  grid_wf (grid s) → move s d w = Some (r, w') → moved r = true →
  status s ≠ Lost ∧ anyTileCanMove (grid s) d = true ∧
  mr_score r = sum_values (mergedTiles r) ∧
  score (newState r) = score s + mr_score r ∧
  moveCount (newState r) = moveCount s + 1 ∧
  config (newState r) = config s ∧
  wonAndContinued (newState r) = wonAndContinued s ∧
  grid_wf (grid (newState r)) ∧
  length (grid (newState r)) = length (grid s) ∧
  ∃ t, spawnable (spawnValues (config s)) (value t) ∧
       t ∈ getAllTiles (grid (newState r)) ∧
       tileSum (grid (newState r)) = tileSum (grid s) + value t.
Proof.
  intros Hwf Hmove Hm.
  destruct (move_cases _ _ _ _ _ Hmove)
    as [->|(pm & w1 & g' & st & Hlost & Hpm & Hpmm & Hsp & Hst & ->)]; [done|].
  simpl. split; [done|].
  destruct (performMove_moved_spec (grid s) d w Hwf) as (pm' & w1' & Hpm' & Hiff).
  rewrite Hpm in Hpm'. injection Hpm' as <- <-.
  split; [congruence|].
  destruct (performMove_conserved (grid s) d w (proj1 Hwf))
    as (pm' & w1' & Hpm' & Hsq1 & Hpos1 & Hsum & _ & Hscore).
  rewrite Hpm in Hpm'. injection Hpm' as <- <-.
  split; [done|]. split; [done|]. split; [done|]. split; [done|]. split; [done|].
  destruct (spawnRandomTile_Some _ _ _ _ _ _ Hsq1 Hsp)
    as (r & c & t & Hempty & Htpos & Hv & Hsq' & Hlook & Hp).
  assert (Hlen : length g' = length (grid s)) by apply Hsq'.
  split.
  { split; [by rewrite Hlen|]. intros r' c' t'. rewrite Hlook.
    case_decide as Hd; [|apply Hpos1]. intros [= <-]. by destruct Hd as [-> ->]. }
  split; [done|]. exists t.
  split; [by eapply selectSpawnValue_with_spawnable|].
  split; [rewrite Hp; apply list_elem_of_here|].
  unfold tileSum. rewrite (tileSum_perm _ _ Hp). simpl.
  unfold tileSum in Hsum. lia.
Qed.

(** X18: an accepted move on a well-formed board happens in a game that
    is not lost, in a direction in which some tile can slide or merge;
    it adds to the score the sum of the values of the merged tiles it
    reports, adds one to the move count, keeps the configuration and the
    flag, and yields a well-formed board of the same size whose tiles
    are worth the old ones plus the spawned tile, a value of the spawn
    table. *)
Theorem move_accounting s d w r w' :
  grid_wf (grid s) → move s d w = Some (r, w') → moved r = true →
  status s ≠ Lost ∧ anyTileCanMove (grid s) d = true ∧
  mr_score r = sum_values (mergedTiles r) ∧
  score (newState r) = score s + mr_score r ∧
  moveCount (newState r) = moveCount s + 1 ∧
  config (newState r) = config s ∧
  wonAndContinued (newState r) = wonAndContinued s ∧
  grid_wf (grid (newState r)) ∧
  length (grid (newState r)) = length (grid s) ∧
  ∃ t, spawnable (spawnValues (config s)) (value t) ∧
       t ∈ getAllTiles (grid (newState r)) ∧
       tileSum (grid (newState r)) = tileSum (grid s) + value t.
Proof. apply move_accepted_spec. Qed.

Lemma move_accounting_witness :
  status state0 ≠ Lost ∧ anyTileCanMove (grid state0) Left = true ∧
  mr_score result1 = sum_values (mergedTiles result1) ∧
  score (newState result1) = score state0 + mr_score result1 ∧
  moveCount (newState result1) = moveCount state0 + 1 ∧
  config (newState result1) = config state0 ∧
  wonAndContinued (newState result1) = wonAndContinued state0 ∧
  grid_wf (grid (newState result1)) ∧
  length (grid (newState result1)) = length (grid state0) ∧
  ∃ t, spawnable (spawnValues (config state0)) (value t) ∧
       t ∈ getAllTiles (grid (newState result1)) ∧
       tileSum (grid (newState result1)) = tileSum (grid state0) + value t.
Proof.
  apply (move_accounting state0 Left world1 result1 world2).
  - apply grid_wfb_sound. reflexivity.
  - exact turn1_eq.
  - reflexivity.
Defined.

(** X19: a move never lowers the highest tile of a square board with
    non-negative values. *)
Theorem move_never_lowers_highest s d w r w' :
  square (length (grid s)) (grid s) → nonneg_values (grid s) →
  move s d w = Some (r, w') →
  getHighestTileValue s <= getHighestTileValue (newState r).
Proof.
  intros Hsq Hnn Hmove.
  destruct (move_cases _ _ _ _ _ Hmove)
    as [->|(pm & w1 & g' & st & Hlost & Hpm & Hpmm & Hsp & Hst & ->)];
    [simpl; lia|].
  rewrite !getHighestTileValue_tiles. simpl.
  destruct (fold_higher_spec (getAllTiles (grid s)) 0) as (_ & _ & Hatt).
  destruct (fold_higher_spec (getAllTiles g') 0) as (H0 & Hall & _).
  destruct Hatt as [->|(t & Ht & <-)]; [done|].
  destruct (performMove_dominates _ _ _ _ _ Hsq Hnn Hpm t Ht) as (t' & Ht' & Hle).
  destruct (performMove_conserved (grid s) d w Hsq)
    as (pm' & w1' & Hpm' & Hsq1 & _).
  rewrite Hpm in Hpm'. injection Hpm' as <- <-.
  destruct (spawnRandomTile_Some _ _ _ _ _ _ Hsq1 Hsp)
    as (_ & _ & u & _ & _ & _ & _ & _ & Hp).
  etransitivity; [exact Hle|]. apply Hall. rewrite Hp.
  by apply list_elem_of_further.
Qed.

Lemma move_never_lowers_highest_witness :
  getHighestTileValue state0 <= getHighestTileValue (newState result1).
Proof.
  apply (move_never_lowers_highest state0 Left world1 result1 world2).
  - apply squareb_square. reflexivity.
  - intros t Ht. apply list_elem_of_In in Ht. vm_compute in Ht.
    repeat (destruct Ht as [<-|Ht]; [vm_compute; discriminate|]). done.
  - exact turn1_eq.
Defined.

(** ** The status evaluator, exactly *)

(** X20: on a square grid [hasMovesAvailable] never raises and answers
    whether the grid has an empty cell or two neighbouring tiles of equal
    value; on a grid that holds a tile this is whether some tile can
    slide or merge in one of the four directions. *)
Theorem hasMovesAvailable_exact g :
  square (length g) g →
  hasMovesAvailable g
  = Some ((0 <? length (getEmptyCells g))%nat
          || existsb (anyTileCanMove g) directions) ∧
  (getAllTiles g ≠ [] →
   hasMovesAvailable g = Some (existsb (anyTileCanMove g) directions)).
Proof.
  intros Hsq. split; [by apply hasMovesAvailable_spec|].
  by apply hasMovesAvailable_moves.
Qed.

Lemma hasMovesAvailable_exact_witness :
  hasMovesAvailable grid_full_2x2
  = Some ((0 <? length (getEmptyCells grid_full_2x2))%nat
          || existsb (anyTileCanMove grid_full_2x2) directions) ∧
  (getAllTiles grid_full_2x2 ≠ [] →
   hasMovesAvailable grid_full_2x2
   = Some (existsb (anyTileCanMove grid_full_2x2) directions)).
Proof.
  apply (hasMovesAvailable_exact grid_full_2x2).
  apply squareb_square. reflexivity.
Defined.

(** X21: on a square grid that holds a tile, [determineGameStatus]
    answers [Won] when the current status is [Won] or a tile has reached
    the target; otherwise [Playing] when some tile can slide or merge in
    one of the four directions, and [Lost] when none can. *)
Theorem determineGameStatus_exact g target st :
  square (length g) g → getAllTiles g ≠ [] →
  determineGameStatus g target st
  = Some (if bool_decide (st = Won) || hasWon g target then Won
          else if existsb (anyTileCanMove g) directions then Playing
          else Lost).
Proof.
  intros Hsq Htiles. unfold determineGameStatus.
  rewrite hasMovesAvailable_moves by done.
  destruct (bool_decide (st = Won)); [done|].
  destruct (hasWon g target); [done|]. by destruct (existsb _ _).
Qed.

Lemma determineGameStatus_exact_witness :
  determineGameStatus grid_full_2x2 2048 Playing
  = Some (if bool_decide (Playing = Won) || hasWon grid_full_2x2 2048 then Won
          else if existsb (anyTileCanMove grid_full_2x2) directions then Playing
          else Lost).
Proof.
  apply (determineGameStatus_exact grid_full_2x2 2048 Playing).
  - apply squareb_square. reflexivity.
  - discriminate.
Defined.

(** X22: when the status evaluator answers [Lost] for a well-formed
    grid, the grid has no empty cell and [performMove] moves nothing in
    any direction: it reports [moved = false], score 0 and no merged
    tile, and draws no identifier. *)
Theorem lost_means_stuck g target st :
  grid_wf g → determineGameStatus g target st = Some Lost →
  getEmptyCells g = [] ∧
  ∀ d w, ∃ r, performMove g d w = Some (r, w) ∧
              pm_moved r = false ∧ pm_score r = 0 ∧ pm_mergedTiles r = [].
Proof.
  intros Hwf. unfold determineGameStatus.
  rewrite hasMovesAvailable_spec by apply Hwf.
  destruct (bool_decide (st = Won)); [done|].
  destruct (hasWon g target); [done|].
  destruct (_ || _) eqn:Hor; [done|]. intros _.
  apply orb_false_iff in Hor as [Hempty Hany]. split.
  { apply Nat.ltb_ge in Hempty. apply length_zero_iff_nil. lia. }
  intros d w. apply performMove_unmoved; [done|].
  unfold directions in Hany. simpl in Hany.
  destruct d; repeat (apply orb_false_iff in Hany as [? Hany]); done.
Qed.

Lemma lost_means_stuck_witness :
  getEmptyCells grid_full_2x2 = [] ∧
  ∀ d w, ∃ r, performMove grid_full_2x2 d w = Some (r, w) ∧
              pm_moved r = false ∧ pm_score r = 0 ∧ pm_mergedTiles r = [].
Proof.
  apply (lost_means_stuck grid_full_2x2 2048 Playing).
  - apply grid_wfb_sound. reflexivity.
  - reflexivity.
Defined.

(** ** A new game *)

Lemma cellCount_square n g : square n g → cellCount g = (n * n)%nat.
Proof.
  intros [Hlen Hrows]. unfold cellCount.
  assert (Hall : Forall (λ rw, length rw = n) g).
  { apply list.Forall_forall. intros rw [r Hr]%list_elem_of_lookup. eauto. }
  rewrite <- Hlen at 1. clear Hlen Hrows.
  induction Hall as [|rw g Hrw _ IH]; simpl; [done|]. rewrite IH, Hrw. done.
Qed.

Lemma random_in_range_after w n i :
  random_in_range w → random_in_range (world_after w n i).
Proof. intros H k. apply H. Qed.

(** A grid size within the bounds of the validator makes an array
    exactly when it is an integer. *)
Lemma Array_length_gridSize cfg :
  (3 <= gridSize cfg)%Q → (gridSize cfg <= 6)%Q →
  match Array_length (gridSize cfg) with
  | Some n => (3 ≤ n)%nat ∧ Number_isInteger (gridSize cfg) = true
  | None => Number_isInteger (gridSize cfg) = false
  end.
Proof.
  intros Hlo Hhi. destruct (Array_length (gridSize cfg)) as [n|] eqn:Hlen.
  - pose proof Hlen as Hn. apply Array_length_Some in Hn as [Hn _]. split.
    + rewrite <- Hn in Hlo. change 3%Q with (inject_Z 3) in Hlo.
      rewrite <- Zle_Qle in Hlo. lia.
    + unfold Number_isInteger. apply Qeq_bool_iff. rewrite <- Hn at 1.
      by rewrite Qfloor_Z.
  - unfold Array_length in Hlen.
    destruct (Number_isInteger (gridSize cfg)); [|done]. exfalso.
    assert (H0 : Qle_bool 0 (gridSize cfg) = true).
    { apply Qle_bool_iff. eapply Qle_trans; [|apply Hlo]. done. }
    assert (H32 : Qltb (gridSize cfg) (inject_Z (2 ^ 32)) = true).
    { unfold Qltb. apply negb_true_iff, not_true_iff_false.
      intros Hc. apply Qle_bool_iff in Hc.
      assert (Hc' : (inject_Z (2 ^ 32) <= 6)%Q) by by eapply Qle_trans.
      change 6%Q with (inject_Z 6) in Hc'. rewrite <- Zle_Qle in Hc'. lia. }
    by rewrite H0, H32 in Hlen.
Qed.

Lemma initializeGame_spec cfg w n :
  validateGameConfig cfg = [] → Array_length (gridSize cfg) = Some n →
  random_in_range w →
  ∃ s t1 t2,
    initializeGame cfg w = Some (s, world_after w 4 2) ∧
    grid_wf (grid s) ∧ length (grid s) = n ∧
    getAllTiles (grid s) ≡ₚ [t2; t1] ∧
    spawnable (spawnValues cfg) (value t1) ∧
    spawnable (spawnValues cfg) (value t2) ∧
    score s = 0 ∧ moveCount s = 0 ∧ status s = Playing ∧
    previousStates s = [] ∧ config s = cfg ∧ wonAndContinued s = None.
Proof.
  intros Hvalid Hlen Hrand.
  pose proof (validateGameConfig_nil_shape cfg Hvalid)
    as (Hlo & Hhi & _ & Hsv & _).
  pose proof (Array_length_gridSize cfg Hlo Hhi) as Hn.
  rewrite Hlen in Hn. destruct Hn as [Hn _].
  unfold initializeGame. rewrite Hvalid. simpl.
  unfold bind at 1. unfold lift. rewrite Hlen.
  pose proof (square_createEmptyGrid n) as Hsq0.
  destruct (spawnRandomTile_spec n _ (spawnValues cfg) w Hsq0 Hsv Hrand)
    as [[Hnil _]|(r1 & c1 & v1 & g1 & _ & Hempty1 & Hv1 & Hsp1 & Hsq1 & Hlook1 & Hp1)].
  { exfalso. pose proof (cells_partition (createEmptyGrid n)) as Hcount.
    rewrite Hnil, getAllTiles_createEmptyGrid, (cellCount_square n) in Hcount
      by done.
    simpl in Hcount. nia. }
  rewrite getAllTiles_createEmptyGrid in Hp1.
  destruct (spawnRandomTile_spec n g1 (spawnValues cfg) (world_after w 2 1)
              Hsq1 Hsv (random_in_range_after w 2 1 Hrand))
    as [[Hnil _]|(r2 & c2 & v2 & g2 & _ & Hempty2 & Hv2 & Hsp2 & Hsq2 & Hlook2 & Hp2)].
  { exfalso. pose proof (cells_partition g1) as Hcount.
    rewrite Hnil, (cellCount_square n) in Hcount by done.
    apply Permutation_length in Hp1. simpl in Hp1, Hcount. nia. }
  unfold bind. rewrite Hsp1, Hsp2.
  eexists _, _, _. split; [reflexivity|]. simpl.
  split.
  { split; [by rewrite (proj1 Hsq2)|]. intros r c t. rewrite Hlook2.
    case_decide as Hd2.
    - intros [= <-]. by destruct Hd2 as [-> ->].
    - rewrite Hlook1. case_decide as Hd1.
      + intros [= <-]. by destruct Hd1 as [-> ->].
      + rewrite cellAt_createEmptyGrid. by case_decide. }
  split; [apply Hsq2|].
  split; [by rewrite Hp2, Hp1|].
  split; [by eapply selectSpawnValue_with_spawnable|].
  split; [by eapply selectSpawnValue_with_spawnable|]. done.
Qed.

(** X23: with draws in [[0, 1)], [initializeGame] throws exactly when
    [validateGameConfig] reports an error or the grid size is not an
    integer (the RangeError of [Array(gridSize)]); otherwise, after four
    random draws and two identifiers, it returns a state with score 0,
    move count 0, status [Playing], no history and the given
    configuration, whose board satisfies the grid invariant, has the
    configured size and holds exactly two tiles, each with a value of the
    spawn table. *)
Theorem initializeGame_exact cfg w :
  random_in_range w →
  match initializeGame cfg w with
  | None =>
      validateGameConfig cfg ≠ [] ∨ Number_isInteger (gridSize cfg) = false
  | Some (s, w') =>
      validateGameConfig cfg = [] ∧ Number_isInteger (gridSize cfg) = true ∧
      w' = world_after w 4 2 ∧
      grid_invariant (grid s) ∧
      (inject_Z (Z.of_nat (length (grid s))) == gridSize cfg)%Q ∧
      (∃ t1 t2, getAllTiles (grid s) ≡ₚ [t2; t1] ∧
                spawnable (spawnValues cfg) (value t1) ∧
                spawnable (spawnValues cfg) (value t2)) ∧
      score s = 0 ∧ moveCount s = 0 ∧ status s = Playing ∧
      previousStates s = [] ∧ config s = cfg
  end.
Proof.
  intros Hrand.
  destruct (validateGameConfig cfg) as [|e es] eqn:Hvalid.
  - pose proof (validateGameConfig_nil_shape cfg Hvalid) as (Hlo & Hhi & _).
    pose proof (Array_length_gridSize cfg Hlo Hhi) as Hn.
    destruct (Array_length (gridSize cfg)) as [n|] eqn:Hlen.
    + destruct (initializeGame_spec cfg w n Hvalid Hlen Hrand)
        as (s & t1 & t2 & Hrun & Hwf & Hl & Hp & Hv1 & Hv2 & Hsc & Hmc & Hst
            & Hprev & Hcfg & _).
      rewrite Hrun. split; [done|]. split; [apply Hn|]. split; [done|].
      split; [by apply grid_wf_invariant|].
      split; [rewrite Hl; by apply Array_length_Some in Hlen as [? _]|].
      split; [by exists t1, t2|]. done.
    + unfold initializeGame. rewrite Hvalid. simpl.
      unfold bind, lift. rewrite Hlen. by right.
  - unfold initializeGame. rewrite Hvalid. simpl. by left.
Qed.

Lemma initializeGame_exact_witness :
  match initializeGame DEFAULT_GAME_CONFIG world0 with
  | None =>
      validateGameConfig DEFAULT_GAME_CONFIG ≠ [] ∨
      Number_isInteger (gridSize DEFAULT_GAME_CONFIG) = false
  | Some (s, w') =>
      validateGameConfig DEFAULT_GAME_CONFIG = [] ∧
      Number_isInteger (gridSize DEFAULT_GAME_CONFIG) = true ∧
      w' = world_after world0 4 2 ∧
      grid_invariant (grid s) ∧
      (inject_Z (Z.of_nat (length (grid s))) == gridSize DEFAULT_GAME_CONFIG)%Q ∧
      (∃ t1 t2, getAllTiles (grid s) ≡ₚ [t2; t1] ∧
                spawnable (spawnValues DEFAULT_GAME_CONFIG) (value t1) ∧
                spawnable (spawnValues DEFAULT_GAME_CONFIG) (value t2)) ∧
      score s = 0 ∧ moveCount s = 0 ∧ status s = Playing ∧
      previousStates s = [] ∧ config s = DEFAULT_GAME_CONFIG
  end.
Proof.
  apply (initializeGame_exact DEFAULT_GAME_CONFIG world0).
  apply random_in_range_world0.
Defined.

(** ** Where the tiles of a move come from *)

Lemma cloneCell_id c : cloneCell c = c.
Proof. by destruct c. Qed.

Lemma grid_set_line_tiles d n G l j old v G' :
  square n G → (l < n)%nat → (j < n)%nat →
  grid_at G (line_cell d n l j) = Some old →
  grid_set G (line_cell d n l j) v = Some G' →
  cell_tiles old ++ getAllTiles G' ≡ₚ cell_tiles v ++ getAllTiles G.
Proof.
  intros Hsq Hl Hj Hold Hset. rewrite grid_at_line in Hold.
  destruct (grid_set_spec n G _ _ old v Hsq Hold) as (g'' & Hset' & _ & _ & Hp).
  fold (line_cell d n l j) in Hset'. rewrite Hset in Hset'.
  by injection Hset' as <-.
Qed.

Lemma line_key_inj d n l k l' k' :
  (k < n)%nat → (k' < n)%nat →
  cellKey (line_cell d n l k) = cellKey (line_cell d n l' k') →
  l = l' ∧ k = k'.
Proof.
  intros Hk Hk' Heq%cellKey_inj. unfold line_cell, zcell in Heq.
  injection Heq as H1 H2. apply Nat2Z.inj in H1, H2.
  apply (line_rc_inj d n); [done..|]. by apply injective_projections.
Qed.

Lemma Provenance_step g d n w0 l k acc w :
  square n g → (l < n)%nat → (k < n)%nat → Provenance g d n w0 l k acc w →
  ∃ acc' w', processCell g d acc (line_cell d n l k) w = Some (acc', w') ∧
             Provenance g d n w0 l (S k) acc' w'.
Proof.
  intros Hg Hl Hk [Hcons Hocc Hgrid Hmerged Hcount Hids Hw].
  destruct (Conserved_step g d n l k acc w Hg Hl Hk Hcons)
    as (acc' & w' & Hrun & Hcons').
  exists acc', w'. split; [done|].
  pose proof (cons_square _ _ _ _ _ _ Hcons) as Hsq.
  assert (Hown : grid_at (acc_grid acc) (line_cell d n l k) = Some None).
  { apply (cons_empty _ _ _ _ _ _ Hcons); [done..|]. right. lia. }
  destruct (line_rc_lt d n l k Hl Hk) as [Hr Hc].
  destruct (square_cellAt n g _ _ Hg Hr Hc) as [x Hx].
  rewrite <- grid_at_line in Hx.
  assert (Hlater : ∀ l' k0, ¬ beyond l k l' k0 → ¬ beyond l (S k) l' k0).
  { unfold beyond. lia. }
  assert (Hproc : cells_tiles g (processed d n l (S k))
                  = cells_tiles g (processed d n l k) ++ cell_tiles x).
  { rewrite processed_S, cells_tiles_app. simpl. rewrite Hx. simpl.
    by rewrite app_nil_r. }
  destruct x as [t|].
  2:{ rewrite (processCell_null _ _ _ _ _ Hx) in Hrun.
      injection Hrun as <- <-. split; try done.
      - intros l' k' t' Hl' Hk' Ht'. specialize (Hgrid l' k' t' Hl' Hk' Ht').
        case_decide; [done|].
        destruct Hgrid as (k0 & t0 & ? & ? & ? & ?). exists k0, t0. auto.
      - rewrite Hproc. simpl. by rewrite app_nil_r. }
  destruct (processCell_tile_exact g d n l k acc t w Hsq Hl Hk Hx Hown)
    as (acc2 & w2 & j0 & Hrun2 & Hle & Hfree & Hcase).
  rewrite Hrun in Hrun2. injection Hrun2 as <- <-.
  assert (Hlen1 : length (cells_tiles g (processed d n l (S k)))
                  = S (length (cells_tiles g (processed d n l k)))).
  { rewrite Hproc, length_app. simpl. lia. }
  destruct Hcase as [(g' & Hset & -> & -> & _)
                    |(j1 & nt & g' & -> & Hnt & Hv & Hnot & Hset & -> & ->)].
  - (* the tile slides to distance [j0] *)
    assert (Hempty : grid_at (acc_grid acc) (line_cell d n l j0) = Some None).
    { destruct (decide (j0 = k)) as [->|]; [done|]. apply Hfree. lia. }
    assert (Hclean : cellKey (line_cell d n l j0) ∉ acc_mergedCells acc).
    { intros Hin. by apply (Hocc l j0) in Hin; [|done|lia]. }
    destruct (grid_set_line d n _ l j0 _ g' Hsq Hl ltac:(lia) Hset)
      as [Hsq' Hlook].
    pose proof (grid_set_line_tiles d n _ l j0 _ _ g' Hsq Hl ltac:(lia)
                  Hempty Hset) as Hp.
    split; cbn [acc_grid acc_mergedCells acc_mergedTiles]; try done.
    + intros l' k' Hl' Hk' Hin. rewrite Hlook by done.
      case_decide; [done|]. by apply Hocc.
    + intros l' k' t' Hl' Hk'. rewrite Hlook by done.
      destruct (decide (l' = l ∧ k' = j0)) as [[-> ->]|Hne].
      * intros [= <-]. rewrite decide_False by done.
        exists k, t. split; [lia|]. split; [unfold beyond; lia|]. done.
      * intros Ht'. specialize (Hgrid l' k' t' Hl' Hk' Ht').
        case_decide; [done|].
        destruct Hgrid as (k0 & t0 & ? & ? & ? & ?). exists k0, t0. auto.
    + intros m Hm. destruct (Hmerged m Hm) as (Hfrom & Hat & Hkey).
      split; [done|]. split; [|done].
      destruct Hfrom as (l0 & ka & kb & km & a & b & Hl0 & ? & ? & ? & _ & _
                         & _ & _ & Hpos & _).
      rewrite Hpos in Hat |- *. rewrite Hlook by lia.
      rewrite decide_False; [done|]. intros [-> ->]. congruence.
    + apply Permutation_length in Hp. simpl in Hp. lia.
  - (* the tile merges into the tile at distance [j1] *)
    assert (Hj1 : (j1 < n)%nat) by lia.
    destruct (grid_set_line d n _ l j1 _ g' Hsq Hl Hj1 Hset) as [Hsq' Hlook].
    pose proof (grid_set_line_tiles d n _ l j1 _ _ g' Hsq Hl Hj1 Hnt Hset)
      as Hp.
    pose proof (Hgrid l j1 nt Hl Hj1 Hnt) as Hsrc.
    rewrite decide_False in Hsrc by done.
    destruct Hsrc as (kb & b & Hkb & Hdone & Hb & ->).
    assert (kb < k)%nat as Hkbk by (unfold beyond in Hdone; lia).
    split; cbn [acc_grid acc_mergedCells acc_mergedTiles].
    + done.
    + intros l' k' Hl' Hk' Hin. rewrite Hlook by done.
      case_decide as Hd; [done|]. apply Hocc; [done..|].
      apply elem_of_union in Hin as [Hin|Hin]; [|done].
      apply elem_of_singleton in Hin.
      apply line_key_inj in Hin; [|done..]. tauto.
    + intros l' k' t' Hl' Hk'. rewrite Hlook by done.
      destruct (decide (l' = l ∧ k' = j1)) as [[-> ->]|Hne].
      * intros [= <-]. rewrite decide_True by set_solver.
        split; [|done]. apply elem_of_app. right. apply list_elem_of_here.
      * intros Ht'. specialize (Hgrid l' k' t' Hl' Hk' Ht').
        destruct (decide (cellKey (line_cell d n l' k') ∈ acc_mergedCells acc))
          as [Hin|Hnin].
        -- rewrite decide_True by set_solver.
           split; [|tauto]. apply elem_of_app. left. tauto.
        -- rewrite decide_False.
           2:{ intros [Heq|Hin]%elem_of_union; [|done].
               apply elem_of_singleton in Heq.
               apply line_key_inj in Heq; [|done..]. tauto. }
           destruct Hgrid as (k0 & t0 & ? & ? & ? & ?). exists k0, t0. auto.
    + intros m [Hm|Hm]%elem_of_app.
      * destruct (Hmerged m Hm) as (Hfrom & Hat & Hkey).
        split; [done|]. split; [|set_solver].
        destruct Hfrom as (l0 & ka & kb0 & km & a & b0 & Hl0 & ? & ? & ? & _ & _
                           & _ & _ & Hpos & _).
        rewrite Hpos in Hat, Hkey |- *. rewrite Hlook by lia.
        rewrite decide_False; [done|]. intros [-> ->]. done.
      * apply list_elem_of_singleton in Hm as ->.
        split; [|split].
        -- exists l, k, kb, j1, t, b. unfold mergedTile. simpl.
           rewrite !cloneCell_id, with_position_own. simpl in Hv.
           split; [done|]. split; [lia|]. split; [done|]. split; [done|].
           split; [done|]. split; [done|]. split; [done|]. done.
        -- unfold mergedTile at 1. cbn [position]. rewrite Hlook by done.
           by rewrite decide_True.
        -- unfold mergedTile. cbn [position]. set_solver.
    + apply Permutation_length in Hp. simpl in Hp.
      rewrite length_app. simpl. lia.
    + rewrite map_app, Hids, length_app, seq_app, map_app. simpl.
      rewrite Hw. simpl. by rewrite (Nat.add_comm (tileIdCounter w0)).
    + rewrite Hw, length_app. simpl. unfold world_after. simpl.
      by rewrite Nat.add_1_r.
Qed.

Lemma Provenance_init g d n w :
  Provenance g d n w 0 0 (mkAcc (createEmptyGrid n) ∅ [] false 0) w.
Proof.
  split; simpl.
  - apply Conserved_init.
  - intros l' k' _ _ Hin. set_solver.
  - intros l' k' t' _ _. rewrite grid_at_line, cellAt_createEmptyGrid.
    by case_decide.
  - intros m Hm. by apply elem_of_nil in Hm.
  - by rewrite getAllTiles_createEmptyGrid.
  - done.
  - by destruct w.
Qed.

Lemma Provenance_next_line g d n w0 l acc w :
  Provenance g d n w0 l n acc w → Provenance g d n w0 (S l) 0 acc w.
Proof.
  intros [Hcons Hocc Hgrid Hmerged Hcount Hids Hw]. split; try done.
  - by apply Conserved_next_line.
  - intros l' k' t' Hl' Hk' Ht'. specialize (Hgrid l' k' t' Hl' Hk' Ht').
    case_decide; [done|].
    destruct Hgrid as (k0 & t0 & ? & Hb & ? & ?). exists k0, t0.
    split; [done|]. split; [|done]. unfold beyond in *. lia.
  - by rewrite processed_next_line.
Qed.

Lemma performMove_provenance g d w :
  square (length g) g →
  ∃ r w', performMove g d w = Some (r, w') ∧
    w' = world_after w 0 (length (pm_mergedTiles r)) ∧
    map tid (pm_mergedTiles r)
    = map (λ i, mkTileId (Date_now w i) i)
        (seq (tileIdCounter w) (length (pm_mergedTiles r))) ∧
    (length (getAllTiles (pm_grid r)) + length (pm_mergedTiles r)
     = length (getAllTiles g))%nat ∧
    (∀ m, m ∈ pm_mergedTiles r →
       mergedFromLine g d (length g) m ∧
       grid_at (pm_grid r) (position m) = Some (Some m)) ∧
    (∀ t', t' ∈ getAllTiles (pm_grid r) →
       t' ∈ pm_mergedTiles r ∨
       ∃ t, t ∈ getAllTiles g ∧ t' = with_position t (position t')).
Proof.
  intros Hg. unfold performMove, bind.
  destruct (traversal_rule g d (length g) (Provenance g d (length g) w))
    with (acc := mkAcc (createEmptyGrid (length g)) ∅ [] false 0) (w := w)
    as (acc & w' & -> & [Hcons Hocc Hgrid Hmerged Hcount Hids Hw]).
  - intros l k acc w1 Hl Hk HI. by apply Provenance_step.
  - intros l acc w1 _. apply Provenance_next_line.
  - apply Provenance_init.
  - eexists _, _. split; [done|]. simpl.
    split; [done|]. split; [done|]. split.
    { rewrite Hcount, processed_all.
      by rewrite (cells_tiles_traversal g d (length g) Hg). }
    split.
    { intros m Hm. destruct (Hmerged m Hm) as (? & ? & _). done. }
    intros t' (r & c & Ht')%elem_of_getAllTiles.
    pose proof (cons_square _ _ _ _ _ _ Hcons) as Hsq.
    destruct (cellAt_lt _ _ _ _ _ Hsq Ht') as [Hr Hc].
    destruct (line_rc_onto d (length g) r c Hr Hc) as (l & k & Hl & Hk & Hrc).
    assert (Hat : grid_at (acc_grid acc) (line_cell d (length g) l k)
                  = Some (Some t')) by (by rewrite grid_at_line, Hrc).
    specialize (Hgrid l k t' Hl Hk Hat).
    case_decide; [left; tauto|right].
    destruct Hgrid as (k0 & t & Hk0 & _ & Ht & ->). exists t. split; [|done].
    apply elem_of_getAllTiles. rewrite grid_at_line in Ht. eauto.
Qed.

(** X24: on a square grid, every tile [performMove] reports as merged
    stands in the new grid at its own position and comes from two tiles
    of the input grid, both of half its value and on the same line: the
    tile that moved in, recorded first in [mergedFrom] as it was, and the
    tile nearer to the edge it merged into, recorded second with the
    position of the merge; a tile merged in this move is never the
    source of another merge.  Every other tile of the new grid is an
    input tile with a new position.  The new grid has as many tiles as
    the input less the number of merges, and exactly one identifier is
    generated per merge, in the order of [mergedTiles]. *)
Theorem performMove_merged_tiles g d w :
  square (length g) g →
  ∃ r w', performMove g d w = Some (r, w') ∧
    w' = world_after w 0 (length (pm_mergedTiles r)) ∧
    map tid (pm_mergedTiles r)
    = map (λ i, mkTileId (Date_now w i) i)
        (seq (tileIdCounter w) (length (pm_mergedTiles r))) ∧
    (length (getAllTiles (pm_grid r)) + length (pm_mergedTiles r)
     = length (getAllTiles g))%nat ∧
    (∀ m, m ∈ pm_mergedTiles r →
       mergedFromLine g d (length g) m ∧
       grid_at (pm_grid r) (position m) = Some (Some m)) ∧
    (∀ t', t' ∈ getAllTiles (pm_grid r) →
       t' ∈ pm_mergedTiles r ∨
       ∃ t, t ∈ getAllTiles g ∧ t' = with_position t (position t')).
Proof. apply performMove_provenance. Qed.

Lemma performMove_merged_tiles_witness :
  ∃ r w', performMove grid_2_2 Left world0 = Some (r, w') ∧
    w' = world_after world0 0 (length (pm_mergedTiles r)) ∧
    map tid (pm_mergedTiles r)
    = map (λ i, mkTileId (Date_now world0 i) i)
        (seq (tileIdCounter world0) (length (pm_mergedTiles r))) ∧
    (length (getAllTiles (pm_grid r)) + length (pm_mergedTiles r)
     = length (getAllTiles grid_2_2))%nat ∧
    (∀ m, m ∈ pm_mergedTiles r →
       mergedFromLine grid_2_2 Left (length grid_2_2) m ∧
       grid_at (pm_grid r) (position m) = Some (Some m)) ∧
    (∀ t', t' ∈ getAllTiles (pm_grid r) →
       t' ∈ pm_mergedTiles r ∨
       ∃ t, t ∈ getAllTiles grid_2_2 ∧ t' = with_position t (position t')).
Proof.
  apply (performMove_merged_tiles grid_2_2 Left world0).
  apply squareb_square. reflexivity.
Defined.

(** ** Games in progress *)

Lemma sum_values_nonneg ts : (∀ t, t ∈ ts → 0 <= value t) → 0 <= sum_values ts.
Proof.
  induction ts as [|t ts IH]; intros Hall; simpl; [done|].
  assert (0 <= value t) by (apply Hall, list_elem_of_here).
  assert (0 <= sum_values ts).
  { apply IH. intros u Hu. by apply Hall, list_elem_of_further. }
  lia.
Qed.

Lemma spawnable_positive cfg v :
  validateGameConfig cfg = [] → spawnable (spawnValues cfg) v → 0 < v.
Proof.
  intros Hvalid (e & He & <-).
  pose proof (validateGameConfig_nil_shape cfg Hvalid)
    as (_ & _ & _ & _ & _ & Hall).
  rewrite list.Forall_forall in Hall. by apply Hall.
Qed.

Lemma initializeGame_inv cfg w s w' :
  initializeGame cfg w = Some (s, w') →
  validateGameConfig cfg = [] ∧ grid_wf (grid s) ∧
  Array_length (gridSize cfg) = Some (length (grid s)) ∧
  ∃ t1 t2, getAllTiles (grid s) ≡ₚ [t2; t1] ∧
           spawnable (spawnValues cfg) (value t1) ∧
           spawnable (spawnValues cfg) (value t2).
Proof.
  unfold initializeGame.
  destruct (validateGameConfig cfg) as [|e es] eqn:Hvalid; [|done]. simpl.
  unfold bind, lift. destruct (Array_length (gridSize cfg)) as [n|]; [|done].
  destruct (spawnRandomTile _ _ w) as [[[g1|] w1]|] eqn:Hsp1; [|done..].
  destruct (spawnRandomTile g1 _ w1) as [[[g2|] w2]|] eqn:Hsp2; [|done..].
  intros [= <- <-]. simpl. split; [done|].
  destruct (spawnRandomTile_Some n _ _ _ _ _ (square_createEmptyGrid n) Hsp1)
    as (r1 & c1 & t1 & _ & Hpos1 & Hv1 & Hsq1 & Hlook1 & Hp1).
  destruct (spawnRandomTile_Some n _ _ _ _ _ Hsq1 Hsp2)
    as (r2 & c2 & t2 & _ & Hpos2 & Hv2 & Hsq2 & Hlook2 & Hp2).
  rewrite getAllTiles_createEmptyGrid in Hp1.
  split.
  { split; [by rewrite (proj1 Hsq2)|]. intros r c t. rewrite Hlook2.
    case_decide as Hd2.
    - intros [= <-]. by destruct Hd2 as [-> ->].
    - rewrite Hlook1. case_decide as Hd1.
      + intros [= <-]. by destruct Hd1 as [-> ->].
      + rewrite cellAt_createEmptyGrid. by case_decide. }
  split; [by rewrite (proj1 Hsq2)|]. exists t1, t2.
  split; [by rewrite Hp2, Hp1|].
  split; by eapply selectSpawnValue_with_spawnable.
Qed.

Lemma board_ok_fields cfg s s' :
  grid s' = grid s → config s' = config s → score s' = score s →
  moveCount s' = moveCount s → board_ok cfg s → board_ok cfg s'.
Proof. unfold board_ok. by intros -> -> -> ->. Qed.

Lemma slice0_Forall {A} (P : A → Prop) l e :
  Forall P l → Forall P (slice0 l e).
Proof. intros H. unfold slice0. destruct (e <? 0); by apply Forall_take. Qed.

Lemma slice0_cons_length {A} (x : A) l e :
  Z.of_nat (length l) <= Z.max 0 e →
  Z.of_nat (length (slice0 (x :: l) e)) <= Z.max 0 e.
Proof.
  intros Hl. unfold slice0. destruct (Z.ltb_spec e 0).
  - rewrite length_take. simpl length. lia.
  - rewrite length_take. lia.
Qed.

Lemma move_board_ok cfg s d w r w' :
  validateGameConfig cfg = [] → board_ok cfg s →
  move s d w = Some (r, w') → board_ok cfg (newState r).
Proof.
  intros Hvalid Hok Hmove.
  destruct (move_cases _ _ _ _ _ Hmove)
    as [->|(pm & w1 & g' & st & Hlost & Hpm & Hpmm & Hsp & Hst & ->)]; [done|].
  destruct Hok as ([Hwf _] & Hlen & Htwo & Hposv & Hcfg & Hsc & Hmc).
  destruct (performMove_provenance (grid s) d w (proj1 Hwf))
    as (pm' & w1' & Hpm' & _ & _ & Hcount & Hmerged & Hslid).
  rewrite Hpm in Hpm'. injection Hpm' as <- <-.
  destruct (performMove_conserved (grid s) d w (proj1 Hwf))
    as (pm' & w1' & Hpm' & Hsq1 & Hpos1 & _ & _ & Hscore).
  rewrite Hpm in Hpm'. injection Hpm' as <- <-.
  destruct (spawnRandomTile_Some _ _ _ _ _ _ Hsq1 Hsp)
    as (r & c & t & Hempty & Htpos & Hv & Hsq' & Hlook & Hp).
  assert (Hmpos : ∀ m, m ∈ pm_mergedTiles pm → 0 < value m).
  { intros m Hm. destruct (Hmerged m Hm) as [Hfrom _].
    destruct Hfrom as (l & ka & kb & km & a & b & _ & _ & _ & _ & Ha & _ & _
                       & Hval & _).
    assert (0 < value a); [|lia]. apply Hposv, elem_of_getAllTiles.
    rewrite grid_at_line in Ha. eauto. }
  assert (Hlen' : length g' = length (grid s)) by apply Hsq'.
  unfold board_ok. simpl. split; [|split; [|split; [|split; [|split]]]].
  - apply grid_wf_invariant. split; [by rewrite Hlen'|].
    intros r' c' t'. rewrite Hlook.
    case_decide as Hd; [|apply Hpos1]. intros [= <-]. by destruct Hd as [-> ->].
  - by rewrite Hlen'.
  - rewrite (Permutation_length Hp). simpl.
    destruct (pm_mergedTiles pm) as [|m ms] eqn:Hms; [simpl in Hcount; lia|].
    destruct (Hmerged m) as [_ Hat]; [apply list_elem_of_here|].
    destruct (getAllTiles (pm_grid pm)) as [|u us] eqn:Hout; [|simpl; lia].
    exfalso.
    destruct (Hmerged m) as [Hfrom _]; [apply list_elem_of_here|].
    destruct Hfrom as (l & ka & kb & km & a & b & _ & _ & _ & _ & _ & _ & _
                       & _ & Hposm & _).
    rewrite Hposm, grid_at_line in Hat.
    assert (Hin : m ∈ getAllTiles (pm_grid pm))
      by (apply elem_of_getAllTiles; eauto).
    rewrite Hout in Hin. by apply elem_of_nil in Hin.
  - intros u. rewrite Hp. intros [->|Hu]%elem_of_cons.
    + eapply spawnable_positive; [done|]. rewrite <- Hcfg.
      by eapply selectSpawnValue_with_spawnable.
    + destruct (Hslid u Hu) as [Hm|(t0 & Ht0 & ->)]; [by apply Hmpos|].
      simpl. by apply Hposv.
  - done.
  - split; [|lia]. rewrite Hscore.
    assert (0 <= sum_values (pm_mergedTiles pm)); [|lia].
    apply sum_values_nonneg. intros m Hm. apply Hmpos in Hm. lia.
Qed.

Lemma reachable_game_ok cfg w s0 w0 s :
  initializeGame cfg w = Some (s0, w0) → reachable s0 s → game_ok cfg s.
Proof.
  intros Hinit Hreach.
  destruct (initializeGame_inv _ _ _ _ Hinit)
    as (Hvalid & Hwf0 & Hlen0 & t1 & t2 & Hp0 & Hv1 & Hv2).
  destruct (initializeGame_fresh _ _ _ _ Hinit) as (Hprev0 & Hsc0 & Hmc0 & _ & Hcfg0).
  induction Hreach as [|s d w1 r w1' _ IH Hmove|s _ IH|s _ IH|s _ IH].
  - split; [|split].
    + split; [by apply grid_wf_invariant|]. split; [done|].
      split; [by rewrite (Permutation_length Hp0)|].
      split; [|split; [done|lia]].
      intros t. rewrite Hp0. intros Ht.
      apply (spawnable_positive cfg); [done|].
      apply elem_of_cons in Ht as [->|Ht]; [done|].
      by apply list_elem_of_singleton in Ht as ->.
    + by rewrite Hprev0.
    + rewrite Hprev0. simpl. lia.
  - destruct IH as (Hok & Hhist & Hlen).
    split; [by eapply move_board_ok|].
    destruct (move_cases _ _ _ _ _ Hmove)
      as [->|(pm & w2 & g' & st & _ & _ & _ & _ & _ & ->)]; [done|].
    simpl. destruct Hok as (? & ? & ? & ? & Hcfg & ?). rewrite Hcfg. split.
    + apply slice0_Forall. constructor; [|done]. split; [|done].
      apply (board_ok_fields cfg s); try done.
      unfold cloneGameState. simpl. apply cloneGrid_id.
    + by apply slice0_cons_length.
  - destruct IH as (Hok & Hhist & Hlen). unfold undo.
    destruct (previousStates s) as [|p ps] eqn:Hps.
    { split; [done|]. by rewrite Hps. }
    apply Forall_cons in Hhist as [[Hp _] Hrest].
    split; [by apply (board_ok_fields cfg p)|]. simpl.
    split; [done|]. simpl in Hlen. lia.
  - destruct IH as (Hok & Hhist & Hlen). unfold continueAfterWin.
    case_bool_decide; [|done].
    split; [by apply (board_ok_fields cfg s)|]. done.
  - destruct IH as (Hok & Hhist & Hlen). unfold hook_continueGame.
    case_bool_decide; [|done].
    split; [by apply (board_ok_fields cfg s)|]. done.
Qed.

(** X25: every state reached from a new game by moves, undos and
    continuations keeps the configuration of the game; its board
    satisfies the grid invariant, has the configured size and holds at
    least two tiles, all of positive value; score and move count are
    never negative; the same holds of every state kept in the history,
    none of which carries a history of its own; the history is never
    longer than [maxUndoStates || 10] (and stays empty when that is
    negative); a snapshot of the state is equal to it; and with draws
    in [[0, 1)] [resetGame] never throws on it and starts a game with
    the same configuration. *)
Theorem reachable_invariant cfg w s0 w0 s :
  initializeGame cfg w = Some (s0, w0) → reachable s0 s →
  game_ok cfg s ∧ createStateSnapshot s = s ∧
  ∀ w1, random_in_range w1 →
    ∃ s1, resetGame s w1 = Some (s1, world_after w1 4 2) ∧ game_ok cfg s1.
Proof.
  intros Hinit Hreach.
  pose proof (reachable_game_ok _ _ _ _ _ Hinit Hreach) as Hok.
  split; [done|]. destruct Hok as ((_ & _ & _ & _ & Hcfg & _) & Hhist & _).
  split.
  - unfold createStateSnapshot, cloneGameState.
    rewrite cloneGrid_id, map_cloneGameState_flat_id; [by destruct s|].
    eapply Forall_impl; [exact Hhist|]. by intros p [_ ?].
  - intros w1 Hrand. unfold resetGame. rewrite Hcfg.
    destruct (initializeGame_inv _ _ _ _ Hinit) as (Hvalid & _ & Hlen & _).
    destruct (initializeGame_spec cfg w1 _ Hvalid Hlen Hrand)
      as (s1 & _ & _ & Hrun & _).
    exists s1. split; [done|].
    eapply reachable_game_ok; [exact Hrun|apply reach_start].
Qed.

Lemma reachable_invariant_witness :
  game_ok DEFAULT_GAME_CONFIG (undo (newState result1)) ∧
  createStateSnapshot (undo (newState result1)) = undo (newState result1) ∧
  ∀ w1, random_in_range w1 →
    ∃ s1, resetGame (undo (newState result1)) w1
            = Some (s1, world_after w1 4 2) ∧
          game_ok DEFAULT_GAME_CONFIG s1.
Proof.
  apply (reachable_invariant DEFAULT_GAME_CONFIG world0 state0 world1).
  - exact game0_eq.
  - apply reach_undo. eapply reach_move; [apply reach_start|exact turn1_eq].
Defined.

(** ** The continuation of the hook *)

(** X26: the hook's [continueGame] returns the state [continueAfterWin]
    returns, except that it leaves the [wonAndContinued] flag as it was;
    since [move] never reads that flag, every move made after either of
    them yields the same grid, score, status, [moved] flag and score
    gained. *)
Theorem hook_continueGame_plays_alike s d w :
  hook_continueGame s = with_flag (continueAfterWin s) (wonAndContinued s) ∧
  turn_summary (move (hook_continueGame s) d w)
  = turn_summary (move (continueAfterWin s) d w).
Proof.
  assert (Heq : hook_continueGame s
                = with_flag (continueAfterWin s) (wonAndContinued s)).
  { unfold hook_continueGame, continueAfterWin, with_flag.
    case_bool_decide; [done|]. by destruct s. }
  split; [done|]. rewrite Heq. apply move_ignores_wonAndContinued.
Qed.

(** ** Undo after a move *)

(** X27: when the history of a state is shorter than the undo limit,
    undoing an accepted move gives back the state itself, whole: grid,
    score, status, history, configuration, move count and flag. *)
Theorem undo_move_identity s d w r w' :
  move s d w = Some (r, w') → moved r = true →
  Z.of_nat (length (previousStates s)) < undoLimit (config s) →
  undo (newState r) = s.
Proof.
  intros Hmove Hmoved Hlen.
  destruct (move_accepted _ _ _ _ _ Hmove Hmoved) as (g' & st & ->).
  rewrite slice0_all by (simpl; lia).
  unfold undo. simpl. rewrite cloneGrid_id. by destruct s.
Qed.

Lemma undo_move_identity_witness : undo (newState result1) = state0.
Proof.
  apply (undo_move_identity state0 Left world1 result1 world2).
  - exact turn1_eq.
  - reflexivity.
  - vm_compute. reflexivity.
Defined.

(** ** Identifiers are never reused *)

Lemma processCell_counter g d acc c w acc' w' :
  processCell g d acc c w = Some (acc', w') →
  (tileIdCounter w ≤ tileIdCounter w')%nat.
Proof.
  unfold processCell. destruct (grid_at g c) as [[t|]|]; [|by intros [= _ <-]|done].
  unfold bind at 1. unfold lift at 1.
  destruct (findFarthestPosition _ _ _ _) as [[f nx]|]; [|done].
  cbn [fst snd].
  destruct (mergeCandidate _ _ _ _) as [[c' nt]|]; run_M.
  - destruct (grid_set _ _ _); [|done]. intros [= _ <-]. simpl. lia.
  - destruct (grid_set _ _ _); [|done]. by intros [= _ <-].
Qed.

Lemma foldM_counter g d cs acc w acc' w' :
  foldM (processCell g d) cs acc w = Some (acc', w') →
  (tileIdCounter w ≤ tileIdCounter w')%nat.
Proof.
  revert acc w. induction cs as [|c cs IH]; intros acc w; simpl.
  - by intros [= _ <-].
  - unfold bind.
    destruct (processCell g d acc c w) as [[acc1 w1]|] eqn:Hstep; [|done].
    intros Hrest. apply processCell_counter in Hstep. apply IH in Hrest. lia.
Qed.

Lemma performMove_counter g d w r w' :
  performMove g d w = Some (r, w') → (tileIdCounter w ≤ tileIdCounter w')%nat.
Proof.
  unfold performMove, bind.
  destruct (foldM _ _ _ w) as [[acc w1]|] eqn:Hfold; [|done].
  intros [= _ <-]. by eapply foldM_counter.
Qed.

Lemma spawnRandomTile_counter g sv w o w' :
  spawnRandomTile g sv w = Some (o, w') →
  (tileIdCounter w ≤ tileIdCounter w')%nat.
Proof.
  unfold spawnRandomTile. case_bool_decide; [by intros [= _ <-]|]. run_M.
  destruct (selectSpawnValue_with _ sv) as [v|]; [|done].
  destruct (index (getEmptyCells g) _) as [cell|]; [|done].
  destruct (grid_set _ _ _); [|done]. intros [= _ <-]. simpl. lia.
Qed.

Lemma move_counter s d w r w' :
  move s d w = Some (r, w') → (tileIdCounter w ≤ tileIdCounter w')%nat.
Proof.
  unfold move. case_bool_decide; [by intros [= _ <-]|]. unfold bind.
  destruct (performMove (grid s) d w) as [[pm w1]|] eqn:Hpm; [|done].
  apply performMove_counter in Hpm.
  destruct (pm_moved pm); simpl; [|by intros [= _ <-]].
  destruct (spawnRandomTile (pm_grid pm) _ w1) as [[o w2]|] eqn:Hsp; [|done].
  apply spawnRandomTile_counter in Hsp.
  destruct o as [g'|]; [|intros [= _ <-]; lia].
  unfold lift. destruct (determineGameStatus_call4 _ _ _ _); [|done].
  intros [= _ <-]. lia.
Qed.

Lemma merged_serial (w0 : World) (ms : list Tile) m :
  map tid ms = map (λ i, mkTileId (Date_now w0 i) i)
                 (seq (tileIdCounter w0) (length ms)) →
  m ∈ ms →
  (tileIdCounter w0 ≤ serial (tid m) < tileIdCounter w0 + length ms)%nat.
Proof.
  intros Hids Hm.
  assert (Hin : tid m ∈ map tid ms) by (by apply list_elem_of_fmap_2).
  rewrite Hids in Hin. apply list_elem_of_fmap in Hin as (i & -> & Hi).
  apply list_elem_of_In, in_seq in Hi. simpl. lia.
Qed.

Lemma distinct_set d n G l j tnew G' :
  square n G → (l < n)%nat → (j < n)%nat →
  grid_set G (line_cell d n l j) (Some tnew) = Some G' →
  (∀ l2 k2 t2, (l2 < n)%nat → (k2 < n)%nat →
     grid_at G (line_cell d n l2 k2) = Some (Some t2) →
     ¬ (l2 = l ∧ k2 = j) → tid tnew ≠ tid t2) →
  distinct_on_lines d n G → distinct_on_lines d n G'.
Proof.
  intros Hsq Hl Hj Hset Hnew Hdist.
  destruct (grid_set_line d n G l j _ G' Hsq Hl Hj Hset) as [_ Hlook].
  intros l1 k1 l2 k2 t1 t2 Hl1 Hk1 Hl2 Hk2. rewrite !Hlook by done.
  destruct (decide (l1 = l ∧ k1 = j)) as [[-> ->]|Hne1];
    destruct (decide (l2 = l ∧ k2 = j)) as [[-> ->]|Hne2]; try done.
  - intros [= <-] Ht2 Heq. by destruct (Hnew l2 k2 t2).
  - intros Ht1 [= <-] Heq. by destruct (Hnew l1 k1 t1).
  - apply Hdist; done.
Qed.

Lemma Distinct_step g d n w0 l k acc w :
  square n g → unique_ids g → ids_below w0 g →
  (l < n)%nat → (k < n)%nat → Distinct g d n w0 l k acc w →
  ∃ acc' w', processCell g d acc (line_cell d n l k) w = Some (acc', w') ∧
             Distinct g d n w0 l (S k) acc' w'.
Proof.
  intros Hg Huniq Hbelow Hl Hk [Hprov Hdist].
  destruct (Provenance_step g d n w0 l k acc w Hg Hl Hk Hprov)
    as (acc' & w' & Hrun & Hprov').
  exists acc', w'. split; [done|]. split; [done|].
  destruct Hprov as [Hcons Hocc Hgrid Hmerged Hcount Hids Hw].
  pose proof (cons_square _ _ _ _ _ _ Hcons) as Hsq.
  assert (Hown : grid_at (acc_grid acc) (line_cell d n l k) = Some None).
  { apply (cons_empty _ _ _ _ _ _ Hcons); [done..|]. right. lia. }
  destruct (line_rc_lt d n l k Hl Hk) as [Hr Hc].
  destruct (square_cellAt n g _ _ Hg Hr Hc) as [x Hx].
  rewrite <- grid_at_line in Hx.
  destruct x as [t|].
  2:{ rewrite (processCell_null _ _ _ _ _ Hx) in Hrun. by injection Hrun as <- <-. }
  (* the tiles already placed: merged in this turn, or input tiles *)
  assert (Hold : ∀ l2 k2 t2, (l2 < n)%nat → (k2 < n)%nat →
    grid_at (acc_grid acc) (line_cell d n l2 k2) = Some (Some t2) →
    (tileIdCounter w0 ≤ serial (tid t2)
     < tileIdCounter w0 + length (acc_mergedTiles acc))%nat ∨
    ∃ k0 t0, (k0 < n)%nat ∧ ¬ beyond l k l2 k0 ∧
      grid_at g (line_cell d n l2 k0) = Some (Some t0) ∧ tid t2 = tid t0).
  { intros l2 k2 t2 Hl2 Hk2 Ht2. specialize (Hgrid l2 k2 t2 Hl2 Hk2 Ht2).
    case_decide.
    - left. apply (merged_serial w0 _ _ Hids). tauto.
    - right. destruct Hgrid as (k0 & t0 & ? & ? & ? & ->).
      exists k0, t0. split; [lia|]. done. }
  assert (Hinput : ∀ l2 k0 t0, (l2 < n)%nat → (k0 < n)%nat →
    grid_at g (line_cell d n l2 k0) = Some (Some t0) →
    (serial (tid t0) < tileIdCounter w0)%nat).
  { intros l2 k0 t0 _ _ Ht0. apply Hbelow, elem_of_getAllTiles.
    rewrite grid_at_line in Ht0. eauto. }
  destruct (processCell_tile_exact g d n l k acc t w Hsq Hl Hk Hx Hown)
    as (acc2 & w2 & j0 & Hrun2 & Hle & Hfree & Hcase).
  rewrite Hrun in Hrun2. injection Hrun2 as <- <-.
  destruct Hcase as [(g' & Hset & -> & -> & _)
                    |(j1 & nt & g' & -> & Hnt & Hv & Hnot & Hset & -> & ->)].
  - apply (distinct_set d n (acc_grid acc) l j0 _ g' Hsq Hl ltac:(lia) Hset);
      [|done].
    intros l2 k2 t2 Hl2 Hk2 Ht2 _. simpl.
    destruct (Hold l2 k2 t2 Hl2 Hk2 Ht2) as [Hser|(k0 & t0 & Hk0 & Hdone & Ht0 & ->)].
    + specialize (Hinput l k t Hl Hk Hx). intros Heq. rewrite Heq in Hinput. lia.
    + intros Heq. rewrite !grid_at_line in Hx, Ht0.
      destruct (Huniq _ _ _ _ _ _ Hx Ht0 Heq) as [H1 H2].
      destruct (line_rc_inj d n l k l2 k0); [done..| |].
      { by apply injective_projections. }
      subst. apply Hdone. right. lia.
  - apply (distinct_set d n (acc_grid acc) l j1 _ g' Hsq Hl ltac:(lia) Hset);
      [|done].
    intros l2 k2 t2 Hl2 Hk2 Ht2 _. unfold mergedTile. cbn [tid].
    rewrite Hw. simpl.
    destruct (Hold l2 k2 t2 Hl2 Hk2 Ht2) as [Hser|(k0 & t0 & Hk0 & Hdone & Ht0 & ->)].
    + intros Heq. rewrite <- Heq in Hser. simpl in Hser. lia.
    + specialize (Hinput l2 k0 t0 Hl2 Hk0 Ht0).
      intros Heq. rewrite <- Heq in Hinput. simpl in Hinput. lia.
Qed.

Lemma performMove_ids g d w :
  square (length g) g → unique_ids g → ids_below w g →
  ∃ r w', performMove g d w = Some (r, w') ∧
    unique_ids (pm_grid r) ∧ ids_below w' (pm_grid r).
Proof.
  intros Hg Huniq Hbelow.
  destruct (performMove_provenance g d w Hg)
    as (r0 & w0' & Hrun0 & Hw0 & Hids0 & _ & _ & Hslid0).
  unfold performMove, bind in *.
  destruct (traversal_rule g d (length g) (Distinct g d (length g) w))
    with (acc := mkAcc (createEmptyGrid (length g)) ∅ [] false 0) (w := w)
    as (acc & w' & Hfold & [Hprov Hdist]).
  - intros l k acc w1 Hl Hk HI. by apply Distinct_step.
  - intros l acc w1 _ [Hprov Hdist]. split; [|done].
    by apply Provenance_next_line.
  - split; [apply Provenance_init|].
    intros l1 k1 l2 k2 t1 t2 _ _ _ _. simpl.
    rewrite grid_at_line, cellAt_createEmptyGrid. by case_decide.
  - rewrite Hfold in Hrun0 |- *. injection Hrun0 as <- <-.
    eexists _, _. split; [done|]. simpl in *. split.
    + pose proof (cons_square _ _ _ _ _ _ (pv_conserved _ _ _ _ _ _ _ _ Hprov))
        as Hsq.
      intros r1 c1 r2 c2 t1 t2 Ht1 Ht2 Heq.
      destruct (cellAt_lt _ _ _ _ _ Hsq Ht1) as [Hr1 Hc1].
      destruct (cellAt_lt _ _ _ _ _ Hsq Ht2) as [Hr2 Hc2].
      destruct (line_rc_onto d (length g) r1 c1 Hr1 Hc1) as (l1 & k1 & ? & ? & Hrc1).
      destruct (line_rc_onto d (length g) r2 c2 Hr2 Hc2) as (l2 & k2 & ? & ? & Hrc2).
      destruct (Hdist l1 k1 l2 k2 t1 t2) as [-> ->]; try done.
      * by rewrite grid_at_line, Hrc1.
      * by rewrite grid_at_line, Hrc2.
      * rewrite Hrc1 in Hrc2. by injection Hrc2 as -> ->.
    + intros t' Ht'. rewrite Hw0. simpl.
      destruct (Hslid0 t' Ht') as [Hm|(t & Ht & ->)].
      * pose proof (merged_serial w _ _ Hids0 Hm). lia.
      * simpl. apply Hbelow in Ht. lia.
Qed.

Lemma spawnRandomTile_ids n g sv w g' w' :
  square n g → unique_ids g → ids_below w g →
  spawnRandomTile g sv w = Some (Some g', w') →
  unique_ids g' ∧ ids_below w' g'.
Proof.
  intros Hsq Huniq Hbelow. unfold spawnRandomTile. case_bool_decide; [done|].
  run_M.
  destruct (selectSpawnValue_with _ sv) as [v|] eqn:Hv; [|done].
  destruct (index (getEmptyCells g) _) as [cell|] eqn:Hcell; [|done].
  apply index_In, getEmptyCells_In in Hcell as (r & c & -> & Hempty).
  rewrite cloneGrid_id.
  destruct (grid_set g (zcell r c) _) as [g1|] eqn:Hset; [|done].
  intros [= <- <-].
  match type of Hset with
  | grid_set _ _ (Some ?t) = _ =>
      destruct (grid_set_spec n g r c None (Some t) Hsq Hempty)
        as (g'' & Hset' & Hsq' & Hlook & Hp)
  end.
  rewrite Hset in Hset'. injection Hset' as <-. simpl in Hp. split.
  - intros r1 c1 r2 c2 t1 t2. rewrite !Hlook.
    destruct (decide (r1 = r ∧ c1 = c)) as [[-> ->]|Hne1];
      destruct (decide (r2 = r ∧ c2 = c)) as [[-> ->]|Hne2]; try done.
    + intros [= <-] Ht2 Heq. exfalso.
      assert (Hin : t2 ∈ getAllTiles g) by (apply elem_of_getAllTiles; eauto).
      apply Hbelow in Hin. rewrite <- Heq in Hin. simpl in Hin. lia.
    + intros Ht1 [= <-] Heq. exfalso.
      assert (Hin : t1 ∈ getAllTiles g) by (apply elem_of_getAllTiles; eauto).
      apply Hbelow in Hin. rewrite Heq in Hin. simpl in Hin. lia.
    + apply Huniq.
  - intros t. rewrite Hp. intros [->|Ht]%elem_of_cons; simpl; [lia|].
    apply Hbelow in Ht. lia.
Qed.

Lemma ids_below_mono w w' g :
  (tileIdCounter w ≤ tileIdCounter w')%nat → ids_below w g → ids_below w' g.
Proof. intros Hle Hb t Ht. apply Hb in Ht. lia. Qed.

Lemma ids_ok_mono w w' s :
  (tileIdCounter w ≤ tileIdCounter w')%nat → ids_ok w s → ids_ok w' s.
Proof.
  intros Hle (? & ? & ?). split; [done|]. split; [done|].
  by eapply ids_below_mono.
Qed.

Lemma ids_ok_fields w s s' : grid s' = grid s → ids_ok w s → ids_ok w s'.
Proof. unfold ids_ok. by intros ->. Qed.

Lemma move_ids_ok s d w r w' :
  ids_ok w s → move s d w = Some (r, w') → ids_ok w' (newState r).
Proof.
  intros Hok Hmove. pose proof (move_counter _ _ _ _ _ Hmove) as Hle.
  destruct (move_cases _ _ _ _ _ Hmove)
    as [->|(pm & w1 & g' & st & _ & Hpm & _ & Hsp & _ & ->)].
  { by eapply ids_ok_mono. }
  destruct Hok as (Hsq & Huniq & Hbelow).
  destruct (performMove_ids (grid s) d w Hsq Huniq Hbelow)
    as (pm' & w1' & Hpm' & Huniq1 & Hbelow1).
  rewrite Hpm in Hpm'. injection Hpm' as <- <-.
  destruct (performMove_conserved (grid s) d w Hsq)
    as (pm' & w1' & Hpm' & Hsq1 & _).
  rewrite Hpm in Hpm'. injection Hpm' as <- <-.
  destruct (spawnRandomTile_ids _ _ _ _ _ _ Hsq1 Huniq1 Hbelow1 Hsp)
    as [Huniq' Hbelow'].
  destruct (spawnRandomTile_Some _ _ _ _ _ _ Hsq1 Hsp)
    as (_ & _ & _ & _ & _ & _ & Hsq' & _).
  split; [|done]. simpl. by rewrite (proj1 Hsq').
Qed.

Lemma initializeGame_ids_ok cfg w s w' :
  initializeGame cfg w = Some (s, w') → ids_ok w' s.
Proof.
  unfold initializeGame.
  destruct (0 <? length (validateGameConfig cfg))%nat; [done|].
  unfold bind, lift. destruct (Array_length (gridSize cfg)) as [n|]; [|done].
  destruct (spawnRandomTile _ _ w) as [[[g1|] w1]|] eqn:Hsp1; [|done..].
  destruct (spawnRandomTile g1 _ w1) as [[[g2|] w2]|] eqn:Hsp2; [|done..].
  intros [= <- <-].
  pose proof (square_createEmptyGrid n) as Hsq0.
  assert (Huniq0 : unique_ids (createEmptyGrid n)).
  { intros r1 c1 r2 c2 t1 t2. rewrite cellAt_createEmptyGrid. by case_decide. }
  assert (Hbelow0 : ids_below w (createEmptyGrid n)).
  { intros t. rewrite getAllTiles_createEmptyGrid. intros Ht.
    by apply elem_of_nil in Ht. }
  destruct (spawnRandomTile_ids n _ _ _ _ _ Hsq0 Huniq0 Hbelow0 Hsp1)
    as [Huniq1 Hbelow1].
  destruct (spawnRandomTile_Some n _ _ _ _ _ Hsq0 Hsp1)
    as (_ & _ & _ & _ & _ & _ & Hsq1 & _).
  destruct (spawnRandomTile_ids n _ _ _ _ _ Hsq1 Huniq1 Hbelow1 Hsp2)
    as [Huniq2 Hbelow2].
  destruct (spawnRandomTile_Some n _ _ _ _ _ Hsq1 Hsp2)
    as (_ & _ & _ & _ & _ & _ & Hsq2 & _).
  split; [|done]. simpl. by rewrite (proj1 Hsq2).
Qed.

Lemma session_ids_ok cfg w s0 w0 s w' :
  initializeGame cfg w = Some (s0, w0) → session s0 w0 s w' →
  ids_ok w' s ∧ Forall (ids_ok w') (previousStates s).
Proof.
  intros Hinit Hsession.
  induction Hsession as [|s w1 d r w1' _ [IH IHh] Hmove|s w1 _ [IH IHh]
                        |s w1 _ [IH IHh]|s w1 _ [IH IHh]].
  - split; [by eapply initializeGame_ids_ok|].
    destruct (initializeGame_fresh _ _ _ _ Hinit) as (-> & _). done.
  - split; [by eapply move_ids_ok|].
    pose proof (move_counter _ _ _ _ _ Hmove) as Hle.
    assert (Hh : Forall (ids_ok w1') (previousStates s)).
    { eapply Forall_impl; [exact IHh|]. intros p. by apply ids_ok_mono. }
    destruct (move_cases _ _ _ _ _ Hmove)
      as [->|(pm & w2 & g' & st & _ & _ & _ & _ & _ & ->)]; [done|].
    simpl. apply slice0_Forall. constructor; [|done].
    apply (ids_ok_fields _ s); [|by eapply ids_ok_mono].
    unfold cloneGameState. simpl. apply cloneGrid_id.
  - unfold undo. destruct (previousStates s) as [|p ps] eqn:Hps.
    { split; [done|]. by rewrite Hps. }
    apply Forall_cons in IHh as [Hp Hrest].
    split; [by apply (ids_ok_fields _ p)|done].
  - unfold continueAfterWin. case_bool_decide; [|done].
    split; [by apply (ids_ok_fields _ s)|done].
  - unfold hook_continueGame. case_bool_decide; [|done].
    split; [by apply (ids_ok_fields _ s)|done].
Qed.

(** X28: in a session, where every call continues in the world the
    previous one left, no two tiles of the board ever carry the same
    identifier, every identifier on the board was generated before the
    counter reached its current value, and the same holds of every board
    kept in the history; the identifier counter never decreases. *)
Theorem session_ids_unique cfg w s0 w0 s w' :
  initializeGame cfg w = Some (s0, w0) → session s0 w0 s w' →
  unique_ids (grid s) ∧ ids_below w' (grid s) ∧
  Forall (λ p, unique_ids (grid p) ∧ ids_below w' (grid p))
    (previousStates s) ∧
  (tileIdCounter w0 ≤ tileIdCounter w')%nat.
Proof.
  intros Hinit Hsession.
  destruct (session_ids_ok _ _ _ _ _ _ Hinit Hsession) as [(_ & ? & ?) Hh].
  split; [done|]. split; [done|]. split.
  - eapply Forall_impl; [exact Hh|]. by intros p (_ & ? & ?).
  - clear -Hsession. induction Hsession as [|s w1 d r w1' _ IH Hmove| | |];
      try done. apply move_counter in Hmove. lia.
Qed.

Lemma session_ids_unique_witness :
  unique_ids (grid (newState result1)) ∧
  ids_below world2 (grid (newState result1)) ∧
  Forall (λ p, unique_ids (grid p) ∧ ids_below world2 (grid p))
    (previousStates (newState result1)) ∧
  (tileIdCounter world1 ≤ tileIdCounter world2)%nat.
Proof.
  apply (session_ids_unique DEFAULT_GAME_CONFIG world0 state0 world1).
  - exact game0_eq.
  - eapply session_move; [apply session_start|exact turn1_eq].
Defined.

(** ** The status after a move *)

(** X29: after an accepted move on a square board, the new status is
    [Won] when the status was [Won] or a tile of the new board has
    reached the target; otherwise it is [Playing] when some tile of the
    new board can slide or merge in one of the four directions, and
    [Lost] when none can: a game is declared lost exactly when it is
    not won and the board is stuck. *)
Theorem move_status_exact s d w r w' :
  square (length (grid s)) (grid s) →
  move s d w = Some (r, w') → moved r = true →
  status (newState r)
  = if bool_decide (status s = Won)
       || hasWon (grid (newState r)) (targetValue (config s))
    then Won
    else if existsb (anyTileCanMove (grid (newState r))) directions
         then Playing else Lost.
Proof.
  intros Hsq Hmove Hmoved.
  destruct (move_cases _ _ _ _ _ Hmove)
    as [->|(pm & w1 & g' & st & _ & Hpm & _ & Hsp & Hst & ->)]; [done|].
  cbn [newState status grid].
  destruct (performMove_conserved (grid s) d w Hsq)
    as (pm' & w1' & Hpm' & Hsq1 & _).
  rewrite Hpm in Hpm'. injection Hpm' as <- <-.
  destruct (spawnRandomTile_Some _ _ _ _ _ _ Hsq1 Hsp)
    as (_ & _ & t & _ & _ & _ & Hsq' & _ & Hp).
  assert (Htiles : getAllTiles g' ≠ []).
  { intros Hnil. rewrite Hnil in Hp. by apply Permutation_nil_cons in Hp. }
  assert (Hsq2 : square (length g') g') by (by rewrite (proj1 Hsq')).
  unfold determineGameStatus in Hst.
  rewrite (hasMovesAvailable_moves g' Hsq2 Htiles) in Hst.
  destruct (bool_decide (status s = Won)); [simpl; congruence|].
  destruct (hasWon g' _); [simpl; congruence|].
  destruct (existsb _ _); simpl; congruence.
Qed.

Lemma move_status_exact_witness :
  status (newState result1)
  = if bool_decide (status state0 = Won)
       || hasWon (grid (newState result1)) (targetValue (config state0))
    then Won
    else if existsb (anyTileCanMove (grid (newState result1))) directions
         then Playing else Lost.
Proof.
  apply (move_status_exact state0 Left world1 result1 world2).
  - apply squareb_square. reflexivity.
  - exact turn1_eq.
  - reflexivity.
Defined.

(** ** Play never throws *)

(** X30: in a game started by [initializeGame], whatever moves, undos
    and continuations have been made, a further move in any direction
    with draws in [[0, 1)] never throws: [move] returns a result, the
    hook's own [move] handler returns its new state, and a tile has
    moved exactly when the game is not lost and some tile can slide or
    merge in that direction. *)
Theorem play_never_throws cfg w s0 w0 s d w1 :
  initializeGame cfg w = Some (s0, w0) → reachable s0 s →
  random_in_range w1 →
  ∃ r w2, move s d w1 = Some (r, w2) ∧
          hook_move s d w1 = Some (newState r, w2) ∧
          moved r = negb (bool_decide (status s = Lost))
                    && anyTileCanMove (grid s) d.
Proof.
  intros Hinit Hreach Hrand.
  destruct (reachable_game_ok _ _ _ _ _ Hinit Hreach)
    as (([Hwf _] & _ & _ & _ & Hcfg & _) & _).
  destruct (initializeGame_inv _ _ _ _ Hinit) as [Hvalid _].
  pose proof (validateGameConfig_nil_shape cfg Hvalid)
    as (_ & _ & _ & Hsv & _).
  destruct (move_spec s d w1 Hwf) as (r & w2 & Hmove & Hmoved);
    [by rewrite Hcfg|done|].
  exists r, w2. split; [done|]. split; [|done].
  unfold hook_move, bind. by rewrite Hmove.
Qed.

Lemma play_never_throws_witness :
  ∃ r w2, move (newState result1) Up world2 = Some (r, w2) ∧
          hook_move (newState result1) Up world2 = Some (newState r, w2) ∧
          moved r = negb (bool_decide (status (newState result1) = Lost))
                    && anyTileCanMove (grid (newState result1)) Up.
Proof.
  apply (play_never_throws DEFAULT_GAME_CONFIG world0 state0 world1).
  - exact game0_eq.
  - eapply reach_move; [apply reach_start|exact turn1_eq].
  - intros k. apply (random_in_range_world0 k).
Defined.
